(** * Lockers: a locker inventory with size classes and virtual capacities

    A shallow embedding of the Go package [lockers] and the verification of
    its specification.  Two revisions of [lockers.go] are embedded: the one
    stored as [src/lockers.go] and the one stored as [src/unnamed/part_000].
    They share every function except [DepositPackage] and
    [RetrievePackageInternal]; the shared functions are defined once, the
    two that differ live in the modules [LockersGo] and [Part000]. *)

From stdpp Require Import base gmap list strings fin_maps list_numbers pretty.
From Stdlib Require Import ZArith Lia.

Open Scope Z_scope.

(** ** Machine integers

    Go's [int] on the 64-bit targets and [int64]: a value is a [Z] in
    [[-2^63, 2^63)], and arithmetic wraps around. *)

Definition MIN_INT : Z := - 2 ^ 63.
Definition MAX_INT : Z := 2 ^ 63 - 1.

Definition int_ok (z : Z) : Prop := MIN_INT ≤ z ≤ MAX_INT.

Definition wrap (z : Z) : Z := (z + 2 ^ 63) mod 2 ^ 64 - 2 ^ 63.

Definition int_add (a b : Z) : Z := wrap (a + b).
Definition int_sub (a b : Z) : Z := wrap (a - b).
Definition int64_mul (a b : Z) : Z := wrap (a * b).

(** [len(x)] of a slice.  A length lies between 0 and [MAX_INT], so that
    [len(x) - 1] and [len(m) + 1] below are written without wrap-around. *)
Definition len {A} (l : list A) : Z := Z.of_nat (length l).

(** ** SizeSpec *)

(** [type LockerSize int] *)
Abbreviation LockerSize := Z.

Record SizeSpec := mkSizeSpec { Length : Z; Width : Z; Height : Z }.

Definition SizeSpec_ok (s : SizeSpec) : Prop :=
  int_ok (Length s) ∧ int_ok (Width s) ∧ int_ok (Height s).

#[global] Instance SizeSpec_eq_dec : EqDecision SizeSpec.
Proof. solve_decision. Defined.

#[global] Instance SizeSpec_countable : Countable SizeSpec.
Proof.
  refine (inj_countable' (λ s, (Length s, Width s, Height s))
            (λ t, mkSizeSpec t.1.1 t.1.2 t.2) _).
  by intros [].
Defined.

(** [if x < 0 { x = 0 - x }] *)
Definition make_positive (x : Z) : Z := if decide (x < 0) then int_sub 0 x else x.

(** [func (spec SizeSpec) Normalize() SizeSpec]: the receiver is a copy which
    the six statements update in turn. *)
Definition Normalize (spec : SizeSpec) : SizeSpec :=
  let spec := mkSizeSpec (make_positive (Length spec)) (Width spec) (Height spec) in
  let spec := mkSizeSpec (Length spec) (make_positive (Width spec)) (Height spec) in
  let spec := mkSizeSpec (Length spec) (Width spec) (make_positive (Height spec)) in
  let spec := if decide (Height spec > Width spec)
              then mkSizeSpec (Length spec) (Height spec) (Width spec) else spec in
  let spec := if decide (Width spec > Length spec)
              then mkSizeSpec (Width spec) (Length spec) (Height spec) else spec in
  let spec := if decide (Height spec > Width spec)
              then mkSizeSpec (Length spec) (Height spec) (Width spec) else spec in
  spec.

(** [func (spec SizeSpec) Volume() int64] *)
Definition Volume (spec : SizeSpec) : Z :=
  int64_mul (int64_mul (Length spec) (Width spec)) (Height spec).

(** [func (spec SizeSpec) Contains(other SizeSpec) bool] *)
Definition Contains (spec other : SizeSpec) : bool :=
  bool_decide (Length spec >= Length other) &&
  bool_decide (Width spec >= Width other) &&
  bool_decide (Height spec >= Height other).


(** ** The structs

    A [*Package] is the address of a caller-owned package in the store of
    packages; a [*Locker] is either a slot of the inventory's [Lockers]
    array, named by its index, or a locker that lives elsewhere. *)

Abbreviation PkgPtr := positive.

Inductive LockerPtr :=
  | PoolLocker (index : Z)
  | OtherLocker (addr : positive).

Module LockerControlSpec.
Record t := mk {
  SizeId : LockerSize;
  Size : SizeSpec;
  BiggerThan : list LockerSize;
  SmallerThan : list LockerSize;
  Lockers : list Z;
  VirtualCapacity : Z
}.
Definition with_BiggerThan (c : t) (v : list LockerSize) : t :=
  mk (SizeId c) (Size c) v (SmallerThan c) (Lockers c) (VirtualCapacity c).
Definition with_SmallerThan (c : t) (v : list LockerSize) : t :=
  mk (SizeId c) (Size c) (BiggerThan c) v (Lockers c) (VirtualCapacity c).
Definition with_Lockers (c : t) (v : list Z) : t :=
  mk (SizeId c) (Size c) (BiggerThan c) (SmallerThan c) v (VirtualCapacity c).
Definition with_VirtualCapacity (c : t) (v : Z) : t :=
  mk (SizeId c) (Size c) (BiggerThan c) (SmallerThan c) (Lockers c) v.
End LockerControlSpec.
Abbreviation LockerControlSpec := LockerControlSpec.t.

Module Locker.
Record t := mk {
  Id : string;
  SizeId : LockerSize;
  Contents : option PkgPtr
}.
Definition with_Contents (l : t) (v : option PkgPtr) : t := mk (Id l) (SizeId l) v.
End Locker.
Abbreviation Locker := Locker.t.

Module Package.
Record t := mk {
  Id : string;
  Size : SizeSpec;
  StoredIn : option LockerPtr
}.
Definition with_StoredIn (p : t) (v : option LockerPtr) : t := mk (Id p) (Size p) v.
End Package.
Abbreviation Package := Package.t.

(** [Control] maps a size class to a pointer to its control block.
    [NewInventory] allocates one block per class, so the map is modelled as
    holding the blocks themselves. *)
Module Inventory.
Record t := mk {
  Lockers : list Locker;
  Control : gmap LockerSize LockerControlSpec;
  Sizes : gmap SizeSpec LockerSize;
  LockersById : gmap string Z;
  LockersByPackageId : gmap string Z
}.
Definition with_Lockers (i : t) (v : list Locker) : t :=
  mk v (Control i) (Sizes i) (LockersById i) (LockersByPackageId i).
Definition with_Control (i : t) (v : gmap LockerSize LockerControlSpec) : t :=
  mk (Lockers i) v (Sizes i) (LockersById i) (LockersByPackageId i).
Definition with_Sizes (i : t) (v : gmap SizeSpec LockerSize) : t :=
  mk (Lockers i) (Control i) v (LockersById i) (LockersByPackageId i).
Definition with_LockersById (i : t) (v : gmap string Z) : t :=
  mk (Lockers i) (Control i) (Sizes i) v (LockersByPackageId i).
Definition with_LockersByPackageId (i : t) (v : gmap string Z) : t :=
  mk (Lockers i) (Control i) (Sizes i) (LockersById i) v.
End Inventory.
Abbreviation Inventory := Inventory.t.

(** [func (lcs LockerControlSpec) Full() bool] *)
Definition Full (lcs : LockerControlSpec) : bool :=
  bool_decide (len (LockerControlSpec.Lockers lcs) = 0).

(** ** The interface [IControlSpec] and [Before] *)

Class IControlSpec (T : Type) :=
  ControlSpec : T → LockerSize → option LockerControlSpec.

(** [func (inv Inventory) ControlSpec(size_id LockerSize) *LockerControlSpec]:
    [None] is the nil pointer. *)
#[global] Instance Inventory_ControlSpec : IControlSpec Inventory :=
  λ inv size_id, Inventory.Control inv !! size_id.

(** [func (id LockerSize) Before(other_id LockerSize, inv IControlSpec) bool].
    [None] is the panic of dereferencing a nil control block. *)
Definition Before {T} `{IControlSpec T} (id other_id : LockerSize) (inv : T) : option bool :=
  self ← ControlSpec inv id;
  other ← ControlSpec inv other_id;
  Some (if decide (LockerControlSpec.VirtualCapacity self > LockerControlSpec.VirtualCapacity other)
        then true
        else if decide (LockerControlSpec.VirtualCapacity self = LockerControlSpec.VirtualCapacity other
                        ∧ Volume (LockerControlSpec.Size self) < Volume (LockerControlSpec.Size other))
        then true
        else false).

(** ** State and faults

    The operations run on the inventory and on the packages it points to.
    A computation returns [None] when the Go code panics; a Go [error] is an
    ordinary return value. *)

Record World := mkWorld {
  inventory : Inventory;
  packages : gmap PkgPtr Package
}.

Definition M (A : Type) : Type := World → option (A * World).

Definition ret {A} (a : A) : M A := λ w, Some (a, w).
Definition bind {A B} (m : M A) (k : A → M B) : M B :=
  λ w, match m w with
       | Some (a, w') => k a w'
       | None => None
       end.
Definition panic {A} : M A := λ _, None.

Declare Scope go_scope.
Delimit Scope go_scope with go.
Notation "x <- m ;; k" := (bind m (λ x, k))
  (at level 100, m at next level, right associativity) : go_scope.
Notation "m ;;; k" := (bind m (λ _, k))
  (at level 100, right associativity) : go_scope.
Open Scope go_scope.

(** Go's [(T, error)]: either the value with a nil error, or the error. *)
Inductive result (A : Type) :=
  | Ok (a : A)
  | Err (e : string).
Arguments Ok {A} a.
Arguments Err {A} e.

Definition get_inv : M Inventory := λ w, Some (inventory w, w).
Definition put_inv (inv : Inventory) : M unit := λ w, Some (tt, mkWorld inv (packages w)).

(** A nil dereference, or an index out of range. *)
Definition deref {A} (o : option A) : M A :=
  match o with
  | Some a => ret a
  | None => panic
  end.

(** [l[i]] on a slice. *)
Definition index {A} (l : list A) (i : Z) : option A :=
  if decide (0 ≤ i) then l !! Z.to_nat i else None.

Definition load_pkg (p : PkgPtr) : M Package :=
  λ w, match packages w !! p with
       | Some v => Some (v, w)
       | None => None
       end.
Definition store_pkg (p : PkgPtr) (v : Package) : M unit :=
  λ w, Some (tt, mkWorld (inventory w) (<[p := v]> (packages w))).

(** [inv.Lockers[i]] read and written *)
Definition load_locker (i : Z) : M Locker :=
  inv <- get_inv;; deref (index (Inventory.Lockers inv) i).
Definition store_locker (i : Z) (l : Locker) : M unit :=
  inv <- get_inv;;
  _ <- deref (index (Inventory.Lockers inv) i);;
  put_inv (Inventory.with_Lockers inv (<[Z.to_nat i := l]> (Inventory.Lockers inv))).

(** The control block [inv.Control[size_id]] points to, read and written *)
Definition load_ctrl (size_id : LockerSize) : M LockerControlSpec :=
  inv <- get_inv;; deref (ControlSpec inv size_id).
Definition store_ctrl (size_id : LockerSize) (c : LockerControlSpec) : M unit :=
  inv <- get_inv;;
  put_inv (Inventory.with_Control inv (<[size_id := c]> (Inventory.Control inv))).

(** ** Lockers and packages *)

(** [func (l *Locker) Put(pkg *Package) error], with [l = &inv.Lockers[l]] *)
Definition Put (l : Z) (pkg : PkgPtr) : M (option string) :=
  lv <- load_locker l;;
  match Locker.Contents lv with
  | Some _ => ret (Some "Locker is not empty"%string)
  | None =>
      pv <- load_pkg pkg;;
      match Package.StoredIn pv with
      | Some _ => ret (Some "Package already in locker"%string)
      | None =>
          store_locker l (Locker.with_Contents lv (Some pkg));;;
          store_pkg pkg (Package.with_StoredIn pv (Some (PoolLocker l)));;;
          ret None
      end
  end.

(** [func (l *Locker) Fetch() ( *Package, error)], with [l = &inv.Lockers[l]] *)
Definition Fetch (l : Z) : M (result PkgPtr) :=
  lv <- load_locker l;;
  match Locker.Contents lv with
  | None => ret (Err "Tried to fetch from empty locker")
  | Some p =>
      store_locker l (Locker.with_Contents lv None);;;
      pv <- load_pkg p;;
      store_pkg p (Package.with_StoredIn pv None);;;
      ret (Ok p)
  end.

(** ** Selection *)

(** The first loop of [GetMostSuitableLockerSize]; [order] is the sequence in
    which [range inv.Sizes] yields the entries of the map. *)
Fixpoint candidate_sizes (order : list (SizeSpec * LockerSize)) (package_size : SizeSpec)
    : M (list LockerSize) :=
  match order with
  | [] => ret []
  | (size, size_id) :: order =>
      if negb (Contains size package_size) then candidate_sizes order package_size
      else
        ctrl <- load_ctrl size_id;;
        if Full ctrl then candidate_sizes order package_size
        else
          rest <- candidate_sizes order package_size;;
          ret (size_id :: rest)
  end.

(** The second loop: the scan for the most eligible candidate. *)
Fixpoint choose (chosen_id : LockerSize) (ids : list LockerSize) : M LockerSize :=
  match ids with
  | [] => ret chosen_id
  | id :: ids =>
      inv <- get_inv;;
      b <- deref (Before id chosen_id inv);;
      if b : bool then choose id ids else choose chosen_id ids
  end.

(** [func (inv *Inventory) GetMostSuitableLockerSize(package_size SizeSpec) (LockerSize, error)] *)
Definition GetMostSuitableLockerSize (order : list (SizeSpec * LockerSize))
    (package_size : SizeSpec) : M (result LockerSize) :=
  candidates <- candidate_sizes order package_size;;
  match candidates with
  | [] => ret (Err "No available lockers which can fit package")
  | first :: others =>
      chosen_id <- choose first others;;
      ret (Ok chosen_id)
  end.

(** ** Allocation *)

(** The loop of [AdjustVirtualCapacity]. *)
Fixpoint adjust_each (ids : list LockerSize) (by_ : Z) : M unit :=
  match ids with
  | [] => ret tt
  | other_id :: ids =>
      other <- load_ctrl other_id;;
      store_ctrl other_id
        (LockerControlSpec.with_VirtualCapacity other
           (int_add (LockerControlSpec.VirtualCapacity other) by_));;;
      adjust_each ids by_
  end.

(** [func (inv *Inventory) AdjustVirtualCapacity(size_id LockerSize, by int)] *)
Definition AdjustVirtualCapacity (size_id : LockerSize) (by_ : Z) : M unit :=
  ctrl <- load_ctrl size_id;;
  store_ctrl size_id
    (LockerControlSpec.with_VirtualCapacity ctrl
       (int_add (LockerControlSpec.VirtualCapacity ctrl) by_));;;
  ctrl <- load_ctrl size_id;;
  adjust_each (LockerControlSpec.BiggerThan ctrl) by_.

(** [func (inv *Inventory) AllocateLocker(size_id LockerSize) int] *)
Definition AllocateLocker (size_id : LockerSize) : M Z :=
  ctrl <- load_ctrl size_id;;
  let n := len (LockerControlSpec.Lockers ctrl) - 1 in
  locker_index <- deref (index (LockerControlSpec.Lockers ctrl) n);;
  store_ctrl size_id
    (LockerControlSpec.with_Lockers ctrl (take (Z.to_nat n) (LockerControlSpec.Lockers ctrl)));;;
  AdjustVirtualCapacity size_id (-1);;;
  ret locker_index.

(** [func (inv *Inventory) DeallocateLocker(locker_index int)] *)
Definition DeallocateLocker (locker_index : Z) : M unit :=
  l <- load_locker locker_index;;
  let size_id := Locker.SizeId l in
  ctrl <- load_ctrl size_id;;
  store_ctrl size_id
    (LockerControlSpec.with_Lockers ctrl (LockerControlSpec.Lockers ctrl ++ [locker_index]));;;
  AdjustVirtualCapacity size_id 1.

(** [v, ok := m[k]]: the zero value when the key is absent. *)
Definition comma_ok (m : gmap string Z) (k : string) : Z * bool :=
  match m !! k with
  | Some v => (v, true)
  | None => (0, false)
  end.

(** ** Deposit and retrieval, revision [src/lockers.go] *)

Module LockersGo.

(** [func (inv *Inventory) DepositPackage(pkg *Package) (string, error)] *)
Definition DepositPackage (order : list (SizeSpec * LockerSize)) (pkg : PkgPtr)
    : M (result string) :=
  pv <- load_pkg pkg;;
  inv <- get_inv;;
  if (comma_ok (Inventory.LockersByPackageId inv) (Package.Id pv)).2
  then ret (Err "Duplicate package ID")
  else
    r <- GetMostSuitableLockerSize order (Normalize (Package.Size pv));;
    match r with
    | Err e => ret (Err e)
    | Ok chosen_id =>
        locker_index <- AllocateLocker chosen_id;;
        _ <- Put locker_index pkg;;
        l <- load_locker locker_index;;
        ret (Ok (Locker.Id l))
    end.

(** [func (inv *Inventory) RetrievePackageInternal(locker_index int, ok bool) ( *Package, error)] *)
Definition RetrievePackageInternal (locker_index : Z) (ok : bool) : M (result PkgPtr) :=
  if negb ok then ret (Err "Package ID not known")
  else
    r <- Fetch locker_index;;
    match r with
    | Err e => ret (Err e)
    | Ok pkg =>
        DeallocateLocker locker_index;;;
        ret (Ok pkg)
    end.

(** [func (inv *Inventory) RetrievePackageById(id string) ( *Package, error)] *)
Definition RetrievePackageById (id : string) : M (result PkgPtr) :=
  inv <- get_inv;;
  let '(lid, ok) := comma_ok (Inventory.LockersByPackageId inv) id in
  RetrievePackageInternal lid ok.

(** [func (inv *Inventory) RetrievePackageByLockerId(id string) ( *Package, error)] *)
Definition RetrievePackageByLockerId (id : string) : M (result PkgPtr) :=
  inv <- get_inv;;
  let '(lid, ok) := comma_ok (Inventory.LockersById inv) id in
  RetrievePackageInternal lid ok.

(** [func (inv *Inventory) RetrievePackage(pkg *Package) ( *Package, error)] *)
Definition RetrievePackage (pkg : PkgPtr) : M (result PkgPtr) :=
  pv <- load_pkg pkg;;
  RetrievePackageById (Package.Id pv).

End LockersGo.

(** ** Deposit and retrieval, revision [src/unnamed/part_000] *)

Module Part000.

(** [func (inv *Inventory) DepositPackage(pkg *Package) (LockerID, error)] *)
Definition DepositPackage (order : list (SizeSpec * LockerSize)) (pkg : PkgPtr)
    : M (result string) :=
  pv <- load_pkg pkg;;
  inv <- get_inv;;
  if (comma_ok (Inventory.LockersByPackageId inv) (Package.Id pv)).2
  then ret (Err "Duplicate package ID")
  else
    r <- GetMostSuitableLockerSize order (Normalize (Package.Size pv));;
    match r with
    | Err e => ret (Err e)
    | Ok chosen_id =>
        ctrl <- load_ctrl chosen_id;;
        let n := len (LockerControlSpec.Lockers ctrl) - 1 in
        locker_index <- deref (index (LockerControlSpec.Lockers ctrl) n);;
        err <- Put locker_index pkg;;
        match err with
        | Some e => ret (Err e)
        | None =>
            _ <- AllocateLocker chosen_id;;
            pv <- load_pkg pkg;;
            inv <- get_inv;;
            put_inv (Inventory.with_LockersByPackageId inv
                       (<[Package.Id pv := locker_index]> (Inventory.LockersByPackageId inv)));;;
            l <- load_locker locker_index;;
            ret (Ok (Locker.Id l))
        end
    end.

(** [func (inv *Inventory) RetrievePackageInternal(locker_index int, ok bool) ( *Package, error)] *)
Definition RetrievePackageInternal (locker_index : Z) (ok : bool) : M (result PkgPtr) :=
  if negb ok then ret (Err "Package ID not known")
  else
    r <- Fetch locker_index;;
    match r with
    | Err e => ret (Err e)
    | Ok pkg =>
        DeallocateLocker locker_index;;;
        pv <- load_pkg pkg;;
        inv <- get_inv;;
        put_inv (Inventory.with_LockersByPackageId inv
                   (delete (Package.Id pv) (Inventory.LockersByPackageId inv)));;;
        ret (Ok pkg)
    end.

(** [func (inv *Inventory) RetrievePackageById(id PackageID) ( *Package, error)] *)
Definition RetrievePackageById (id : string) : M (result PkgPtr) :=
  inv <- get_inv;;
  let '(lid, ok) := comma_ok (Inventory.LockersByPackageId inv) id in
  RetrievePackageInternal lid ok.

(** [func (inv *Inventory) RetrievePackageByLockerId(id LockerID) ( *Package, error)] *)
Definition RetrievePackageByLockerId (id : string) : M (result PkgPtr) :=
  inv <- get_inv;;
  let '(lid, ok) := comma_ok (Inventory.LockersById inv) id in
  RetrievePackageInternal lid ok.

(** [func (inv *Inventory) RetrievePackage(pkg *Package) ( *Package, error)] *)
Definition RetrievePackage (pkg : PkgPtr) : M (result PkgPtr) :=
  pv <- load_pkg pkg;;
  RetrievePackageById (Package.Id pv).

End Part000.

(** ** Construction

    [NewInventory] receives a Go map and ranges over it, and later over
    [inv.Control]; Go leaves the order of a [range] over a map unspecified.
    The argument [locker_counts_by_size] is the sequence of entries in the
    order the loops visit them (the total of the first loop does not depend
    on it), and [range_control] gives, for a map of control blocks, the order
    in which the last loop visits its keys.  [uuid k] is the identifier that
    the [k]-th call of [uuid.NewString()] returns. *)

Fixpoint fold_opt {A B} (f : A → B → option A) (a : A) (l : list B) : option A :=
  match l with
  | [] => Some a
  | b :: l => a' ← f a b; fold_opt f a' l
  end.

Section construction.
Variable uuid : nat → string.
Variable range_control : gmap LockerSize LockerControlSpec → list LockerSize.

(** The state of the first loop: the inventory under construction, the
    slice [sizes], the counter [index] and the number of identifiers drawn
    so far. *)
Record builder := mkBuilder {
  b_inv : Inventory;
  b_sizes : list SizeSpec;
  b_index : Z;
  b_drawn : nat
}.

(** One turn of the inner loop, at [index = idx]. *)
Definition new_locker (size_id : LockerSize) (st : Inventory * nat) (idx : Z)
    : option (Inventory * nat) :=
  let '(inv, n) := st in
  let id := uuid n in
  _ ← index (Inventory.Lockers inv) idx;
  let inv := Inventory.with_Lockers inv
               (<[Z.to_nat idx := Locker.mk id size_id None]> (Inventory.Lockers inv)) in
  let inv := Inventory.with_LockersById inv (<[id := idx]> (Inventory.LockersById inv)) in
  ctrl ← Inventory.Control inv !! size_id;
  Some (Inventory.with_Control inv
          (<[size_id := LockerControlSpec.with_Lockers ctrl
                          (LockerControlSpec.Lockers ctrl ++ [idx])]> (Inventory.Control inv)),
        S n).

(** One turn of the first loop.  [make([]int, 0, count)] panics on a
    negative [count]; the inner loop runs from [index] up to [max]. *)
Definition add_size (b : builder) (entry : SizeSpec * Z) : option builder :=
  let '(size, count) := entry in
  let size := Normalize size in
  let inv := b_inv b in
  '(inv, sizes, size_id) ←
    match Inventory.Sizes inv !! size with
    | Some size_id => Some (inv, b_sizes b, size_id)
    | None =>
        if decide (count < 0) then None
        else
          let size_id := Z.of_nat (base.size (Inventory.Sizes inv)) + 1 in
          let inv := Inventory.with_Sizes inv (<[size := size_id]> (Inventory.Sizes inv)) in
          let inv := Inventory.with_Control inv
                       (<[size_id := LockerControlSpec.mk size_id size [] [] [] 0]>
                          (Inventory.Control inv)) in
          Some (inv, b_sizes b ++ [size], size_id)
    end;
  let max := int_add count (b_index b) in
  '(inv, n) ← fold_opt (new_locker size_id) (inv, b_drawn b)
                (seqZ (b_index b) (max - b_index b));
  Some (mkBuilder inv sizes (Z.max (b_index b) max) n).

(** [inv.Control[id].BiggerThan = append(inv.Control[id].BiggerThan, x)] *)
Definition push_BiggerThan (inv : Inventory) (id x : LockerSize) : option Inventory :=
  ctrl ← Inventory.Control inv !! id;
  Some (Inventory.with_Control inv
          (<[id := LockerControlSpec.with_BiggerThan ctrl
                     (LockerControlSpec.BiggerThan ctrl ++ [x])]> (Inventory.Control inv))).

(** [inv.Control[id].SmallerThan = append(inv.Control[id].SmallerThan, x)] *)
Definition push_SmallerThan (inv : Inventory) (id x : LockerSize) : option Inventory :=
  ctrl ← Inventory.Control inv !! id;
  Some (Inventory.with_Control inv
          (<[id := LockerControlSpec.with_SmallerThan ctrl
                     (LockerControlSpec.SmallerThan ctrl ++ [x])]> (Inventory.Control inv))).

(** [inv.Sizes[s]]: the zero value when the key is absent. *)
Definition size_id_of (inv : Inventory) (s : SizeSpec) : LockerSize :=
  default 0 (Inventory.Sizes inv !! s).

(** The body of the inner loop of the second pass, for the pair [s1], [s2]. *)
Definition relate (s1 : SizeSpec) (inv : Inventory) (s2 : SizeSpec) : option Inventory :=
  if Contains s1 s2 then
    inv ← push_BiggerThan inv (size_id_of inv s1) (size_id_of inv s2);
    push_SmallerThan inv (size_id_of inv s2) (size_id_of inv s1)
  else if Contains s2 s1 then
    inv ← push_SmallerThan inv (size_id_of inv s1) (size_id_of inv s2);
    push_BiggerThan inv (size_id_of inv s2) (size_id_of inv s1)
  else Some inv.

(** [for i, s1 := range sizes { for _, s2 := range sizes[i+1:] { ... } }] *)
Fixpoint relate_all (inv : Inventory) (sizes : list SizeSpec) : option Inventory :=
  match sizes with
  | [] => Some inv
  | s1 :: sizes =>
      inv ← fold_opt (relate s1) inv sizes;
      relate_all inv sizes
  end.

(** One turn of the last loop, on the control block of class [id]. *)
Definition seed_capacity (inv : Inventory) (id : LockerSize) : option Inventory :=
  ctrl ← Inventory.Control inv !! id;
  vc ← fold_opt
         (λ vc other_id,
            other ← Inventory.Control inv !! other_id;
            Some (int_add vc (len (LockerControlSpec.Lockers other))))
         (LockerControlSpec.VirtualCapacity ctrl)
         (LockerControlSpec.SmallerThan ctrl);
  Some (Inventory.with_Control inv
          (<[id := LockerControlSpec.with_VirtualCapacity ctrl
                     (int_add vc (len (LockerControlSpec.Lockers ctrl)))]>
             (Inventory.Control inv))).

Definition total_locker_count (locker_counts_by_size : list (SizeSpec * Z)) : Z :=
  foldl (λ total entry, int_add total entry.2) 0 locker_counts_by_size.

(** [func NewInventory(locker_counts_by_size map[SizeSpec]int) *Inventory];
    [make([]Locker, n, n)] panics on a negative [n]. *)
Definition NewInventory (locker_counts_by_size : list (SizeSpec * Z)) : option Inventory :=
  let total := total_locker_count locker_counts_by_size in
  if decide (total < 0) then None
  else
    let inv := Inventory.mk (replicate (Z.to_nat total) (Locker.mk "" 0 None)) ∅ ∅ ∅ ∅ in
    b ← fold_opt add_size (mkBuilder inv [] 0 0%nat) locker_counts_by_size;
    inv ← relate_all (b_inv b) (b_sizes b);
    fold_opt seed_capacity inv (range_control (Inventory.Control inv)).

End construction.

(** ** Vocabulary of the specification *)

(** Class [a] sorts before class [b]. *)
Definition sorts_before (a b : LockerControlSpec) : Prop :=
  LockerControlSpec.VirtualCapacity a > LockerControlSpec.VirtualCapacity b
  ∨ (LockerControlSpec.VirtualCapacity a = LockerControlSpec.VirtualCapacity b
     ∧ Volume (LockerControlSpec.Size a) < Volume (LockerControlSpec.Size b)).

(** A candidate class for a request: a size class that contains the
    requested size and has a non-empty free list. *)
Definition candidate (inv : Inventory) (package_size : SizeSpec) (size_id : LockerSize) : Prop :=
  ∃ size ctrl,
    Inventory.Sizes inv !! size = Some size_id
    ∧ Contains size package_size = true
    ∧ Inventory.Control inv !! size_id = Some ctrl
    ∧ LockerControlSpec.Lockers ctrl ≠ [].

(** Every size class of [Sizes] has its control block. *)
Definition sizes_controlled (inv : Inventory) : Prop :=
  map_Forall (λ _ size_id, is_Some (Inventory.Control inv !! size_id)) (Inventory.Sizes inv).

(** The world with the map of control blocks replaced. *)
Definition upd_control (f : gmap LockerSize LockerControlSpec → gmap LockerSize LockerControlSpec)
    (w : World) : World :=
  mkWorld (Inventory.with_Control (inventory w) (f (Inventory.Control (inventory w))))
          (packages w).

(** The world with locker [i] replaced, with package [p] replaced, and with
    the map [LockersByPackageId] replaced. *)
Definition set_locker (i : Z) (l : Locker) (w : World) : World :=
  mkWorld (Inventory.with_Lockers (inventory w)
             (<[Z.to_nat i := l]> (Inventory.Lockers (inventory w))))
          (packages w).

Definition set_pkg (p : PkgPtr) (v : Package) (w : World) : World :=
  mkWorld (inventory w) (<[p := v]> (packages w)).

Definition upd_by_package_id (f : gmap string Z → gmap string Z) (w : World) : World :=
  mkWorld (Inventory.with_LockersByPackageId (inventory w)
             (f (Inventory.LockersByPackageId (inventory w))))
          (packages w).

(** One adjustment of a control block's virtual capacity, and the effect of
    the loop of [AdjustVirtualCapacity] on the map of control blocks. *)
Definition bump (by_ : Z) (c : LockerControlSpec) : LockerControlSpec :=
  LockerControlSpec.with_VirtualCapacity c (int_add (LockerControlSpec.VirtualCapacity c) by_).

Definition adjust_all (ids : list LockerSize) (by_ : Z)
    (C : gmap LockerSize LockerControlSpec) : gmap LockerSize LockerControlSpec :=
  foldl (λ C id, alter (bump by_) id C) C ids.

(** Class [a] is strictly smaller than class [b]: the size of [b] contains
    the size of [a], and the two sizes differ. *)
Definition strictly_smaller (a b : LockerControlSpec) : Prop :=
  Contains (LockerControlSpec.Size b) (LockerControlSpec.Size a) = true
  ∧ LockerControlSpec.Size a ≠ LockerControlSpec.Size b.

(** The containment lists are those of the containment relation:
    [BiggerThan] of a class lists, once each, the classes strictly smaller
    than it, and [SmallerThan] the classes it is strictly smaller than. *)
Definition graph_ok (inv : Inventory) : Prop :=
  map_Forall (λ _ cs,
    NoDup (LockerControlSpec.BiggerThan cs)
    ∧ NoDup (LockerControlSpec.SmallerThan cs)
    ∧ Forall (λ T, is_Some (Inventory.Control inv !! T)) (LockerControlSpec.BiggerThan cs)
    ∧ Forall (λ T, is_Some (Inventory.Control inv !! T)) (LockerControlSpec.SmallerThan cs)
    ∧ map_Forall (λ T ct,
        (T ∈ LockerControlSpec.BiggerThan cs ↔ strictly_smaller ct cs)
        ∧ (T ∈ LockerControlSpec.SmallerThan cs ↔ strictly_smaller cs ct))
        (Inventory.Control inv))
  (Inventory.Control inv).

(** Every class named in a [BiggerThan] list has its control block. *)
Definition bigger_closed (inv : Inventory) : Prop :=
  map_Forall (λ _ cs,
    Forall (λ T, is_Some (Inventory.Control inv !! T)) (LockerControlSpec.BiggerThan cs))
  (Inventory.Control inv).

(** Every index on a free list is a locker of that class. *)
Definition free_typed (inv : Inventory) : Prop :=
  map_Forall (λ S c,
    Forall (λ i, Locker.SizeId <$> index (Inventory.Lockers inv) i = Some S)
           (LockerControlSpec.Lockers c))
  (Inventory.Control inv).

(** [LockersById] maps the identifier of every locker to its index. *)
Definition ids_indexed (inv : Inventory) : Prop :=
  Forall (λ il : nat * Locker,
            Inventory.LockersById inv !! Locker.Id il.2 = Some (Z.of_nat il.1))
         (imap pair (Inventory.Lockers inv)).

(** The virtual capacities are Go ints. *)
Definition vc_ok (inv : Inventory) : Prop :=
  map_Forall (λ _ c, int_ok (LockerControlSpec.VirtualCapacity c)) (Inventory.Control inv).

#[global] Instance sizes_controlled_dec inv : Decision (sizes_controlled inv).
Proof. unfold sizes_controlled. apply _. Defined.
#[global] Instance strictly_smaller_dec a b : Decision (strictly_smaller a b).
Proof. unfold strictly_smaller. apply _. Defined.
#[global] Instance graph_ok_dec inv : Decision (graph_ok inv).
Proof. unfold graph_ok. apply _. Defined.
#[global] Instance bigger_closed_dec inv : Decision (bigger_closed inv).
Proof. unfold bigger_closed. apply _. Defined.
#[global] Instance free_typed_dec inv : Decision (free_typed inv).
Proof. unfold free_typed. apply _. Defined.
#[global] Instance ids_indexed_dec inv : Decision (ids_indexed inv).
Proof. unfold ids_indexed. apply _. Defined.
#[global] Instance int_ok_dec z : Decision (int_ok z).
Proof. unfold int_ok. apply _. Defined.
#[global] Instance vc_ok_dec inv : Decision (vc_ok inv).
Proof. unfold vc_ok. apply _. Defined.

(** ** An example inventory

    The inventory that [NewInventory] builds for the size table of the test
    fixture [cplx]: two lockers of 1x1x1, three of 5x1x1, two of 3x3x1 and
    one of 5x5x5 (given denormalized).  Identifiers are numbered, and the
    maps are ranged over in the order of [map_to_list]. *)

Definition example_uuid (n : nat) : string := pretty n.

Definition example_range (m : gmap LockerSize LockerControlSpec) : list LockerSize :=
  (map_to_list m).*1.

Definition example_counts : list (SizeSpec * Z) :=
  [(mkSizeSpec 1 1 1, 2); (mkSizeSpec 5 1 1, 3); (mkSizeSpec 3 3 1, 2); (mkSizeSpec (-5) 5 5, 1)].

Definition example_inventory : Inventory :=
  default (Inventory.mk [] ∅ ∅ ∅ ∅) (NewInventory example_uuid example_range example_counts).

(** The example inventory and one package of size 2x1x4 that is not stored. *)
Definition example_world : World :=
  mkWorld example_inventory {[ 1%positive := Package.mk "parcel" (mkSizeSpec 2 1 4) None ]}.

Definition example_order : list (SizeSpec * LockerSize) :=
  map_to_list (Inventory.Sizes example_inventory).

(** The example world after the parcel has been deposited by revision
    [src/unnamed/part_000]. *)
Definition example_deposited : World :=
  default example_world
    (snd <$> Part000.DepositPackage example_order 1%positive example_world).

(** ** Vocabulary for the construction

    [bigs sizes s] are the sizes of [sizes] that [s] strictly contains, and
    [smalls sizes s] the sizes of [sizes] that strictly contain [s]. *)
Definition bigs (sizes : list SizeSpec) (s : SizeSpec) : list SizeSpec :=
  filter (λ t, Contains s t = true ∧ t ≠ s) sizes.

Definition smalls (sizes : list SizeSpec) (s : SizeSpec) : list SizeSpec :=
  filter (λ t, Contains t s = true ∧ t ≠ s) sizes.

(** What the second pass of [NewInventory] appends to the containment lists
    of a control block when its size is related to the sizes [news]. *)
Definition grow (idf : SizeSpec → LockerSize) (news : list SizeSpec)
    (c : LockerControlSpec) : LockerControlSpec :=
  LockerControlSpec.mk (LockerControlSpec.SizeId c) (LockerControlSpec.Size c)
    (LockerControlSpec.BiggerThan c ++ (idf <$> bigs news (LockerControlSpec.Size c)))
    (LockerControlSpec.SmallerThan c ++ (idf <$> smalls news (LockerControlSpec.Size c)))
    (LockerControlSpec.Lockers c) (LockerControlSpec.VirtualCapacity c).

(** The inventory with every control block transformed by [g]. *)
Definition amend (inv : Inventory) (g : LockerControlSpec → LockerControlSpec) : Inventory :=
  Inventory.with_Control inv (g <$> Inventory.Control inv).

(** The control blocks are those of the sizes [all], one per size, under
    the identifiers that [idf] gives to the sizes. *)
Definition classes_by_size (idf : SizeSpec → LockerSize) (inv : Inventory)
    (all : list SizeSpec) : Prop :=
  (∀ s, s ∈ all → ∃ c, Inventory.Control inv !! idf s = Some c ∧ LockerControlSpec.Size c = s)
  ∧ (∀ id c, Inventory.Control inv !! id = Some c →
       id = idf (LockerControlSpec.Size c) ∧ LockerControlSpec.Size c ∈ all).

Definition sumZ {A} (f : A → Z) (l : list A) : Z := foldr (λ x acc, f x + acc) 0 l.

(** The length of the free list of an entry of [Control], the total over
    all classes, and the length of the free list of the class [id]. *)
Definition free_of (kc : LockerSize * LockerControlSpec) : Z :=
  len (LockerControlSpec.Lockers kc.2).

Definition total_free (C : gmap LockerSize LockerControlSpec) : Z :=
  sumZ free_of (map_to_list C).

Definition free (C : gmap LockerSize LockerControlSpec) (id : LockerSize) : Z :=
  from_option (λ c, len (LockerControlSpec.Lockers c)) 0 (C !! id).

(** The sum of the free-list lengths over the classes that [P] selects. *)
Definition free_among (P : LockerControlSpec → Prop) `{∀ c, Decision (P c)}
    (inv : Inventory) : Z :=
  sumZ free_of (filter (λ kc, P kc.2) (map_to_list (Inventory.Control inv))).

(** The invariant of the first loop of [NewInventory]: the sizes seen so
    far are distinct and are the keys of [Sizes]; the identifiers are
    1, ..., n; every size has its control block, with empty containment
    lists and capacity 0; the free lists hold, in all, the [index] lockers
    written so far, each on the list of its own class. *)
Definition built (b : builder) : Prop :=
  NoDup (b_sizes b)
  ∧ (∀ s, s ∈ b_sizes b ↔ is_Some (Inventory.Sizes (b_inv b) !! s))
  ∧ base.size (Inventory.Sizes (b_inv b)) = length (b_sizes b)
  ∧ (∀ s id, Inventory.Sizes (b_inv b) !! s = Some id →
       1 ≤ id ≤ Z.of_nat (length (b_sizes b))
       ∧ ∃ c, Inventory.Control (b_inv b) !! id = Some c
           ∧ LockerControlSpec.Size c = s
           ∧ LockerControlSpec.BiggerThan c = []
           ∧ LockerControlSpec.SmallerThan c = []
           ∧ LockerControlSpec.VirtualCapacity c = 0)
  ∧ (∀ id c, Inventory.Control (b_inv b) !! id = Some c →
       Inventory.Sizes (b_inv b) !! LockerControlSpec.Size c = Some id)
  ∧ 0 ≤ b_index b ≤ len (Inventory.Lockers (b_inv b))
  ∧ total_free (Inventory.Control (b_inv b)) = b_index b
  ∧ (∀ id c, Inventory.Control (b_inv b) !! id = Some c →
       Forall (λ i, 0 ≤ i < b_index b
                    ∧ Locker.SizeId <$> index (Inventory.Lockers (b_inv b)) i = Some id)
              (LockerControlSpec.Lockers c))
  ∧ len (Inventory.Lockers (b_inv b)) ≤ MAX_INT.

(** The capacity that the last loop of [NewInventory] gives to the block
    [c], and the effect of the loop over the keys [ks]. *)
Definition seeded (C : gmap LockerSize LockerControlSpec) (c : LockerControlSpec) : Z :=
  int_add
    (foldl (λ vc other_id, int_add vc (free C other_id))
           (LockerControlSpec.VirtualCapacity c) (LockerControlSpec.SmallerThan c))
    (len (LockerControlSpec.Lockers c)).

Definition seed_all (ks : list LockerSize) (C : gmap LockerSize LockerControlSpec)
    : gmap LockerSize LockerControlSpec :=
  map_imap (λ k c, Some (if decide (k ∈ ks)
                         then LockerControlSpec.with_VirtualCapacity c (seeded C c)
                         else c)) C.

(** The inventory that [NewInventory] returns, from the state that its
    first loop leaves. *)
Definition finished (range_control : gmap LockerSize LockerControlSpec → list LockerSize)
    (b : builder) : Inventory :=
  let C2 := grow (size_id_of (b_inv b)) (b_sizes b) <$> Inventory.Control (b_inv b) in
  Inventory.with_Control (b_inv b) (seed_all (range_control C2) C2).

(** ** Vocabulary for orientations

    The six ways of laying a box along the three axes. *)
Definition orientations (s : SizeSpec) : list SizeSpec :=
  [ mkSizeSpec (Length s) (Width s) (Height s);
    mkSizeSpec (Length s) (Height s) (Width s);
    mkSizeSpec (Width s) (Length s) (Height s);
    mkSizeSpec (Width s) (Height s) (Length s);
    mkSizeSpec (Height s) (Length s) (Width s);
    mkSizeSpec (Height s) (Width s) (Length s) ].

#[global] Instance LockerPtr_eq_dec : EqDecision LockerPtr.
Proof. solve_decision. Defined.

(** The package that locker [i] holds, if any, is in the store and points
    back to the locker. *)
Definition points_back (w : World) (i : Z) (l : Locker) : Prop :=
  match Locker.Contents l with
  | None => True
  | Some p => Package.StoredIn <$> packages w !! p = Some (Some (PoolLocker i))
  end.

#[global] Instance points_back_dec w i l : Decision (points_back w i l).
Proof. unfold points_back. destruct (Locker.Contents l); apply _. Defined.

(** Every locker and the package in it point at each other. *)
Definition linked (w : World) : Prop :=
  Forall (λ il : nat * Locker, points_back w (Z.of_nat il.1) il.2)
         (imap pair (Inventory.Lockers (inventory w))).

#[global] Instance linked_dec w : Decision (linked w).
Proof. unfold linked. apply _. Defined.

(** The virtual capacity of every class is the number of free lockers of
    the class and of the classes that are strictly bigger. *)
Definition capacity_exact (inv : Inventory) : Prop :=
  map_Forall (λ _ cx,
    LockerControlSpec.VirtualCapacity cx
    = len (LockerControlSpec.Lockers cx) + free_among (λ cy, strictly_smaller cx cy) inv)
  (Inventory.Control inv).

#[global] Instance capacity_exact_dec inv : Decision (capacity_exact inv).
Proof. unfold capacity_exact. apply _. Defined.

(** No virtual capacity is the maximal int. *)
Definition capacity_below_max (inv : Inventory) : Prop :=
  map_Forall (λ _ c, LockerControlSpec.VirtualCapacity c < MAX_INT) (Inventory.Control inv).

#[global] Instance capacity_below_max_dec inv : Decision (capacity_below_max inv).
Proof. unfold capacity_below_max. apply _. Defined.

(** The control block of class [T] after the free list of class [S] has
    been replaced by [lockers] and its capacity adjusted by [by_]. *)
Definition reallocated (S : LockerSize) (cs : LockerControlSpec) (lockers : list Z) (by_ : Z)
    (T : LockerSize) (ct : LockerControlSpec) : LockerControlSpec :=
  LockerControlSpec.mk (LockerControlSpec.SizeId ct) (LockerControlSpec.Size ct)
    (LockerControlSpec.BiggerThan ct) (LockerControlSpec.SmallerThan ct)
    (if decide (T = S) then lockers else LockerControlSpec.Lockers ct)
    (if decide (T = S ∨ strictly_smaller ct cs)
     then int_add (LockerControlSpec.VirtualCapacity ct) by_
     else LockerControlSpec.VirtualCapacity ct).

(** ** The invariants of an inventory in use *)

(** An empty locker of a class that has a control block is on the free
    list of the class; a locker of no class is empty (it is never handed
    out). *)
Definition locker_accounted (inv : Inventory) (i : Z) (l : Locker) : Prop :=
  match Inventory.Control inv !! Locker.SizeId l with
  | Some c => Locker.Contents l = None → i ∈ LockerControlSpec.Lockers c
  | None => Locker.Contents l = None
  end.

#[global] Instance locker_accounted_dec inv i l : Decision (locker_accounted inv i l).
Proof.
  unfold locker_accounted. destruct (Inventory.Control inv !! Locker.SizeId l); apply _.
Defined.

(** The free lists hold the empty lockers: no index occurs twice on a free
    list, every index on a free list is an empty locker, and every empty
    locker is on the free list of its class. *)
Definition free_exact (inv : Inventory) : Prop :=
  map_Forall (λ _ c,
    NoDup (LockerControlSpec.Lockers c)
    ∧ Forall (λ i, Locker.Contents <$> index (Inventory.Lockers inv) i = Some None)
             (LockerControlSpec.Lockers c))
  (Inventory.Control inv)
  ∧ Forall (λ il : nat * Locker, locker_accounted inv (Z.of_nat il.1) il.2)
           (imap pair (Inventory.Lockers inv)).

#[global] Instance free_exact_dec inv : Decision (free_exact inv).
Proof. unfold free_exact. apply _. Defined.

(** The package that locker [i] holds, if any, is registered under its
    identifier for locker [i]. *)
Definition registered (w : World) (i : Z) (l : Locker) : Prop :=
  match Locker.Contents l with
  | None => True
  | Some p =>
      (packages w !! p ≫= λ pv,
         Inventory.LockersByPackageId (inventory w) !! Package.Id pv) = Some i
  end.

#[global] Instance registered_dec w i l : Decision (registered w i l).
Proof. unfold registered. destruct (Locker.Contents l); apply _. Defined.

(** The package that locker [i] holds. *)
Definition stored_at (w : World) (i : Z) : option Package :=
  l ← index (Inventory.Lockers (inventory w)) i;
  p ← Locker.Contents l;
  packages w !! p.

(** Locker [i] holds a package whose identifier is [id]. *)
Definition holds (w : World) (id : string) (i : Z) : Prop :=
  Package.Id <$> stored_at w i = Some id.

#[global] Instance holds_dec w id i : Decision (holds w id i).
Proof. unfold holds. apply _. Defined.

(** [LockersByPackageId] maps the identifiers of the stored packages, and
    nothing else, to the lockers that hold them. *)
Definition registry_exact (w : World) : Prop :=
  Forall (λ il : nat * Locker, registered w (Z.of_nat il.1) il.2)
         (imap pair (Inventory.Lockers (inventory w)))
  ∧ map_Forall (holds w) (Inventory.LockersByPackageId (inventory w)).

#[global] Instance registry_exact_dec w : Decision (registry_exact w).
Proof. unfold registry_exact. apply _. Defined.

(** [LockersById] maps to indices of the array of lockers. *)
Definition ids_valid (inv : Inventory) : Prop :=
  map_Forall (λ _ i, is_Some (index (Inventory.Lockers inv) i)) (Inventory.LockersById inv).

#[global] Instance ids_valid_dec inv : Decision (ids_valid inv).
Proof. unfold ids_valid. apply _. Defined.

(** The state of an inventory in use. *)
Definition well_formed (w : World) : Prop :=
  graph_ok (inventory w)
  ∧ sizes_controlled (inventory w)
  ∧ capacity_exact (inventory w)
  ∧ vc_ok (inventory w)
  ∧ free_typed (inventory w)
  ∧ free_exact (inventory w)
  ∧ linked w
  ∧ registry_exact w
  ∧ ids_valid (inventory w)
  ∧ len (Inventory.Lockers (inventory w)) ≤ MAX_INT.

#[global] Instance well_formed_dec w : Decision (well_formed w).
Proof. unfold well_formed. apply _. Defined.

(** ** The state of the first loop of [NewInventory], continued

    The lockers written so far are empty, bear the identifiers drawn so
    far, in order, and are each on the free list of their class; the
    lockers not yet written are zero values; no index occurs twice on a
    free list; no package is registered; [LockersById] maps the identifiers
    drawn to the indices written (each identifier to its own index when
    the identifiers are distinct). *)
Definition initialised (uuid : nat → string) (b : builder) : Prop :=
  Z.of_nat (b_drawn b) = b_index b
  ∧ (∀ i l, index (Inventory.Lockers (b_inv b)) i = Some l → Locker.Contents l = None)
  ∧ (∀ i l, index (Inventory.Lockers (b_inv b)) i = Some l → b_index b ≤ i →
       l = Locker.mk "" 0 None)
  ∧ (∀ i l, index (Inventory.Lockers (b_inv b)) i = Some l → 0 ≤ i < b_index b →
       Locker.Id l = uuid (Z.to_nat i)
       ∧ ∃ c, Inventory.Control (b_inv b) !! Locker.SizeId l = Some c
              ∧ i ∈ LockerControlSpec.Lockers c)
  ∧ (∀ id c, Inventory.Control (b_inv b) !! id = Some c →
       NoDup (LockerControlSpec.Lockers c))
  ∧ Inventory.LockersByPackageId (b_inv b) = ∅
  ∧ (∀ id i, Inventory.LockersById (b_inv b) !! id = Some i →
       0 ≤ i < b_index b ∧ id = uuid (Z.to_nat i))
  ∧ ((∀ m n, uuid m = uuid n → m = n) →
     ∀ i, 0 ≤ i < b_index b →
       Inventory.LockersById (b_inv b) !! uuid (Z.to_nat i) = Some i).

(** The builder that the first loop of [NewInventory] starts from. *)
Definition first_builder (total : Z) : builder :=
  mkBuilder (Inventory.mk (replicate (Z.to_nat total) (Locker.mk "" 0 None)) ∅ ∅ ∅ ∅)
            [] 0 0%nat.

(** The number of free lockers of the class of size [s] (none when the
    inventory has no such class), and the number of lockers that the
    entries request for the size [s], the sizes being compared after
    normalization. *)
Definition class_free (inv : Inventory) (s : SizeSpec) : Z :=
  from_option (free (Inventory.Control inv)) 0 (Inventory.Sizes inv !! s).

Definition requested (s : SizeSpec) (entries : list (SizeSpec * Z)) : Z :=
  sumZ snd (filter (λ e, Normalize e.1 = s) entries).

(** ** The states of an inventory in use

    The states that the clients of revision [src/unnamed/part_000] can
    reach: [NewInventory] makes the inventory, the caller owns the
    packages and may make new ones, and the inventory changes through
    [DepositPackage] and the three retrievals only. *)
Inductive reachable (uuid : nat → string)
    (range_control : gmap LockerSize LockerControlSpec → list LockerSize) : World → Prop :=
  | reachable_new counts inv pkgs :
      NewInventory uuid range_control counts = Some inv →
      reachable uuid range_control (mkWorld inv pkgs)
  | reachable_package w p pv :
      reachable uuid range_control w →
      packages w !! p = None →
      reachable uuid range_control (set_pkg p pv w)
  | reachable_deposit w order pkg r w' :
      reachable uuid range_control w →
      order ≡ₚ map_to_list (Inventory.Sizes (inventory w)) →
      Part000.DepositPackage order pkg w = Some (r, w') →
      reachable uuid range_control w'
  | reachable_retrieve w pkg r w' :
      reachable uuid range_control w →
      Part000.RetrievePackage pkg w = Some (r, w') →
      reachable uuid range_control w'
  | reachable_retrieve_by_id w id r w' :
      reachable uuid range_control w →
      Part000.RetrievePackageById id w = Some (r, w') →
      reachable uuid range_control w'
  | reachable_retrieve_by_locker_id w id r w' :
      reachable uuid range_control w →
      Part000.RetrievePackageByLockerId id w = Some (r, w') →
      reachable uuid range_control w'.

(** * Theorems *)

Lemma wrap_small z : int_ok z → wrap z = z.
Proof.
  unfold int_ok, MIN_INT, MAX_INT, wrap. intros H.
  rewrite Z.mod_small; lia.
Qed.

Lemma wrap_ok z : int_ok (wrap z).
Proof.
  unfold int_ok, MIN_INT, MAX_INT, wrap.
  pose proof (Z.mod_pos_bound (z + 2 ^ 63) (2 ^ 64)). lia.
Qed.

Lemma make_positive_ok x : int_ok x → int_ok (make_positive x).
Proof.
  intros H. unfold make_positive, int_sub. case_decide; [apply wrap_ok | exact H].
Qed.

Lemma make_positive_cases x :
  int_ok x → make_positive x = MIN_INT ∨ 0 ≤ make_positive x.
Proof.
  unfold make_positive, int_sub. intros Hx. case_decide; [|lia].
  destruct (decide (x = MIN_INT)) as [->|Hne]; [left; reflexivity|].
  right. rewrite wrap_small; unfold int_ok, MIN_INT, MAX_INT in *; lia.
Qed.

Lemma make_positive_fixed x :
  x = MIN_INT ∨ 0 ≤ x → make_positive x = x.
Proof.
  unfold make_positive. intros [->|H]; [reflexivity|]. case_decide; lia.
Qed.

Lemma Normalize_sorted s :
  Length (Normalize s) >= Width (Normalize s) ∧
  Width (Normalize s) >= Height (Normalize s).
Proof.
  unfold Normalize; cbn.
  repeat (case_decide; cbn in * ); lia.
Qed.

Lemma Normalize_fields s :
  SizeSpec_ok s →
  (Length (Normalize s) = MIN_INT ∨ 0 ≤ Length (Normalize s)) ∧
  (Width (Normalize s) = MIN_INT ∨ 0 ≤ Width (Normalize s)) ∧
  (Height (Normalize s) = MIN_INT ∨ 0 ≤ Height (Normalize s)).
Proof.
  intros (Hl & Hw & Hh).
  pose proof (make_positive_cases _ Hl).
  pose proof (make_positive_cases _ Hw).
  pose proof (make_positive_cases _ Hh).
  unfold Normalize; cbn.
  repeat (case_decide; cbn in * ); tauto.
Qed.

Lemma Normalize_fixed s :
  (Length s = MIN_INT ∨ 0 ≤ Length s) →
  (Width s = MIN_INT ∨ 0 ≤ Width s) →
  (Height s = MIN_INT ∨ 0 ≤ Height s) →
  Length s >= Width s → Width s >= Height s →
  Normalize s = s.
Proof.
  destruct s as [l w h]; cbn. intros Hl Hw Hh Hlw Hwh.
  unfold Normalize; cbn.
  rewrite !make_positive_fixed by assumption.
  repeat (case_decide; cbn in * ); try lia; reflexivity.
Qed.

Lemma Normalize_ok s : SizeSpec_ok s → SizeSpec_ok (Normalize s).
Proof.
  intros (Hl & Hw & Hh).
  pose proof (make_positive_ok _ Hl).
  pose proof (make_positive_ok _ Hw).
  pose proof (make_positive_ok _ Hh).
  unfold Normalize, SizeSpec_ok; cbn.
  repeat (case_decide; cbn in * ); tauto.
Qed.

Lemma make_positive_nonneg x : int_ok x → x ≠ MIN_INT → 0 ≤ make_positive x.
Proof.
  intros Hx Hne. unfold make_positive, int_sub. case_decide; [|lia].
  rewrite wrap_small; unfold int_ok, MIN_INT, MAX_INT in *; lia.
Qed.

(** C9 (as amended).  For every SizeSpec [s] whose dimensions are Go ints,
    [Normalize (Normalize s) = Normalize s] and the output of [Normalize] is
    sorted in descending order (Length >= Width >= Height); its three
    dimensions are non-negative provided that no dimension of [s] is the
    minimal int, whose negation wraps around to itself. *)
Theorem Normalize_idempotent_sorted (s : SizeSpec) :
  SizeSpec_ok s →
  Normalize (Normalize s) = Normalize s
  ∧ (Length (Normalize s) >= Width (Normalize s)
     ∧ Width (Normalize s) >= Height (Normalize s))
  ∧ (Length s ≠ MIN_INT → Width s ≠ MIN_INT → Height s ≠ MIN_INT →
     0 ≤ Length (Normalize s) ∧ 0 ≤ Width (Normalize s) ∧ 0 ≤ Height (Normalize s)).
Proof.
  intros Hs. split; [|split].
  - destruct (Normalize_fields s Hs) as (Hl & Hw & Hh).
    destruct (Normalize_sorted s) as [Hlw Hwh].
    by apply Normalize_fixed.
  - apply Normalize_sorted.
  - destruct Hs as (Hl & Hw & Hh). intros Nl Nw Nh.
    pose proof (make_positive_nonneg _ Hl Nl).
    pose proof (make_positive_nonneg _ Hw Nw).
    pose proof (make_positive_nonneg _ Hh Nh).
    unfold Normalize; cbn.
    repeat (case_decide; cbn in * ); lia.
Qed.

Lemma Normalize_idempotent_sorted_witness :
  let s := mkSizeSpec 1 (-3) 2 in
  Normalize s = mkSizeSpec 3 2 1
  ∧ Normalize (Normalize s) = Normalize s
  ∧ 0 ≤ Height (Normalize s).
Proof.
  assert (Hok : SizeSpec_ok (mkSizeSpec 1 (-3) 2))
    by (unfold SizeSpec_ok, int_ok, MIN_INT, MAX_INT; cbn; lia).
  destruct (Normalize_idempotent_sorted (mkSizeSpec 1 (-3) 2) Hok) as (Hi & _ & Hn).
  split; [reflexivity|]. split; [exact Hi|].
  apply Hn; cbn; unfold MIN_INT; lia.
Defined.

(** C9, as stated, fails: the minimal int has no positive counterpart, and
    [Normalize] returns it as the (negative) height. *)
Lemma Normalize_MIN_INT_negative :
  SizeSpec_ok (mkSizeSpec MIN_INT 0 0)
  ∧ Normalize (mkSizeSpec MIN_INT 0 0) = mkSizeSpec 0 0 MIN_INT
  ∧ ¬ (0 ≤ Height (Normalize (mkSizeSpec MIN_INT 0 0))).
Proof.
  split; [|split].
  - unfold SizeSpec_ok, int_ok, MIN_INT, MAX_INT; cbn; lia.
  - reflexivity.
  - vm_compute. intros H. apply H. reflexivity.
Qed.

(** ** Reading the state *)

#[local] Arguments bind : simpl never.
#[local] Arguments ret : simpl never.
#[local] Arguments get_inv : simpl never.
#[local] Arguments put_inv : simpl never.
#[local] Arguments load_ctrl : simpl never.
#[local] Arguments store_ctrl : simpl never.
#[local] Arguments load_locker : simpl never.
#[local] Arguments store_locker : simpl never.
#[local] Arguments load_pkg : simpl never.
#[local] Arguments store_pkg : simpl never.
#[local] Arguments upd_control : simpl never.
#[local] Arguments set_locker : simpl never.
#[local] Arguments set_pkg : simpl never.
#[local] Arguments upd_by_package_id : simpl never.
#[local] Arguments bump : simpl never.
#[local] Arguments Nat.iter : simpl never.
#[local] Arguments count_occ : simpl never.

Lemma load_ctrl_eq size_id w :
  load_ctrl size_id w = (λ c, (c, w)) <$> (Inventory.Control (inventory w) !! size_id).
Proof.
  unfold load_ctrl, bind, get_inv, ControlSpec, Inventory_ControlSpec.
  by destruct (Inventory.Control (inventory w) !! size_id).
Qed.

Lemma load_ctrl_Some size_id w c w' :
  load_ctrl size_id w = Some (c, w') ↔
  Inventory.Control (inventory w) !! size_id = Some c ∧ w' = w.
Proof.
  rewrite load_ctrl_eq.
  destruct (Inventory.Control (inventory w) !! size_id) as [c0|]; cbn.
  - split; [by intros [= -> ->]|by intros [[= ->] ->]].
  - split; [done|by intros [[=] _]].
Qed.

Lemma Full_false c : Full c = false ↔ LockerControlSpec.Lockers c ≠ [].
Proof.
  unfold Full, len. destruct (LockerControlSpec.Lockers c); cbn.
  - rewrite bool_decide_eq_false. naive_solver.
  - rewrite bool_decide_eq_false. split; [done|lia].
Qed.

Lemma Before_Some a b (inv : Inventory) ca cb :
  Inventory.Control inv !! a = Some ca →
  Inventory.Control inv !! b = Some cb →
  Before a b inv = Some (bool_decide (sorts_before ca cb)).
Proof.
  intros Ha Hb.
  unfold Before, ControlSpec, Inventory_ControlSpec. rewrite Ha, Hb. cbn.
  f_equal. unfold sorts_before.
  repeat case_decide; symmetry;
    (apply bool_decide_eq_true_2 || apply bool_decide_eq_false_2); tauto.
Qed.

Lemma Before_is_Some a b (inv : Inventory) r :
  Before a b inv = Some r →
  ∃ ca cb, Inventory.Control inv !! a = Some ca ∧ Inventory.Control inv !! b = Some cb
           ∧ r = bool_decide (sorts_before ca cb).
Proof.
  intros H.
  destruct (Inventory.Control inv !! a) as [ca|] eqn:Ha;
    [|unfold Before, ControlSpec, Inventory_ControlSpec in H; rewrite Ha in H; done].
  destruct (Inventory.Control inv !! b) as [cb|] eqn:Hb;
    [|unfold Before, ControlSpec, Inventory_ControlSpec in H; rewrite Ha, Hb in H; done].
  rewrite (Before_Some _ _ _ _ _ Ha Hb) in H. naive_solver.
Qed.

Lemma sorts_before_asym a b : sorts_before a b → ¬ sorts_before b a.
Proof. unfold sorts_before. lia. Qed.

Lemma sorts_before_negtrans a b c :
  ¬ sorts_before a b → ¬ sorts_before b c → ¬ sorts_before a c.
Proof. unfold sorts_before. lia. Qed.

(** ** The selection *)

Lemma candidate_sizes_inv order package_size w l w' :
  candidate_sizes order package_size w = Some (l, w') →
  w' = w ∧
  ∀ id, id ∈ l ↔
    ∃ size ctrl, (size, id) ∈ order ∧ Contains size package_size = true
                 ∧ Inventory.Control (inventory w) !! id = Some ctrl
                 ∧ LockerControlSpec.Lockers ctrl ≠ [].
Proof.
  revert l. induction order as [|[size size_id] order IH]; intros l; cbn.
  - unfold ret. intros [= <- <-]. split; [done|]. intros id.
    split; [by intros ?%elem_of_nil|]. intros (? & ? & ?%elem_of_nil & _). done.
  - destruct (Contains size package_size) eqn:Hc; cbn.
    + unfold bind at 1. rewrite load_ctrl_eq.
      destruct (Inventory.Control (inventory w) !! size_id) as [ctrl|] eqn:Hctrl; [|done].
      cbn. destruct (Full ctrl) eqn:Hfull.
      * intros H. destruct (IH _ H) as [-> IH']. split; [done|].
        intros id. rewrite IH'. split.
        -- intros (s & c & Hin & ?). exists s, c. split; [by right|done].
        -- intros (s & c & Hin & Hs & Hl & Hne).
           apply elem_of_cons in Hin as [[= -> ->]|Hin]; [|by eauto 6].
           rewrite Hctrl in Hl. injection Hl as <-.
           apply Full_false in Hne. congruence.
      * unfold bind, ret.
        destruct (candidate_sizes order package_size w) as [[rest w1]|] eqn:Hrest; [|done].
        intros [= <- <-]. destruct (IH _ eq_refl) as [-> IH']. split; [done|].
        intros id. rewrite elem_of_cons, IH'. split.
        -- intros [->|(s & c & Hin & ?)].
           ++ exists size, ctrl. split; [by left|]. by rewrite <- Full_false.
           ++ exists s, c. split; [by right|done].
        -- intros (s & c & Hin & Hs & Hl & Hne).
           apply elem_of_cons in Hin as [[= -> ->]|Hin]; [by left|right; by eauto 6].
    + intros H. destruct (IH _ H) as [-> IH']. split; [done|].
      intros id. rewrite IH'. split.
      * intros (s & c & Hin & ?). exists s, c. split; [by right|done].
      * intros (s & c & Hin & Hs & Hl & Hne).
        apply elem_of_cons in Hin as [[= -> ->]|Hin]; [congruence|by eauto 6].
Qed.

Lemma candidate_sizes_total order package_size w :
  Forall (λ e, is_Some (Inventory.Control (inventory w) !! e.2)) order →
  ∃ l, candidate_sizes order package_size w = Some (l, w).
Proof.
  induction 1 as [|[size size_id] order [ctrl Hctrl] Hrest [l IH]]; cbn in *.
  - by exists [].
  - destruct (Contains size package_size); cbn; [|by eauto].
    unfold bind at 1. rewrite load_ctrl_eq, Hctrl. cbn.
    destruct (Full ctrl); [by eauto|].
    unfold bind, ret. rewrite IH. by eauto.
Qed.

Lemma choose_inv chosen_id ids w r w' :
  is_Some (Inventory.Control (inventory w) !! chosen_id) →
  choose chosen_id ids w = Some (r, w') →
  w' = w ∧ r ∈ chosen_id :: ids ∧
  ∃ cr, Inventory.Control (inventory w) !! r = Some cr ∧
    ∀ x, x ∈ chosen_id :: ids →
      ∃ cx, Inventory.Control (inventory w) !! x = Some cx ∧ ¬ sorts_before cx cr.
Proof.
  revert chosen_id. induction ids as [|id ids IH]; intros chosen_id [cc Hcc]; cbn.
  - unfold ret. intros [= <- <-]. split; [done|]. split; [by left|].
    exists cc. split; [done|]. intros x ->%list_elem_of_singleton.
    exists cc. split; [done|]. unfold sorts_before. lia.
  - unfold bind, get_inv, deref.
    destruct (Before id chosen_id (inventory w)) as [b|] eqn:Hb; [|done].
    apply Before_is_Some in Hb as (ci & cc' & Hci & Hcc' & ->).
    rewrite Hcc in Hcc'. injection Hcc' as <-.
    unfold ret. case_bool_decide as Hlt; intros H.
    + destruct (IH id (ltac:(eauto)) H) as (-> & Hin & cr & Hcr & Hmin).
      split; [done|]. split; [by right|]. exists cr. split; [done|].
      intros x [->|Hx]%elem_of_cons; [|by apply Hmin].
      exists cc. split; [done|].
      destruct (Hmin id (ltac:(by left))) as (ci' & Hci' & Hnlt).
      rewrite Hci in Hci'. injection Hci' as <-.
      eapply sorts_before_negtrans; [|exact Hnlt]. by apply sorts_before_asym.
    + destruct (IH chosen_id (ltac:(eauto)) H) as (-> & Hin & cr & Hcr & Hmin).
      split; [done|]. split.
      { apply elem_of_cons in Hin as [->|Hin]; [by left|right; by right]. }
      exists cr. split; [done|].
      intros x [->|[->|Hx]%elem_of_cons]%elem_of_cons.
      * apply Hmin. by left.
      * exists ci. split; [done|].
        destruct (Hmin chosen_id (ltac:(by left))) as (cc'' & Hcc'' & Hnlt).
        rewrite Hcc in Hcc''. injection Hcc'' as <-.
        eapply sorts_before_negtrans; [exact Hlt|exact Hnlt].
      * apply Hmin. by right.
Qed.

Lemma choose_total chosen_id ids w :
  Forall (λ id, is_Some (Inventory.Control (inventory w) !! id)) (chosen_id :: ids) →
  ∃ r, choose chosen_id ids w = Some (r, w).
Proof.
  revert chosen_id. induction ids as [|id ids IH]; intros chosen_id H; cbn.
  - by eexists.
  - apply Forall_cons in H as [[cc Hcc] H]. pose proof H as H'.
    apply Forall_cons in H' as [[ci Hci] H'].
    unfold bind, get_inv, deref. rewrite (Before_Some _ _ _ _ _ Hci Hcc).
    unfold ret. case_bool_decide.
    + apply IH. by apply Forall_cons.
    + apply IH. apply Forall_cons. eauto.
Qed.

Lemma GetMostSuitableLockerSize_inv order package_size w r w' :
  GetMostSuitableLockerSize order package_size w = Some (r, w') →
  w' = w ∧
  ∃ l, candidate_sizes order package_size w = Some (l, w) ∧
    match l with
    | [] => r = Err "No available lockers which can fit package"
    | first :: others => ∃ chosen_id, r = Ok chosen_id ∧ choose first others w = Some (chosen_id, w)
    end.
Proof.
  unfold GetMostSuitableLockerSize, bind.
  destruct (candidate_sizes order package_size w) as [[l w1]|] eqn:Hl; [|done].
  destruct (candidate_sizes_inv _ _ _ _ _ Hl) as [-> Hcand].
  destruct l as [|first others].
  - unfold ret. intros [= <- <-]. split; [done|]. by exists [].
  - destruct (choose first others w) as [[c w2]|] eqn:Hc; [|done].
    unfold ret. intros [= <- <-].
    destruct (Hcand first) as [(s & cf & _ & _ & Hcf & _) _]; [by left|].
    destruct (choose_inv _ _ _ _ _ (ltac:(eauto)) Hc) as (-> & _).
    split; [done|]. exists (first :: others). split; [done|]. by eauto.
Qed.

Lemma candidate_order inv order package_size id :
  order ≡ₚ map_to_list (Inventory.Sizes inv) →
  candidate inv package_size id ↔
    ∃ size ctrl, (size, id) ∈ order ∧ Contains size package_size = true
                 ∧ Inventory.Control inv !! id = Some ctrl
                 ∧ LockerControlSpec.Lockers ctrl ≠ [].
Proof.
  intros Hperm. unfold candidate.
  split; intros (s & c & H & ?); exists s, c; (split; [|done]).
  - rewrite Hperm. by apply elem_of_map_to_list.
  - rewrite Hperm in H. by apply elem_of_map_to_list in H.
Qed.

(** C10.  [GetMostSuitableLockerSize] is a pure query: whatever the order of
    the range, the requested size and the outcome (a class or an error), the
    state after the call (the inventory with its free lists, virtual
    capacities, containment lists and identifier maps, and the packages) is
    the state before the call. *)
Theorem GetMostSuitableLockerSize_pure order package_size (w : World) r w' :
  GetMostSuitableLockerSize order package_size w = Some (r, w') → w' = w.
Proof. intros H. by destruct (GetMostSuitableLockerSize_inv _ _ _ _ _ H). Qed.

Lemma GetMostSuitableLockerSize_pure_witness :
  ∃ r w',
    GetMostSuitableLockerSize example_order (mkSizeSpec 1 1 1) example_world = Some (r, w')
    ∧ w' = example_world.
Proof.
  destruct (GetMostSuitableLockerSize example_order (mkSizeSpec 1 1 1) example_world)
    as [[r w']|] eqn:H; [|vm_compute in H; discriminate].
  exists r, w'. split; [reflexivity|].
  exact (GetMostSuitableLockerSize_pure _ _ _ _ _ H).
Defined.

Lemma GetMostSuitableLockerSize_total order package_size (w : World) :
  order ≡ₚ map_to_list (Inventory.Sizes (inventory w)) →
  sizes_controlled (inventory w) →
  ∃ l, (∀ id, id ∈ l ↔ candidate (inventory w) package_size id)
    ∧ match l with
      | [] => GetMostSuitableLockerSize order package_size w
              = Some (Err "No available lockers which can fit package", w)
      | _ :: _ => ∃ id, GetMostSuitableLockerSize order package_size w = Some (Ok id, w)
      end.
Proof.
  intros Hperm Hctl.
  assert (Hall : Forall (λ e, is_Some (Inventory.Control (inventory w) !! e.2)) order).
  { apply Forall_forall. intros [s id] Hin. cbn.
    rewrite Hperm in Hin. apply elem_of_map_to_list in Hin. by apply (Hctl s id). }
  destruct (candidate_sizes_total order package_size w Hall) as [l Hl].
  destruct (candidate_sizes_inv _ _ _ _ _ Hl) as [_ Hcand].
  exists l. split.
  { intros id. rewrite Hcand. symmetry. by apply candidate_order. }
  unfold GetMostSuitableLockerSize, bind. rewrite Hl.
  destruct l as [|first others]; [done|].
  destruct (choose_total first others w) as [c Hc].
  { apply Forall_forall. intros id Hid. apply Hcand in Hid as (s & cx & _ & _ & Hcx & _).
    by eauto. }
  rewrite Hc. by exists c.
Qed.

(** C5.  On an inventory in which every size class has its control block,
    [GetMostSuitableLockerSize] returns (it does not panic), and it returns
    the error exactly when no size class both contains the requested size
    and has a non-empty free list; it returns a class exactly when there is
    such a candidate. *)
Theorem GetMostSuitableLockerSize_error_iff order package_size (w : World) :
  order ≡ₚ map_to_list (Inventory.Sizes (inventory w)) →
  sizes_controlled (inventory w) →
  (∃ r, GetMostSuitableLockerSize order package_size w = Some (r, w))
  ∧ (GetMostSuitableLockerSize order package_size w
       = Some (Err "No available lockers which can fit package", w)
     ↔ ¬ ∃ id, candidate (inventory w) package_size id)
  ∧ ((∃ id, GetMostSuitableLockerSize order package_size w = Some (Ok id, w))
     ↔ ∃ id, candidate (inventory w) package_size id).
Proof.
  intros Hperm Hctl.
  destruct (GetMostSuitableLockerSize_total order package_size w Hperm Hctl)
    as (l & Hcand & Hres).
  destruct l as [|first others].
  - rewrite Hres. split; [by eauto|]. split.
    + split; [|done]. intros _ [id Hid]. apply Hcand in Hid. by apply elem_of_nil in Hid.
    + split; [by intros [id [=]]|]. intros [id Hid]. apply Hcand in Hid.
      by apply elem_of_nil in Hid.
  - destruct Hres as [c Hc]. rewrite Hc. split; [by eauto|]. split.
    + split; [done|]. intros Hno. exfalso. apply Hno. exists first. apply Hcand. by left.
    + split; [|by eauto]. intros _. exists first. apply Hcand. by left.
Qed.

(** C6.  When [GetMostSuitableLockerSize] returns a class, that class is a
    candidate and it is minimal under the Before order: no candidate sorts
    strictly before it, where [Before] says that class A sorts before class B
    iff VirtualCapacity(A) > VirtualCapacity(B), or the virtual capacities
    are equal and Volume(A.size) < Volume(B.size). *)
Theorem GetMostSuitableLockerSize_minimal order package_size (w : World) chosen_id w' :
  order ≡ₚ map_to_list (Inventory.Sizes (inventory w)) →
  GetMostSuitableLockerSize order package_size w = Some (Ok chosen_id, w') →
  candidate (inventory w) package_size chosen_id
  ∧ (∀ other_id, candidate (inventory w) package_size other_id →
       Before other_id chosen_id (inventory w) = Some false)
  ∧ (∀ a b ca cb,
       Inventory.Control (inventory w) !! a = Some ca →
       Inventory.Control (inventory w) !! b = Some cb →
       (Before a b (inventory w) = Some true ↔ sorts_before ca cb)).
Proof.
  intros Hperm H.
  destruct (GetMostSuitableLockerSize_inv _ _ _ _ _ H) as (-> & l & Hl & Hr).
  destruct (candidate_sizes_inv _ _ _ _ _ Hl) as [_ Hcand].
  assert (Hcand' : ∀ id, id ∈ l ↔ candidate (inventory w) package_size id).
  { intros id. rewrite Hcand. symmetry. by apply candidate_order. }
  destruct l as [|first others]; [done|].
  destruct Hr as (c & [= <-] & Hc).
  destruct (Hcand first) as [(s & cf & _ & _ & Hcf & _) _]; [by left|].
  destruct (choose_inv _ _ _ _ _ (ltac:(eauto)) Hc) as (_ & Hin & cr & Hcr & Hmin).
  split; [by apply Hcand'|]. split.
  - intros other Hother. apply Hcand' in Hother.
    destruct (Hmin other Hother) as (co & Hco & Hnlt).
    rewrite (Before_Some _ _ _ _ _ Hco Hcr). f_equal. by apply bool_decide_eq_false_2.
  - intros a b ca cb Ha Hb. rewrite (Before_Some _ _ _ _ _ Ha Hb).
    split; [intros [= Ht]; by apply bool_decide_eq_true_1 in Ht|].
    intros Ht. f_equal. by apply bool_decide_eq_true_2.
Qed.

(** ** Adjusting virtual capacities *)

Lemma store_ctrl_eq size_id c w :
  store_ctrl size_id c w = Some (tt, upd_control (<[size_id := c]>) w).
Proof. reflexivity. Qed.

Lemma upd_control_control f w :
  Inventory.Control (inventory (upd_control f w)) = f (Inventory.Control (inventory w)).
Proof. reflexivity. Qed.

Lemma upd_control_compose f g w :
  upd_control f (upd_control g w) = upd_control (f ∘ g) w.
Proof. reflexivity. Qed.

Lemma upd_control_ext f g w :
  f (Inventory.Control (inventory w)) = g (Inventory.Control (inventory w)) →
  upd_control f w = upd_control g w.
Proof. unfold upd_control. by intros ->. Qed.

Lemma upd_control_id f w :
  f (Inventory.Control (inventory w)) = Inventory.Control (inventory w) →
  upd_control f w = w.
Proof. unfold upd_control. intros ->. by destruct w as [[] ?]. Qed.

Lemma insert_bump (C : gmap LockerSize LockerControlSpec) id c by_ :
  C !! id = Some c → <[id := bump by_ c]> C = alter (bump by_) id C.
Proof.
  intros Hc. apply map_eq. intros k.
  rewrite lookup_insert, lookup_alter. case_decide; [|done]. by rewrite Hc.
Qed.

Lemma adjust_all_cons id ids by_ (C : gmap LockerSize LockerControlSpec) :
  adjust_all (id :: ids) by_ C = adjust_all ids by_ (alter (bump by_) id C).
Proof. reflexivity. Qed.

#[local] Arguments adjust_all : simpl never.

Lemma adjust_all_is_Some ids by_ (C : gmap LockerSize LockerControlSpec) k :
  is_Some (adjust_all ids by_ C !! k) ↔ is_Some (C !! k).
Proof.
  revert C. induction ids as [|id ids IH]; intros C; [done|].
  rewrite adjust_all_cons, IH, lookup_alter. case_decide; [subst|done].
  by rewrite fmap_is_Some.
Qed.

Lemma present_insert (C : gmap LockerSize LockerControlSpec) id c x k :
  C !! id = Some c → is_Some (<[id := x]> C !! k) ↔ is_Some (C !! k).
Proof.
  intros Hc. rewrite lookup_insert. case_decide; [subst|done].
  rewrite Hc. split; eauto.
Qed.

Lemma Forall_present_insert (C : gmap LockerSize LockerControlSpec) id c x ids :
  C !! id = Some c →
  Forall (λ k, is_Some (<[id := x]> C !! k)) ids ↔ Forall (λ k, is_Some (C !! k)) ids.
Proof.
  intros Hc. apply Forall_proper; [|done]. intros k. by eapply present_insert.
Qed.

Lemma adjust_each_spec ids by_ w u w' :
  adjust_each ids by_ w = Some (u, w') ↔
  Forall (λ id, is_Some (Inventory.Control (inventory w) !! id)) ids
  ∧ w' = upd_control (adjust_all ids by_) w.
Proof.
  destruct u. revert w. induction ids as [|id ids IH]; intros w; cbn.
  - unfold ret. split.
    + intros [= <-]. split; [constructor|]. symmetry. by apply upd_control_id.
    + intros [_ ->]. f_equal. f_equal. symmetry. by apply upd_control_id.
  - unfold bind at 1. rewrite load_ctrl_eq.
    destruct (Inventory.Control (inventory w) !! id) as [c|] eqn:Hc; cbn.
    + unfold bind. rewrite store_ctrl_eq, IH, upd_control_control, upd_control_compose.
      fold (bump by_ c).
      rewrite (Forall_present_insert _ _ _ _ _ Hc).
      assert (upd_control (adjust_all ids by_ ∘ <[id := bump by_ c]>) w
              = upd_control (adjust_all (id :: ids) by_) w) as ->.
      { apply upd_control_ext. cbn. by rewrite adjust_all_cons, (insert_bump _ _ _ _ Hc). }
      rewrite Forall_cons. split; [intros [? ?]; by eauto|tauto].
    + split; [done|]. intros [Hall _]. apply Forall_cons in Hall as [[? ?] _]. congruence.
Qed.

Lemma AdjustVirtualCapacity_spec size_id by_ w u w' :
  AdjustVirtualCapacity size_id by_ w = Some (u, w') ↔
  ∃ ctrl, Inventory.Control (inventory w) !! size_id = Some ctrl
    ∧ Forall (λ id, is_Some (Inventory.Control (inventory w) !! id))
             (LockerControlSpec.BiggerThan ctrl)
    ∧ w' = upd_control (adjust_all (size_id :: LockerControlSpec.BiggerThan ctrl) by_) w.
Proof.
  unfold AdjustVirtualCapacity. unfold bind at 1. rewrite load_ctrl_eq.
  destruct (Inventory.Control (inventory w) !! size_id) as [c|] eqn:Hc; cbn;
    [|split; [done|by intros (? & [=] & _)]].
  unfold bind at 1. rewrite store_ctrl_eq. unfold bind at 1.
  rewrite load_ctrl_eq, upd_control_control, lookup_insert_eq. cbn.
  rewrite adjust_each_spec, upd_control_control, upd_control_compose.
  fold (bump by_ c).
  rewrite (Forall_present_insert _ _ _ _ _ Hc).
  assert (upd_control (adjust_all (LockerControlSpec.BiggerThan c) by_
                       ∘ <[size_id := bump by_ c]>) w
          = upd_control (adjust_all (size_id :: LockerControlSpec.BiggerThan c) by_) w) as ->.
  { apply upd_control_ext. cbn. by rewrite adjust_all_cons, (insert_bump _ _ _ _ Hc). }
  split; [intros [? ?]; by eauto|]. by intros (c' & [= <-] & ? & ?).
Qed.

Lemma wrap_add_l a b : wrap (wrap a + b) = wrap (a + b).
Proof.
  unfold wrap. f_equal.
  replace ((a + 2 ^ 63) mod 2 ^ 64 - 2 ^ 63 + b + 2 ^ 63)
    with ((a + 2 ^ 63) mod 2 ^ 64 + b) by lia.
  rewrite Zplus_mod_idemp_l. f_equal. lia.
Qed.

Lemma iter_bump n by_ c :
  int_ok (LockerControlSpec.VirtualCapacity c) →
  Nat.iter n (bump by_) c
  = LockerControlSpec.with_VirtualCapacity c
      (wrap (LockerControlSpec.VirtualCapacity c + Z.of_nat n * by_)).
Proof.
  intros Hok. induction n as [|n IH].
  - cbn. rewrite Z.add_0_r, wrap_small by done. by destruct c.
  - rewrite Nat.iter_succ, IH. unfold bump, int_add. cbn.
    rewrite wrap_add_l. unfold LockerControlSpec.with_VirtualCapacity. cbn.
    do 2 f_equal. lia.
Qed.

Lemma iter_bump_inverse n by_ c :
  int_ok (LockerControlSpec.VirtualCapacity c) →
  Nat.iter n (bump (- by_)) (Nat.iter n (bump by_) c) = c.
Proof.
  intros Hok. rewrite (iter_bump n by_ c Hok).
  rewrite iter_bump by apply wrap_ok. cbn.
  rewrite wrap_add_l.
  replace (LockerControlSpec.VirtualCapacity c + Z.of_nat n * by_ + Z.of_nat n * - by_)
    with (LockerControlSpec.VirtualCapacity c) by lia.
  rewrite (wrap_small _ Hok). by destruct c.
Qed.

Lemma adjust_all_lookup ids by_ (C : gmap LockerSize LockerControlSpec) k :
  adjust_all ids by_ C !! k
  = Nat.iter (count_occ Z.eq_dec ids k) (bump by_) <$> C !! k.
Proof.
  revert C. induction ids as [|id ids IH]; intros C.
  - unfold adjust_all. cbn. by destruct (C !! k).
  - rewrite adjust_all_cons, IH, lookup_alter.
    destruct (Z.eq_dec id k) as [->|Hne].
    + rewrite decide_True by done. rewrite count_occ_cons_eq by done.
      destruct (C !! k) as [c|]; [|done]. cbn [fmap option_fmap option_map].
      f_equal. symmetry. apply (Nat.iter_succ_r _ _ (bump by_) c).
    + rewrite decide_False by done. by rewrite count_occ_cons_neq.
Qed.

Lemma adjust_all_lookup_NoDup ids by_ (C : gmap LockerSize LockerControlSpec) k :
  NoDup ids →
  adjust_all ids by_ C !! k
  = if decide (k ∈ ids) then bump by_ <$> C !! k else C !! k.
Proof.
  intros Hnd. rewrite adjust_all_lookup.
  case_decide as Hin.
  - apply list_elem_of_In in Hin.
    apply (NoDup_count_occ' Z.eq_dec) in Hin; [|by apply NoDup_ListNoDup].
    by rewrite Hin.
  - rewrite list_elem_of_In in Hin.
    apply (count_occ_not_In Z.eq_dec) in Hin. rewrite Hin.
    by destruct (C !! k).
Qed.

(** ** Allocation and deallocation *)

Lemma load_locker_eq i w :
  load_locker i w = (λ l, (l, w)) <$> index (Inventory.Lockers (inventory w)) i.
Proof.
  unfold load_locker, bind, get_inv, deref.
  by destruct (index (Inventory.Lockers (inventory w)) i).
Qed.

Lemma index_last {A} (l : list A) : index l (len l - 1) = last l.
Proof.
  unfold index, len. destruct l as [|x l]; [done|].
  rewrite decide_True by (cbn; lia). rewrite last_lookup. f_equal. cbn. lia.
Qed.

Lemma take_len_app {A} (l : list A) x :
  take (Z.to_nat (len (l ++ [x]) - 1)) (l ++ [x]) = l.
Proof.
  unfold len. rewrite length_app. cbn.
  replace (Z.to_nat (Z.of_nat (length l + 1) - 1)) with (length l) by lia.
  by rewrite take_app_length.
Qed.

Lemma AllocateLocker_spec size_id w i w' :
  AllocateLocker size_id w = Some (i, w') ↔
  ∃ ctrl rest,
    Inventory.Control (inventory w) !! size_id = Some ctrl
    ∧ LockerControlSpec.Lockers ctrl = rest ++ [i]
    ∧ Forall (λ id, is_Some (Inventory.Control (inventory w) !! id))
             (LockerControlSpec.BiggerThan ctrl)
    ∧ w' = upd_control
             (adjust_all (size_id :: LockerControlSpec.BiggerThan ctrl) (-1)
              ∘ <[size_id := LockerControlSpec.with_Lockers ctrl rest]>) w.
Proof.
  unfold AllocateLocker. unfold bind at 1. rewrite load_ctrl_eq.
  destruct (Inventory.Control (inventory w) !! size_id) as [c|] eqn:Hc; cbn;
    [|split; [done|by intros (? & ? & [=] & _)]].
  unfold bind at 1. rewrite index_last.
  destruct (last (LockerControlSpec.Lockers c)) as [j|] eqn:Hlast; cbn.
  - apply last_Some in Hlast as [rest Hrest]. rewrite Hrest, take_len_app.
    unfold ret at 1. unfold bind at 1. rewrite store_ctrl_eq. unfold bind.
    set (w1 := upd_control (<[size_id := LockerControlSpec.with_Lockers c rest]>) w).
    destruct (AdjustVirtualCapacity size_id (-1) w1) as [[[] w2]|] eqn:Hadj.
    + apply AdjustVirtualCapacity_spec in Hadj as (c1 & Hc1 & Hall & ->).
      unfold w1 in Hc1. rewrite upd_control_control, lookup_insert_eq in Hc1.
      injection Hc1 as <-. cbn in Hall.
      unfold w1 in Hall. rewrite upd_control_control in Hall.
      rewrite (Forall_present_insert _ _ _ _ _ Hc) in Hall.
      unfold ret. split.
      * intros [= <- <-]. exists c, rest. by rewrite Hrest.
      * intros (c' & rest' & [= <-] & Happ & _ & ->).
        rewrite Hrest in Happ. apply app_inj_tail in Happ as [<- <-]. done.
    + split; [done|]. intros (c' & rest' & [= <-] & Happ & Hall & _). exfalso.
      rewrite Hrest in Happ. apply app_inj_tail in Happ as [<- <-].
      assert (is_Some (AdjustVirtualCapacity size_id (-1) w1)) as [[[] ?] ?];
        [|congruence].
      eexists (tt, _). apply AdjustVirtualCapacity_spec.
      exists (LockerControlSpec.with_Lockers c rest).
      unfold w1. rewrite upd_control_control, lookup_insert_eq. split; [done|].
      split; [|done]. cbn. by rewrite (Forall_present_insert _ _ _ _ _ Hc).
  - split; [done|]. intros (c' & rest' & [= <-] & Happ & _).
    rewrite Happ, last_snoc in Hlast. done.
Qed.

Lemma DeallocateLocker_spec i w u w' :
  DeallocateLocker i w = Some (u, w') ↔
  ∃ l ctrl,
    index (Inventory.Lockers (inventory w)) i = Some l
    ∧ Inventory.Control (inventory w) !! Locker.SizeId l = Some ctrl
    ∧ Forall (λ id, is_Some (Inventory.Control (inventory w) !! id))
             (LockerControlSpec.BiggerThan ctrl)
    ∧ w' = upd_control
             (adjust_all (Locker.SizeId l :: LockerControlSpec.BiggerThan ctrl) 1
              ∘ <[Locker.SizeId l := LockerControlSpec.with_Lockers ctrl
                                    (LockerControlSpec.Lockers ctrl ++ [i])]>) w.
Proof.
  unfold DeallocateLocker. unfold bind at 1. rewrite load_locker_eq.
  destruct (index (Inventory.Lockers (inventory w)) i) as [l|] eqn:Hl; cbn;
    [|split; [done|by intros (? & ? & [=] & _)]].
  unfold bind at 1. rewrite load_ctrl_eq.
  destruct (Inventory.Control (inventory w) !! Locker.SizeId l) as [c|] eqn:Hc; cbn;
    [|split; [done|intros (? & ? & [= <-] & ? & _); congruence]].
  unfold bind. rewrite store_ctrl_eq.
  rewrite AdjustVirtualCapacity_spec, upd_control_control, lookup_insert_eq.
  split.
  - intros (c1 & [= <-] & Hall & ->). cbn in Hall.
    rewrite (Forall_present_insert _ _ _ _ _ Hc) in Hall.
    exists l, c. by rewrite upd_control_compose.
  - intros (l' & c' & [= <-] & Hc' & Hall & ->).
    rewrite Hc in Hc'. injection Hc' as <-.
    eexists. split; [done|]. cbn.
    rewrite (Forall_present_insert _ _ _ _ _ Hc). by rewrite upd_control_compose.
Qed.

Lemma bump_with_Lockers by_ c l :
  bump by_ (LockerControlSpec.with_Lockers c l)
  = LockerControlSpec.with_Lockers (bump by_ c) l.
Proof. reflexivity. Qed.

Lemma with_Lockers_twice c a b :
  LockerControlSpec.with_Lockers (LockerControlSpec.with_Lockers c a) b
  = LockerControlSpec.with_Lockers c b.
Proof. reflexivity. Qed.

Lemma iter_bump_with_Lockers n by_ c l :
  Nat.iter n (bump by_) (LockerControlSpec.with_Lockers c l)
  = LockerControlSpec.with_Lockers (Nat.iter n (bump by_) c) l.
Proof.
  induction n as [|n IH]; [done|].
  by rewrite !Nat.iter_succ, IH, bump_with_Lockers.
Qed.

Lemma iter_bump_fields n by_ c :
  LockerControlSpec.BiggerThan (Nat.iter n (bump by_) c) = LockerControlSpec.BiggerThan c
  ∧ LockerControlSpec.SmallerThan (Nat.iter n (bump by_) c) = LockerControlSpec.SmallerThan c
  ∧ LockerControlSpec.Lockers (Nat.iter n (bump by_) c) = LockerControlSpec.Lockers c
  ∧ LockerControlSpec.Size (Nat.iter n (bump by_) c) = LockerControlSpec.Size c
  ∧ LockerControlSpec.SizeId (Nat.iter n (bump by_) c) = LockerControlSpec.SizeId c.
Proof.
  induction n as [|n IH]; [done|]. rewrite Nat.iter_succ. exact IH.
Qed.

(** Deallocating the locker that an allocation handed out restores the
    state, when that locker belongs to the class it was taken from. *)
Lemma Allocate_Deallocate size_id w i w' l :
  vc_ok (inventory w) →
  index (Inventory.Lockers (inventory w)) i = Some l →
  Locker.SizeId l = size_id →
  AllocateLocker size_id w = Some (i, w') →
  DeallocateLocker i w' = Some (tt, w).
Proof.
  intros Hvc Hl Hsz Halloc.
  apply AllocateLocker_spec in Halloc as (c & rest & Hc & Hrest & Hall & ->).
  apply DeallocateLocker_spec.
  set (ids := size_id :: LockerControlSpec.BiggerThan c).
  set (n := count_occ Z.eq_dec ids size_id).
  exists l, (Nat.iter n (bump (-1)) (LockerControlSpec.with_Lockers c rest)).
  split; [exact Hl|]. rewrite Hsz, upd_control_control. cbn [compose].
  split; [by rewrite adjust_all_lookup, lookup_insert_eq|].
  destruct (iter_bump_fields n (-1) (LockerControlSpec.with_Lockers c rest))
    as (Hb & _ & Hlk & _). rewrite Hb, Hlk. cbn. fold ids.
  split.
  { eapply Forall_impl; [exact Hall|]. intros k Hk. cbn in Hk.
    rewrite adjust_all_is_Some. by rewrite (present_insert _ _ _ _ _ Hc). }
  rewrite upd_control_compose. symmetry. apply upd_control_id. cbn [compose].
  apply map_eq. intros k.
  rewrite adjust_all_lookup.
  destruct (decide (k = size_id)) as [->|Hne].
  - rewrite lookup_insert_eq, Hc. cbn. f_equal. fold n.
    rewrite (iter_bump_with_Lockers n (-1) c rest).
    rewrite with_Lockers_twice.
    rewrite (iter_bump_with_Lockers n 1).
    change (bump 1) with (bump (- (-1))).
    rewrite iter_bump_inverse; [|by apply (Hvc size_id)].
    rewrite <- Hrest. by destruct c.
  - rewrite lookup_insert_ne by done. rewrite adjust_all_lookup.
    rewrite lookup_insert_ne by done.
    destruct (Inventory.Control (inventory w) !! k) as [ck|] eqn:Hck; [|done].
    cbn. f_equal. change (bump 1) with (bump (- (-1))).
    apply iter_bump_inverse. by apply (Hvc k).
Qed.

Lemma graph_ok_bigger_closed inv : graph_ok inv → bigger_closed inv.
Proof. intros H S cs Hcs. by destruct (H S cs Hcs) as (_ & _ & ? & _). Qed.

(** C8.  [AllocateLocker], called on a size class that exists and whose free
    list is non-empty (in an inventory whose [BiggerThan] lists name existing
    classes), completes without fault and returns an index from that class's
    free list.  Called on an unknown size class, or on a class whose free
    list is empty, it panics instead of returning; [AdjustVirtualCapacity]
    on an unknown class panics as well. *)
Theorem AllocateLocker_precondition (w : World) (size_id : LockerSize) :
  (∀ ctrl,
     bigger_closed (inventory w) →
     Inventory.Control (inventory w) !! size_id = Some ctrl →
     LockerControlSpec.Lockers ctrl ≠ [] →
     ∃ i w', AllocateLocker size_id w = Some (i, w')
             ∧ i ∈ LockerControlSpec.Lockers ctrl)
  ∧ (Inventory.Control (inventory w) !! size_id = None →
     AllocateLocker size_id w = None)
  ∧ (∀ ctrl,
       Inventory.Control (inventory w) !! size_id = Some ctrl →
       LockerControlSpec.Lockers ctrl = [] →
       AllocateLocker size_id w = None)
  ∧ (Inventory.Control (inventory w) !! size_id = None →
     ∀ by_, AdjustVirtualCapacity size_id by_ w = None).
Proof.
  split; [|split; [|split]].
  - intros ctrl Hclosed Hc Hne.
    destruct (last (LockerControlSpec.Lockers ctrl)) as [i|] eqn:Hlast;
      [|by apply last_None in Hlast].
    apply last_Some in Hlast as [rest Hrest].
    exists i. eexists. split.
    + apply AllocateLocker_spec. exists ctrl, rest.
      split; [done|]. split; [done|]. split; [|done]. by apply (Hclosed size_id).
    + rewrite Hrest. apply elem_of_app. right. by left.
  - intros Hc. destruct (AllocateLocker size_id w) as [[i w']|] eqn:H; [|done].
    apply AllocateLocker_spec in H as (c & ? & ? & _). congruence.
  - intros ctrl Hc Hnil.
    destruct (AllocateLocker size_id w) as [[i w']|] eqn:H; [|done].
    apply AllocateLocker_spec in H as (c & rest & Hc' & Hrest & _).
    rewrite Hc in Hc'. injection Hc' as <-. rewrite Hnil in Hrest.
    by destruct rest.
  - intros Hc by_.
    destruct (AdjustVirtualCapacity size_id by_ w) as [[[] w']|] eqn:H; [|done].
    apply AdjustVirtualCapacity_spec in H as (c & ? & _). congruence.
Qed.

Lemma AllocateLocker_precondition_witness :
  (∃ i w', AllocateLocker 2 example_world = Some (i, w') ∧ i ∈ [2; 3; 4])
  ∧ AllocateLocker 7 example_world = None
  ∧ AdjustVirtualCapacity 7 1 example_world = None.
Proof.
  destruct (AllocateLocker_precondition example_world 2) as (Hok & _).
  destruct (AllocateLocker_precondition example_world 7) as (_ & Hunknown & _ & Hadj).
  split; [|split].
  - apply (Hok (LockerControlSpec.mk 2 (mkSizeSpec 5 1 1) [1] [4] [2; 3; 4] 4)).
    + refine (bool_decide_unpack _ _). vm_compute. exact I.
    + vm_compute. reflexivity.
    + discriminate.
  - apply Hunknown. vm_compute. reflexivity.
  - apply Hadj. vm_compute. reflexivity.
Defined.

(** ** The effect of an adjustment on every class *)

Lemma graph_ok_ids inv S cs :
  graph_ok inv →
  Inventory.Control inv !! S = Some cs →
  NoDup (S :: LockerControlSpec.BiggerThan cs)
  ∧ ∀ T ct, Inventory.Control inv !! T = Some ct →
      (T ∈ S :: LockerControlSpec.BiggerThan cs ↔ T = S ∨ strictly_smaller ct cs).
Proof.
  intros Hg Hcs. destruct (Hg S cs Hcs) as (Hnd & _ & _ & _ & Hrel).
  assert (Hself : S ∉ LockerControlSpec.BiggerThan cs).
  { intros Hin. apply (Hrel S cs Hcs) in Hin as [_ Hne]. done. }
  split; [by apply NoDup_cons|].
  intros T ct Hct. rewrite elem_of_cons.
  destruct (Hrel T ct Hct) as [Hb _]. rewrite Hb. done.
Qed.

Lemma adjusted_capacity inv S cs cs2 by_ T ct :
  graph_ok inv →
  Inventory.Control inv !! S = Some cs →
  LockerControlSpec.VirtualCapacity cs2 = LockerControlSpec.VirtualCapacity cs →
  Inventory.Control inv !! T = Some ct →
  ∃ ct',
    adjust_all (S :: LockerControlSpec.BiggerThan cs) by_
      (<[S := cs2]> (Inventory.Control inv)) !! T = Some ct'
    ∧ LockerControlSpec.VirtualCapacity ct'
      = if decide (T = S ∨ strictly_smaller ct cs)
        then int_add (LockerControlSpec.VirtualCapacity ct) by_
        else LockerControlSpec.VirtualCapacity ct.
Proof.
  intros Hg Hcs Hvc Hct.
  destruct (graph_ok_ids _ _ _ Hg Hcs) as [Hnd Hin].
  rewrite adjust_all_lookup_NoDup by done.
  specialize (Hin T ct Hct).
  destruct (decide (T = S)) as [->|Hne].
  - rewrite decide_True by (by left). rewrite lookup_insert_eq. cbn.
    eexists. split; [done|]. rewrite decide_True by (by left).
    rewrite Hcs in Hct. injection Hct as <-. unfold bump. cbn. by rewrite Hvc.
  - rewrite lookup_insert_ne by done. rewrite Hct.
    case_decide as Hd.
    + eexists. split; [done|]. rewrite decide_True by (by apply Hin). done.
    + eexists. split; [done|]. rewrite decide_False; [done|]. by rewrite <- Hin.
Qed.

Lemma free_typed_locker inv S cs i :
  free_typed inv →
  Inventory.Control inv !! S = Some cs →
  i ∈ LockerControlSpec.Lockers cs →
  ∃ l, index (Inventory.Lockers inv) i = Some l ∧ Locker.SizeId l = S.
Proof.
  intros Hf Hcs Hi. specialize (Hf S cs Hcs). cbn in Hf.
  rewrite Forall_forall in Hf. specialize (Hf i Hi).
  destruct (index (Inventory.Lockers inv) i) as [l|]; [|done].
  injection Hf as Hf. by exists l.
Qed.

(** C2 (as amended).  In an inventory whose containment lists are those of
    the containment relation, [AllocateLocker] on class S takes the last
    index off the free list of S (its length decreases by exactly one) and
    applies the delta -1 to VirtualCapacity(S) and to VirtualCapacity(T) for
    every class T that is strictly smaller than S (every class S dominates,
    the classes of its [BiggerThan] list), and to no other class;
    [DeallocateLocker] appends the index to the free list of the locker's
    class and applies +1 to the same classes; and deallocating the locker
    just allocated restores the state exactly. *)
Theorem allocation_adjusts_contained_classes (w : World) :
  graph_ok (inventory w) → free_typed (inventory w) → vc_ok (inventory w) →
  (∀ size_id i w',
     AllocateLocker size_id w = Some (i, w') →
     ∃ cs cs',
       Inventory.Control (inventory w) !! size_id = Some cs
       ∧ Inventory.Control (inventory w') !! size_id = Some cs'
       ∧ LockerControlSpec.Lockers cs = LockerControlSpec.Lockers cs' ++ [i]
       ∧ (∀ T ct, Inventory.Control (inventory w) !! T = Some ct →
            ∃ ct', Inventory.Control (inventory w') !! T = Some ct'
              ∧ LockerControlSpec.VirtualCapacity ct'
                = if decide (T = size_id ∨ strictly_smaller ct cs)
                  then int_add (LockerControlSpec.VirtualCapacity ct) (-1)
                  else LockerControlSpec.VirtualCapacity ct)
       ∧ DeallocateLocker i w' = Some (tt, w))
  ∧ (∀ i w',
       DeallocateLocker i w = Some (tt, w') →
       ∃ l cs cs',
         index (Inventory.Lockers (inventory w)) i = Some l
         ∧ Inventory.Control (inventory w) !! Locker.SizeId l = Some cs
         ∧ Inventory.Control (inventory w') !! Locker.SizeId l = Some cs'
         ∧ LockerControlSpec.Lockers cs' = LockerControlSpec.Lockers cs ++ [i]
         ∧ (∀ T ct, Inventory.Control (inventory w) !! T = Some ct →
              ∃ ct', Inventory.Control (inventory w') !! T = Some ct'
                ∧ LockerControlSpec.VirtualCapacity ct'
                  = if decide (T = Locker.SizeId l ∨ strictly_smaller ct cs)
                    then int_add (LockerControlSpec.VirtualCapacity ct) 1
                    else LockerControlSpec.VirtualCapacity ct)).
Proof.
  intros Hg Hf Hvc. split.
  - intros size_id i w' Halloc. pose proof Halloc as Hspec.
    apply AllocateLocker_spec in Hspec as (cs & rest & Hcs & Hrest & Hall & ->).
    destruct (graph_ok_ids _ _ _ Hg Hcs) as [Hnd _].
    exists cs, (bump (-1) (LockerControlSpec.with_Lockers cs rest)).
    split; [done|]. rewrite upd_control_control. cbn [compose]. split.
    { rewrite adjust_all_lookup_NoDup by done.
      rewrite decide_True by (by left). by rewrite lookup_insert_eq. }
    split; [done|]. split.
    { intros T ct Hct. by apply adjusted_capacity. }
    destruct (free_typed_locker _ _ _ i Hf Hcs) as (l & Hl & Hsz).
    { rewrite Hrest. apply elem_of_app. right. by left. }
    by eapply Allocate_Deallocate.
  - intros i w' Hd.
    apply DeallocateLocker_spec in Hd as (l & cs & Hl & Hcs & Hall & ->).
    destruct (graph_ok_ids _ _ _ Hg Hcs) as [Hnd _].
    exists l, cs, (bump 1 (LockerControlSpec.with_Lockers cs
                             (LockerControlSpec.Lockers cs ++ [i]))).
    split; [done|]. split; [done|]. rewrite upd_control_control. cbn [compose]. split.
    { rewrite adjust_all_lookup_NoDup by done.
      rewrite decide_True by (by left). by rewrite lookup_insert_eq. }
    split; [done|].
    intros T ct Hct. by apply adjusted_capacity.
Qed.

Lemma allocation_adjusts_contained_classes_witness :
  ∃ i w' ct',
    AllocateLocker 2 example_world = Some (i, w')
    ∧ Inventory.Control (inventory w') !! 1 = Some ct'
    ∧ LockerControlSpec.VirtualCapacity ct' = 7
    ∧ DeallocateLocker i w' = Some (tt, example_world).
Proof.
  assert (Hg : graph_ok (inventory example_world))
    by (refine (bool_decide_unpack _ _); vm_compute; exact I).
  assert (Hf : free_typed (inventory example_world))
    by (refine (bool_decide_unpack _ _); vm_compute; exact I).
  assert (Hvc : vc_ok (inventory example_world))
    by (refine (bool_decide_unpack _ _); vm_compute; exact I).
  destruct (allocation_adjusts_contained_classes example_world Hg Hf Hvc) as [Ha _].
  destruct (AllocateLocker 2 example_world) as [[i w']|] eqn:Halloc;
    [|vm_compute in Halloc; discriminate].
  destruct (Ha 2 i w' Halloc) as (cs & cs' & Hcs & Hcs' & Hl & Hadj & Hinv).
  destruct (Hadj 1 (LockerControlSpec.mk 1 (mkSizeSpec 1 1 1) [] [2; 3; 4] [0; 1] 8))
    as (ct' & Hct' & Hv); [vm_compute; reflexivity|].
  exists i, w', ct'. split; [reflexivity|]. split; [exact Hct'|]. split; [|exact Hinv].
  rewrite Hv. vm_compute in Hcs. injection Hcs as <-. vm_compute. reflexivity.
Defined.

(** C2, as stated, fails: allocating a locker of the class 1x1x1 of the
    example inventory leaves the virtual capacity of the class 5x5x5, which
    dominates it, unchanged. *)
Lemma allocation_leaves_dominating_class :
  ∃ i w' cs ct ct',
    AllocateLocker 1 example_world = Some (i, w')
    ∧ Inventory.Control (inventory example_world) !! 1 = Some cs
    ∧ Inventory.Control (inventory example_world) !! 4 = Some ct
    ∧ strictly_smaller cs ct
    ∧ Inventory.Control (inventory w') !! 4 = Some ct'
    ∧ LockerControlSpec.VirtualCapacity ct' = LockerControlSpec.VirtualCapacity ct
    ∧ LockerControlSpec.VirtualCapacity ct'
      ≠ int_add (LockerControlSpec.VirtualCapacity ct) (-1).
Proof.
  eexists _, _, _, _, _.
  split; [vm_compute; reflexivity|].
  split; [vm_compute; reflexivity|].
  split; [vm_compute; reflexivity|].
  split; [split; [reflexivity|discriminate]|].
  split; [vm_compute; reflexivity|].
  split; [reflexivity|]. vm_compute. discriminate.
Qed.

(** ** Put and Fetch *)

Lemma load_pkg_eq p w : load_pkg p w = (λ v, (v, w)) <$> packages w !! p.
Proof. unfold load_pkg. by destruct (packages w !! p). Qed.

Lemma store_pkg_eq p v w : store_pkg p v w = Some (tt, set_pkg p v w).
Proof. reflexivity. Qed.

Lemma store_locker_eq i l w :
  store_locker i l w
  = (λ _, (tt, set_locker i l w)) <$> index (Inventory.Lockers (inventory w)) i.
Proof.
  unfold store_locker, bind, get_inv, deref.
  by destruct (index (Inventory.Lockers (inventory w)) i).
Qed.

Lemma Put_spec l pkg w r w' :
  Put l pkg w = Some (r, w') ↔
  ∃ lv, index (Inventory.Lockers (inventory w)) l = Some lv ∧
    match Locker.Contents lv with
    | Some _ => r = Some "Locker is not empty"%string ∧ w' = w
    | None =>
        ∃ pv, packages w !! pkg = Some pv ∧
          match Package.StoredIn pv with
          | Some _ => r = Some "Package already in locker"%string ∧ w' = w
          | None =>
              r = None
              ∧ w' = set_pkg pkg (Package.with_StoredIn pv (Some (PoolLocker l)))
                       (set_locker l (Locker.with_Contents lv (Some pkg)) w)
          end
    end.
Proof.
  unfold Put. unfold bind at 1. rewrite load_locker_eq.
  destruct (index (Inventory.Lockers (inventory w)) l) as [lv|] eqn:Hl; cbn;
    [|split; [done|by intros (? & [=] & _)]].
  destruct (Locker.Contents lv) eqn:Hcont.
  { unfold ret. split.
    - intros [= <- <-]. exists lv. by rewrite Hcont.
    - intros (lv' & [= <-] & H). rewrite Hcont in H. by destruct H as [-> ->]. }
  unfold bind at 1. rewrite load_pkg_eq.
  destruct (packages w !! pkg) as [pv|] eqn:Hp; cbn.
  2:{ split; [done|]. intros (lv' & [= <-] & H). rewrite Hcont in H.
      by destruct H as (? & [=] & _). }
  destruct (Package.StoredIn pv) eqn:Hst.
  { unfold ret. split.
    - intros [= <- <-]. exists lv. rewrite Hcont. split; [done|].
      exists pv. by rewrite Hst.
    - intros (lv' & [= <-] & H). rewrite Hcont in H.
      destruct H as (pv' & [= <-] & H). rewrite Hst in H. by destruct H as [-> ->]. }
  unfold bind. rewrite store_locker_eq, Hl. cbn. rewrite store_pkg_eq. unfold ret.
  split.
  - intros [= <- <-]. exists lv. rewrite Hcont. split; [done|].
    exists pv. by rewrite Hst.
  - intros (lv' & [= <-] & H). rewrite Hcont in H.
    destruct H as (pv' & [= <-] & H). rewrite Hst in H. by destruct H as [-> ->].
Qed.

Lemma Put_error_pure l pkg w e w' : Put l pkg w = Some (Some e, w') → w' = w.
Proof.
  intros (lv & _ & H)%Put_spec.
  destruct (Locker.Contents lv); [by destruct H|].
  destruct H as (pv & _ & H). destruct (Package.StoredIn pv); by destruct H.
Qed.

Lemma Fetch_spec l w r w' :
  Fetch l w = Some (r, w') ↔
  ∃ lv, index (Inventory.Lockers (inventory w)) l = Some lv ∧
    match Locker.Contents lv with
    | None => r = Err "Tried to fetch from empty locker" ∧ w' = w
    | Some p =>
        ∃ pv, packages w !! p = Some pv
          ∧ r = Ok p
          ∧ w' = set_pkg p (Package.with_StoredIn pv None)
                   (set_locker l (Locker.with_Contents lv None) w)
    end.
Proof.
  unfold Fetch. unfold bind at 1. rewrite load_locker_eq.
  destruct (index (Inventory.Lockers (inventory w)) l) as [lv|] eqn:Hl; cbn;
    [|split; [done|by intros (? & [=] & _)]].
  destruct (Locker.Contents lv) as [p|] eqn:Hcont.
  2:{ unfold ret. split.
      - intros [= <- <-]. exists lv. by rewrite Hcont.
      - intros (lv' & [= <-] & H). rewrite Hcont in H. by destruct H as [-> ->]. }
  unfold bind at 1. rewrite store_locker_eq, Hl. cbn.
  unfold bind at 1. rewrite load_pkg_eq.
  change (packages (set_locker l (Locker.with_Contents lv None) w)) with (packages w).
  destruct (packages w !! p) as [pv|] eqn:Hp; cbn.
  2:{ split; [done|]. intros (lv' & [= <-] & H). rewrite Hcont in H.
      destruct H as (? & ? & _). congruence. }
  unfold bind. rewrite store_pkg_eq. unfold ret. split.
  - intros [= <- <-]. exists lv. rewrite Hcont. split; [done|]. by exists pv.
  - intros (lv' & [= <-] & H). rewrite Hcont in H.
    destruct H as (pv' & Hp' & -> & ->). rewrite Hp in Hp'. by injection Hp' as <-.
Qed.

(** ** Deposit *)

Ltac bind_inv H a w1 E :=
  unfold bind at 1 in H;
  match type of H with
  | match ?m with _ => _ end = _ =>
      destruct m as [[a w1]|] eqn:E; [|discriminate H]
  end.

Lemma comma_ok_snd (m : gmap string Z) k :
  (comma_ok m k).2 = match m !! k with Some _ => true | None => false end.
Proof. unfold comma_ok. by destruct (m !! k). Qed.

Lemma LockersGo_DepositPackage_inv order pkg w r w' :
  LockersGo.DepositPackage order pkg w = Some (r, w') →
  ∃ pv, packages w !! pkg = Some pv ∧
    match Inventory.LockersByPackageId (inventory w) !! Package.Id pv with
    | Some _ => r = Err "Duplicate package ID" ∧ w' = w
    | None =>
        ∃ g, GetMostSuitableLockerSize order (Normalize (Package.Size pv)) w = Some (g, w) ∧
          match g with
          | Err e => r = Err e ∧ w' = w
          | Ok chosen_id =>
              ∃ i w1 e l,
                AllocateLocker chosen_id w = Some (i, w1)
                ∧ Put i pkg w1 = Some (e, w')
                ∧ index (Inventory.Lockers (inventory w')) i = Some l
                ∧ r = Ok (Locker.Id l)
          end
    end.
Proof.
  unfold LockersGo.DepositPackage. intros H.
  bind_inv H pv w0 Hpv. rewrite load_pkg_eq in Hpv.
  destruct (packages w !! pkg) as [pv'|] eqn:Hp; [|done].
  injection Hpv as -> <-. exists pv. split; [done|].
  unfold bind at 1 in H. unfold get_inv at 1 in H. rewrite comma_ok_snd in H.
  destruct (Inventory.LockersByPackageId (inventory w) !! Package.Id pv) eqn:Hdup.
  { unfold ret in H. by injection H as <- <-. }
  bind_inv H g w1 Hg. pose proof (proj1 (GetMostSuitableLockerSize_inv _ _ _ _ _ Hg)) as ->.
  exists g. split; [done|]. destruct g as [chosen|e].
  2:{ unfold ret in H. by injection H as <- <-. }
  bind_inv H i w1 Halloc. bind_inv H e w2 Hput. bind_inv H l w3 Hl.
  rewrite load_locker_eq in Hl.
  destruct (index (Inventory.Lockers (inventory w2)) i) as [l'|] eqn:Hl'; [|done].
  injection Hl as -> <-. unfold ret in H. injection H as <- <-.
  by exists i, w1, e, l.
Qed.

Lemma Part000_DepositPackage_inv order pkg w r w' :
  Part000.DepositPackage order pkg w = Some (r, w') →
  ∃ pv, packages w !! pkg = Some pv ∧
    match Inventory.LockersByPackageId (inventory w) !! Package.Id pv with
    | Some _ => r = Err "Duplicate package ID" ∧ w' = w
    | None =>
        ∃ g, GetMostSuitableLockerSize order (Normalize (Package.Size pv)) w = Some (g, w) ∧
          match g with
          | Err e => r = Err e ∧ w' = w
          | Ok chosen_id =>
              ∃ ctrl i e w1,
                Inventory.Control (inventory w) !! chosen_id = Some ctrl
                ∧ last (LockerControlSpec.Lockers ctrl) = Some i
                ∧ Put i pkg w = Some (e, w1)
                ∧ match e with
                  | Some e => r = Err e ∧ w' = w
                  | None =>
                      ∃ i' w2 pv' l,
                        AllocateLocker chosen_id w1 = Some (i', w2)
                        ∧ packages w2 !! pkg = Some pv'
                        ∧ w' = upd_by_package_id (<[Package.Id pv' := i]>) w2
                        ∧ index (Inventory.Lockers (inventory w')) i = Some l
                        ∧ r = Ok (Locker.Id l)
                  end
          end
    end.
Proof.
  unfold Part000.DepositPackage. intros H.
  bind_inv H pv w0 Hpv. rewrite load_pkg_eq in Hpv.
  destruct (packages w !! pkg) as [pv'|] eqn:Hp; [|done].
  injection Hpv as -> <-. exists pv. split; [done|].
  unfold bind at 1 in H. unfold get_inv at 1 in H. rewrite comma_ok_snd in H.
  destruct (Inventory.LockersByPackageId (inventory w) !! Package.Id pv) eqn:Hdup.
  { unfold ret in H. by injection H as <- <-. }
  bind_inv H g w1 Hg. pose proof (proj1 (GetMostSuitableLockerSize_inv _ _ _ _ _ Hg)) as ->.
  exists g. split; [done|]. destruct g as [chosen|e].
  2:{ unfold ret in H. by injection H as <- <-. }
  bind_inv H ctrl w1 Hctrl. apply load_ctrl_Some in Hctrl as [Hctrl ->].
  bind_inv H i w1 Hi. rewrite index_last in Hi.
  destruct (last (LockerControlSpec.Lockers ctrl)) as [i'|] eqn:Hlast; [|done].
  cbn in Hi. unfold ret in Hi. injection Hi as -> <-.
  bind_inv H e w1 Hput.
  exists ctrl, i, e, w1. split; [done|]. split; [done|]. split; [done|].
  destruct e as [e|].
  { apply Put_error_pure in Hput as ->. unfold ret in H. by injection H as <- <-. }
  bind_inv H i' w2 Halloc. bind_inv H pv' w3 Hpv'. rewrite load_pkg_eq in Hpv'.
  destruct (packages w2 !! pkg) as [pv''|] eqn:Hp2; [|done].
  injection Hpv' as -> <-.
  unfold bind at 1 in H. unfold get_inv at 1 in H.
  unfold bind at 1 in H. unfold put_inv at 1 in H.
  bind_inv H l w4 Hl. rewrite load_locker_eq in Hl.
  match type of Hl with context [index ?L i] =>
    destruct (index L i) as [l'|] eqn:Hl'; [|done] end.
  injection Hl as -> <-. unfold ret in H. injection H as <- <-.
  exists i', w2, pv', l. done.
Qed.

Lemma bind_eq {A B} (m : M A) (k : A → M B) w a w1 :
  m w = Some (a, w1) → bind m k w = k a w1.
Proof. unfold bind. by intros ->. Qed.

Lemma load_pkg_Some p w v : packages w !! p = Some v → load_pkg p w = Some (v, w).
Proof. intros H. by rewrite load_pkg_eq, H. Qed.

Lemma get_inv_eq w : get_inv w = Some (inventory w, w).
Proof. reflexivity. Qed.

Lemma DepositPackage_duplicate order pkg w pv :
  packages w !! pkg = Some pv →
  is_Some (Inventory.LockersByPackageId (inventory w) !! Package.Id pv) →
  LockersGo.DepositPackage order pkg w = Some (Err "Duplicate package ID", w)
  ∧ Part000.DepositPackage order pkg w = Some (Err "Duplicate package ID", w).
Proof.
  intros Hp [i Hi].
  unfold LockersGo.DepositPackage, Part000.DepositPackage. split.
  - rewrite (bind_eq _ _ _ _ _ (load_pkg_Some _ _ _ Hp)).
    rewrite (bind_eq _ _ _ _ _ (get_inv_eq w)).
    by rewrite comma_ok_snd, Hi.
  - rewrite (bind_eq _ _ _ _ _ (load_pkg_Some _ _ _ Hp)).
    rewrite (bind_eq _ _ _ _ _ (get_inv_eq w)).
    by rewrite comma_ok_snd, Hi.
Qed.

Lemma DepositPackage_no_locker order pkg w pv :
  packages w !! pkg = Some pv →
  Inventory.LockersByPackageId (inventory w) !! Package.Id pv = None →
  GetMostSuitableLockerSize order (Normalize (Package.Size pv)) w
    = Some (Err "No available lockers which can fit package", w) →
  LockersGo.DepositPackage order pkg w
    = Some (Err "No available lockers which can fit package", w)
  ∧ Part000.DepositPackage order pkg w
    = Some (Err "No available lockers which can fit package", w).
Proof.
  intros Hp Hi Hg.
  unfold LockersGo.DepositPackage, Part000.DepositPackage. split.
  - rewrite (bind_eq _ _ _ _ _ (load_pkg_Some _ _ _ Hp)).
    rewrite (bind_eq _ _ _ _ _ (get_inv_eq w)).
    rewrite comma_ok_snd, Hi. by rewrite (bind_eq _ _ _ _ _ Hg).
  - rewrite (bind_eq _ _ _ _ _ (load_pkg_Some _ _ _ Hp)).
    rewrite (bind_eq _ _ _ _ _ (get_inv_eq w)).
    rewrite comma_ok_snd, Hi. by rewrite (bind_eq _ _ _ _ _ Hg).
Qed.

(** C7.  Whenever [DepositPackage] fails, it returns an error and leaves the
    whole state unchanged (free lists, virtual capacities, identifier maps,
    lockers and packages), in both revisions: it fails with the
    duplicate-identifier error when the package identifier is registered,
    and with the no-locker error when no class both fits the package and has
    a free compartment. *)
Theorem DepositPackage_failure_unchanged order pkg (w : World) pv :
  packages w !! pkg = Some pv →
  order ≡ₚ map_to_list (Inventory.Sizes (inventory w)) →
  sizes_controlled (inventory w) →
  (is_Some (Inventory.LockersByPackageId (inventory w) !! Package.Id pv) →
     LockersGo.DepositPackage order pkg w = Some (Err "Duplicate package ID", w)
     ∧ Part000.DepositPackage order pkg w = Some (Err "Duplicate package ID", w))
  ∧ (Inventory.LockersByPackageId (inventory w) !! Package.Id pv = None →
     (¬ ∃ id, candidate (inventory w) (Normalize (Package.Size pv)) id) →
     LockersGo.DepositPackage order pkg w
       = Some (Err "No available lockers which can fit package", w)
     ∧ Part000.DepositPackage order pkg w
       = Some (Err "No available lockers which can fit package", w))
  ∧ (∀ e w', LockersGo.DepositPackage order pkg w = Some (Err e, w') → w' = w)
  ∧ (∀ e w', Part000.DepositPackage order pkg w = Some (Err e, w') → w' = w).
Proof.
  intros Hp Hperm Hctl. split; [|split; [|split]].
  - by apply DepositPackage_duplicate.
  - intros Hi Hno. apply (DepositPackage_no_locker _ _ _ pv); [done..|].
    destruct (GetMostSuitableLockerSize_total order (Normalize (Package.Size pv)) w
                Hperm Hctl) as (l & Hcand & Hres).
    destruct l as [|first others]; [done|].
    exfalso. apply Hno. exists first. apply Hcand. by left.
  - intros e w' (pv' & Hp' & H)%LockersGo_DepositPackage_inv.
    destruct (Inventory.LockersByPackageId (inventory w) !! Package.Id pv');
      [by destruct H|].
    destruct H as ([chosen|e'] & _ & H); [|by destruct H].
    by destruct H as (? & ? & ? & ? & _ & _ & _ & [=]).
  - intros e w' (pv' & Hp' & H)%Part000_DepositPackage_inv.
    destruct (Inventory.LockersByPackageId (inventory w) !! Package.Id pv');
      [by destruct H|].
    destruct H as ([chosen|e'] & _ & H); [|by destruct H].
    destruct H as (? & ? & [e1|] & ? & _ & _ & _ & H); [by destruct H|].
    by destruct H as (? & ? & ? & ? & _ & _ & _ & _ & [=]).
Qed.

(** A package too large for every class of the example inventory. *)
Lemma DepositPackage_failure_unchanged_witness :
  let w := set_pkg 2%positive (Package.mk "crate" (mkSizeSpec 9 9 9) None) example_world in
  LockersGo.DepositPackage example_order 2%positive w
    = Some (Err "No available lockers which can fit package", w)
  ∧ Part000.DepositPackage example_order 2%positive w
    = Some (Err "No available lockers which can fit package", w).
Proof.
  intros w.
  assert (Hp : packages w !! 2%positive = Some (Package.mk "crate" (mkSizeSpec 9 9 9) None))
    by (vm_compute; reflexivity).
  assert (Hperm : example_order ≡ₚ map_to_list (Inventory.Sizes (inventory w)))
    by reflexivity.
  assert (Hctl : sizes_controlled (inventory w))
    by (refine (bool_decide_unpack _ _); vm_compute; exact I).
  destruct (DepositPackage_failure_unchanged example_order 2%positive w _ Hp Hperm Hctl)
    as (_ & Hno & Hgo & Hpart).
  split.
  - destruct (LockersGo.DepositPackage example_order 2%positive w) as [[r w']|] eqn:H;
      [|vm_compute in H; discriminate].
    destruct r as [lid|e]; [vm_compute in H; discriminate|].
    rewrite (Hgo e w' eq_refl). f_equal. f_equal.
    vm_compute in H. injection H as <- _. reflexivity.
  - destruct (Part000.DepositPackage example_order 2%positive w) as [[r w']|] eqn:H;
      [|vm_compute in H; discriminate].
    destruct r as [lid|e]; [vm_compute in H; discriminate|].
    rewrite (Hpart e w' eq_refl). f_equal. f_equal.
    vm_compute in H. injection H as <- _. reflexivity.
Defined.

(** ** Deposit followed by retrieval *)

Lemma index_Some {A} (l : list A) i x :
  index l i = Some x ↔ 0 ≤ i ∧ l !! Z.to_nat i = Some x.
Proof.
  unfold index. destruct (decide (0 ≤ i)) as [H0|H0].
  - split; [done|by intros [_ ?]].
  - split; [done|]. by intros [? _].
Qed.

Lemma index_insert_eq {A} (l : list A) i x y :
  index l i = Some x → index (<[Z.to_nat i := y]> l) i = Some y.
Proof.
  rewrite !index_Some. intros [Hi Hl]. split; [done|].
  apply list_lookup_insert_eq. by eapply lookup_lt_Some.
Qed.

Lemma ids_indexed_lookup inv i l :
  ids_indexed inv →
  index (Inventory.Lockers inv) i = Some l →
  Inventory.LockersById inv !! Locker.Id l = Some i.
Proof.
  intros Hids [Hi Hl]%index_Some. unfold ids_indexed in Hids.
  rewrite Forall_forall in Hids.
  specialize (Hids (Z.to_nat i, l)). cbn in Hids.
  rewrite Hids; [f_equal; lia|].
  apply elem_of_lookup_imap. by exists (Z.to_nat i), l.
Qed.

Lemma control_round_trip (C : gmap LockerSize LockerControlSpec) S c rest i :
  C !! S = Some c →
  LockerControlSpec.Lockers c = rest ++ [i] →
  map_Forall (λ _ c, int_ok (LockerControlSpec.VirtualCapacity c)) C →
  ∃ c1,
    adjust_all (S :: LockerControlSpec.BiggerThan c) (-1)
      (<[S := LockerControlSpec.with_Lockers c rest]> C) !! S = Some c1
    ∧ LockerControlSpec.BiggerThan c1 = LockerControlSpec.BiggerThan c
    ∧ adjust_all (S :: LockerControlSpec.BiggerThan c1) 1
        (<[S := LockerControlSpec.with_Lockers c1 (LockerControlSpec.Lockers c1 ++ [i])]>
           (adjust_all (S :: LockerControlSpec.BiggerThan c) (-1)
              (<[S := LockerControlSpec.with_Lockers c rest]> C)))
      = C.
Proof.
  intros Hc Hrest Hvc.
  set (ids := S :: LockerControlSpec.BiggerThan c).
  set (n := count_occ Z.eq_dec ids S).
  exists (Nat.iter n (bump (-1)) (LockerControlSpec.with_Lockers c rest)).
  destruct (iter_bump_fields n (-1) (LockerControlSpec.with_Lockers c rest))
    as (Hb & _ & Hlk & _).
  split; [by rewrite adjust_all_lookup, lookup_insert_eq|].
  split; [exact Hb|]. rewrite Hb, Hlk. cbn. fold ids.
  apply map_eq. intros k.
  rewrite adjust_all_lookup.
  destruct (decide (k = S)) as [->|Hne].
  - rewrite lookup_insert_eq, Hc. cbn. f_equal. fold n.
    rewrite (iter_bump_with_Lockers n (-1) c rest).
    rewrite with_Lockers_twice.
    rewrite (iter_bump_with_Lockers n 1).
    change (bump 1) with (bump (- (-1))).
    rewrite iter_bump_inverse; [|by apply (Hvc S)].
    rewrite <- Hrest. by destruct c.
  - rewrite lookup_insert_ne by done. rewrite adjust_all_lookup.
    rewrite lookup_insert_ne by done.
    destruct (C !! k) as [ck|] eqn:Hck; [|done].
    cbn. f_equal. change (bump 1) with (bump (- (-1))).
    apply iter_bump_inverse. by apply (Hvc k).
Qed.

Lemma Part000_DepositPackage_success order pkg w lid w' :
  Part000.DepositPackage order pkg w = Some (Ok lid, w') →
  ∃ pv chosen_id c rest i lv,
    packages w !! pkg = Some pv
    ∧ Package.StoredIn pv = None
    ∧ Inventory.LockersByPackageId (inventory w) !! Package.Id pv = None
    ∧ GetMostSuitableLockerSize order (Normalize (Package.Size pv)) w
      = Some (Ok chosen_id, w)
    ∧ Inventory.Control (inventory w) !! chosen_id = Some c
    ∧ LockerControlSpec.Lockers c = rest ++ [i]
    ∧ Forall (λ id, is_Some (Inventory.Control (inventory w) !! id))
             (LockerControlSpec.BiggerThan c)
    ∧ index (Inventory.Lockers (inventory w)) i = Some lv
    ∧ Locker.Contents lv = None
    ∧ lid = Locker.Id lv
    ∧ w' = upd_by_package_id (<[Package.Id pv := i]>)
             (upd_control
                (adjust_all (chosen_id :: LockerControlSpec.BiggerThan c) (-1)
                 ∘ <[chosen_id := LockerControlSpec.with_Lockers c rest]>)
                (set_pkg pkg (Package.with_StoredIn pv (Some (PoolLocker i)))
                   (set_locker i (Locker.with_Contents lv (Some pkg)) w))).
Proof.
  intros (pv & Hp & H)%Part000_DepositPackage_inv.
  destruct (Inventory.LockersByPackageId (inventory w) !! Package.Id pv) eqn:Hdup;
    [by destruct H|].
  destruct H as ([chosen|e] & Hg & H); [|by destruct H].
  destruct H as (c & i & [e|] & w1 & Hc & Hlast & Hput & H); [by destruct H|].
  destruct H as (i' & w2 & pv' & l & Halloc & Hp2 & -> & Hl & [= ->]).
  apply Put_spec in Hput as (lv & Hlv & Hput).
  destruct (Locker.Contents lv) eqn:Hcont; [by destruct Hput|].
  destruct Hput as (pv0 & Hp0 & Hput). rewrite Hp in Hp0. injection Hp0 as <-.
  destruct (Package.StoredIn pv) eqn:Hst; [by destruct Hput|].
  destruct Hput as [_ ->].
  apply AllocateLocker_spec in Halloc as (c' & rest & Hc' & Hrest & Hall & ->).
  change (Inventory.Control (inventory w) !! chosen = Some c') in Hc'.
  rewrite Hc in Hc'. injection Hc' as <-.
  rewrite Hrest, last_snoc in Hlast. injection Hlast as ->.
  change (<[pkg := Package.with_StoredIn pv (Some (PoolLocker i))]> (packages w) !! pkg
          = Some pv') in Hp2.
  rewrite lookup_insert_eq in Hp2. injection Hp2 as <-.
  change (index (<[Z.to_nat i := Locker.with_Contents lv (Some pkg)]>
                   (Inventory.Lockers (inventory w))) i = Some l) in Hl.
  rewrite (index_insert_eq _ _ _ _ Hlv) in Hl. injection Hl as <-.
  exists pv, chosen, c, rest, i, lv. done.
Qed.

Lemma Part000_retrieve_after_deposit order pkg w lid w' :
  vc_ok (inventory w) →
  free_typed (inventory w) →
  Part000.DepositPackage order pkg w = Some (Ok lid, w') →
  ∃ i pv lv,
    packages w !! pkg = Some pv
    ∧ index (Inventory.Lockers (inventory w)) i = Some lv
    ∧ Locker.Contents lv = None
    ∧ lid = Locker.Id lv
    ∧ Inventory.LockersByPackageId (inventory w') !! Package.Id pv = Some i
    ∧ Inventory.LockersById (inventory w') = Inventory.LockersById (inventory w)
    ∧ Part000.RetrievePackageInternal i true w' = Some (Ok pkg, w).
Proof.
  intros Hvc Hfree Hdep.
  apply Part000_DepositPackage_success in Hdep
    as (pv & S & c & rest & i & lv & Hp & Hst & Hdup & _ & Hc & Hrest & Hall
        & Hlv & Hcont & -> & ->).
  exists i, pv, lv. split; [done|]. split; [done|]. split; [done|]. split; [done|].
  split; [apply lookup_insert_eq|]. split; [done|].
  destruct (free_typed_locker _ _ _ i Hfree Hc) as (lv' & Hlv' & Hsz).
  { rewrite Hrest. apply elem_of_app. right. by left. }
  rewrite Hlv in Hlv'. injection Hlv' as <-.
  destruct (control_round_trip _ _ _ _ _ Hc Hrest Hvc) as (c1 & Hc1 & Hb1 & Hback).
  set (F := adjust_all (S :: LockerControlSpec.BiggerThan c) (-1)
            ∘ <[S := LockerControlSpec.with_Lockers c rest]>).
  set (pvS := Package.with_StoredIn pv (Some (PoolLocker i))).
  set (lvF := Locker.with_Contents lv (Some pkg)).
  set (w4 := upd_by_package_id (<[Package.Id pv := i]>)
               (upd_control F (set_pkg pkg pvS (set_locker i lvF w)))).
  set (wF := set_pkg pkg (Package.with_StoredIn pvS None)
               (set_locker i (Locker.with_Contents lvF None) w4)).
  assert (HFetch : Fetch i w4 = Some (Ok pkg, wF)).
  { apply Fetch_spec. exists lvF. split.
    - change (index (<[Z.to_nat i := lvF]> (Inventory.Lockers (inventory w))) i = Some lvF).
      by eapply index_insert_eq.
    - cbn. exists pvS. split; [|done].
      change (<[pkg := pvS]> (packages w) !! pkg = Some pvS). apply lookup_insert_eq. }
  set (G := adjust_all (S :: LockerControlSpec.BiggerThan c1) 1
            ∘ <[S := LockerControlSpec.with_Lockers c1 (LockerControlSpec.Lockers c1 ++ [i])]>).
  assert (HDealloc : DeallocateLocker i wF = Some (tt, upd_control G wF)).
  { apply DeallocateLocker_spec. exists (Locker.with_Contents lvF None), c1.
    split.
    { change (index (<[Z.to_nat i := Locker.with_Contents lvF None]>
                       (<[Z.to_nat i := lvF]> (Inventory.Lockers (inventory w)))) i
              = Some (Locker.with_Contents lvF None)).
      eapply index_insert_eq. by eapply index_insert_eq. }
    change (Locker.SizeId (Locker.with_Contents lvF None)) with (Locker.SizeId lv).
    rewrite Hsz.
    change (Inventory.Control (inventory wF)) with (F (Inventory.Control (inventory w))).
    split; [exact Hc1|]. split; [|done].
    rewrite Hb1. eapply Forall_impl; [exact Hall|]. intros k Hk. cbn in Hk.
    unfold F. cbn [compose]. rewrite adjust_all_is_Some.
    by rewrite (present_insert _ _ _ _ _ Hc). }
  unfold Part000.RetrievePackageInternal. cbn [negb].
  rewrite (bind_eq _ _ _ _ _ HFetch).
  rewrite (bind_eq _ _ _ _ _ HDealloc).
  assert (HpN : packages (upd_control G wF) !! pkg = Some (Package.with_StoredIn pvS None)).
  { change (<[pkg := Package.with_StoredIn pvS None]> (<[pkg := pvS]> (packages w)) !! pkg
            = Some (Package.with_StoredIn pvS None)).
    apply lookup_insert_eq. }
  rewrite (bind_eq _ _ _ _ _ (load_pkg_Some _ _ _ HpN)).
  rewrite (bind_eq _ _ _ _ _ (get_inv_eq _)).
  unfold bind, put_inv, ret. f_equal. f_equal.
  unfold G, F in *. clear HFetch HDealloc HpN.
  subst wF w4 pvS lvF.
  destruct w as [[L C Sz LB LP] P].
  unfold upd_control, upd_by_package_id, set_pkg, set_locker,
    Inventory.with_LockersByPackageId, Inventory.with_Control, Inventory.with_Lockers
    in *.
  cbn in *. f_equal; [f_equal|].
  - rewrite list_insert_insert_eq. apply list_insert_id.
    apply index_Some in Hlv as [_ Hlv]. rewrite Hlv. f_equal.
    destruct lv. cbn in *. by subst.
  - exact Hback.
  - by rewrite delete_insert_eq, delete_id.
  - rewrite insert_insert_eq. apply insert_id. rewrite Hp. f_equal.
    destruct pv. cbn in *. by subst.
Qed.

Lemma comma_ok_Some (m : gmap string Z) k i : m !! k = Some i → comma_ok m k = (i, true).
Proof. unfold comma_ok. by intros ->. Qed.

Lemma comma_ok_None (m : gmap string Z) k : m !! k = None → comma_ok m k = (0, false).
Proof. unfold comma_ok. by intros ->. Qed.

(** Revision [src/unnamed/part_000] satisfies the round trip of C3: after a
    successful [DepositPackage], retrieving the package by its own
    identifier, by the package itself or by the returned locker identifier
    succeeds, returns the deposited package and restores the state that
    preceded the deposit (so the locker is empty again and every virtual
    capacity has its former value). *)
Lemma Part000_deposit_retrieve_round_trip order pkg (w : World) lid w' :
  vc_ok (inventory w) →
  free_typed (inventory w) →
  ids_indexed (inventory w) →
  Part000.DepositPackage order pkg w = Some (Ok lid, w') →
  ∃ pv i lv,
    packages w !! pkg = Some pv
    ∧ Inventory.LockersById (inventory w) !! lid = Some i
    ∧ index (Inventory.Lockers (inventory w)) i = Some lv
    ∧ Locker.Contents lv = None
    ∧ Part000.RetrievePackageById (Package.Id pv) w' = Some (Ok pkg, w)
    ∧ Part000.RetrievePackageByLockerId lid w' = Some (Ok pkg, w).
Proof.
  intros Hvc Hfree Hids Hdep.
  destruct (Part000_retrieve_after_deposit _ _ _ _ _ Hvc Hfree Hdep)
    as (i & pv & lv & Hp & Hlv & Hcont & -> & Hreg & Hby & Hret).
  pose proof (ids_indexed_lookup _ _ _ Hids Hlv) as Hlid.
  exists pv, i, lv. split; [done|]. split; [done|]. split; [done|]. split; [done|].
  split.
  - unfold Part000.RetrievePackageById.
    rewrite (bind_eq _ _ _ _ _ (get_inv_eq _)).
    by rewrite (comma_ok_Some _ _ _ Hreg).
  - unfold Part000.RetrievePackageByLockerId.
    rewrite (bind_eq _ _ _ _ _ (get_inv_eq _)).
    rewrite Hby. by rewrite (comma_ok_Some _ _ _ Hlid).
Qed.

Lemma Part000_deposit_retrieve_round_trip_example :
  ∃ lid w',
    Part000.DepositPackage example_order 1%positive example_world = Some (Ok lid, w')
    ∧ Part000.RetrievePackageById "parcel" w' = Some (Ok 1%positive, example_world)
    ∧ Part000.RetrievePackageByLockerId lid w' = Some (Ok 1%positive, example_world).
Proof.
  assert (Hvc : vc_ok (inventory example_world))
    by (refine (bool_decide_unpack _ _); vm_compute; exact I).
  assert (Hf : free_typed (inventory example_world))
    by (refine (bool_decide_unpack _ _); vm_compute; exact I).
  assert (Hids : ids_indexed (inventory example_world))
    by (refine (bool_decide_unpack _ _); vm_compute; exact I).
  destruct (Part000.DepositPackage example_order 1%positive example_world)
    as [[[lid|e] w']|] eqn:Hdep; [|vm_compute in Hdep; discriminate..].
  destruct (Part000_deposit_retrieve_round_trip _ _ _ _ _ Hvc Hf Hids Hdep)
    as (pv & i & lv & Hp & _ & _ & _ & Hby_id & Hby_locker).
  vm_compute in Hp. injection Hp as <-.
  exists lid, w'. split; [reflexivity|]. split; [exact Hby_id|exact Hby_locker].
Defined.

(** Revision [src/lockers.go]: [DepositPackage] never writes
    [LockersByPackageId], so that after a successful deposit the package
    identifier is still unknown and [RetrievePackageById] fails. *)
Lemma LockersGo_deposit_keeps_by_package_id order pkg w r w' :
  LockersGo.DepositPackage order pkg w = Some (r, w') →
  Inventory.LockersByPackageId (inventory w')
  = Inventory.LockersByPackageId (inventory w).
Proof.
  intros (pv & Hp & H)%LockersGo_DepositPackage_inv.
  destruct (Inventory.LockersByPackageId (inventory w) !! Package.Id pv);
    [by destruct H as [_ ->]|].
  destruct H as ([chosen|e] & _ & H); [|by destruct H as [_ ->]].
  destruct H as (i & w1 & e & l & Halloc & Hput & _).
  apply AllocateLocker_spec in Halloc as (c & rest & _ & _ & _ & ->).
  apply Put_spec in Hput as (lv & _ & Hput).
  destruct (Locker.Contents lv); [by destruct Hput as [_ ->]|].
  destruct Hput as (pv0 & _ & Hput).
  destruct (Package.StoredIn pv0); by destruct Hput as [_ ->].
Qed.

Lemma LockersGo_deposit_then_retrieve_by_id_fails order pkg w lid w' pv :
  packages w !! pkg = Some pv →
  LockersGo.DepositPackage order pkg w = Some (Ok lid, w') →
  LockersGo.RetrievePackageById (Package.Id pv) w' = Some (Err "Package ID not known", w').
Proof.
  intros Hp Hdep.
  pose proof (LockersGo_deposit_keeps_by_package_id _ _ _ _ _ Hdep) as Hsame.
  apply LockersGo_DepositPackage_inv in Hdep as (pv' & Hp' & H).
  rewrite Hp in Hp'. injection Hp' as <-.
  destruct (Inventory.LockersByPackageId (inventory w) !! Package.Id pv) eqn:Hdup;
    [by destruct H|].
  unfold LockersGo.RetrievePackageById.
  rewrite (bind_eq _ _ _ _ _ (get_inv_eq _)).
  rewrite Hsame. by rewrite (comma_ok_None _ _ Hdup).
Qed.

(** C3 on revision [src/lockers.go]: the deposit of the parcel of the
    example succeeds and returns locker "7", and retrieving the parcel by
    its own identifier right afterwards fails with the unknown-identifier
    error. *)
Theorem LockersGo_deposit_then_retrieve_by_id_fails_example :
  ∃ w',
    LockersGo.DepositPackage example_order 1%positive example_world = Some (Ok "7", w')
    ∧ LockersGo.RetrievePackageById "parcel" w' = Some (Err "Package ID not known", w').
Proof.
  eexists. split; [vm_compute; reflexivity|].
  vm_compute. reflexivity.
Qed.

(** Revision [src/lockers.go] also drops the error of [Put]: the deposit of
    a package that is already stored in some locker reports success, leaves
    the allocated locker empty, and the retrieval by the returned locker
    identifier fails. *)
Lemma LockersGo_deposit_ignores_Put_error :
  let w := set_pkg 1%positive
             (Package.mk "parcel" (mkSizeSpec 2 1 4) (Some (OtherLocker 1))) example_world in
  ∃ w',
    LockersGo.DepositPackage example_order 1%positive w = Some (Ok "7", w')
    ∧ LockersGo.RetrievePackageByLockerId "7" w'
      = Some (Err "Tried to fetch from empty locker", w')
    ∧ Part000.DepositPackage example_order 1%positive w
      = Some (Err "Package already in locker", w).
Proof.
  eexists. split; [vm_compute; reflexivity|].
  split; vm_compute; reflexivity.
Qed.

(** ** Retrieval *)

Lemma Part000_RetrievePackageInternal_inv i w r w' :
  Part000.RetrievePackageInternal i true w = Some (r, w') →
  ∃ lv, index (Inventory.Lockers (inventory w)) i = Some lv ∧
    match Locker.Contents lv with
    | None => r = Err "Tried to fetch from empty locker" ∧ w' = w
    | Some p =>
        ∃ pv w1,
          packages w !! p = Some pv
          ∧ DeallocateLocker i
              (set_pkg p (Package.with_StoredIn pv None)
                 (set_locker i (Locker.with_Contents lv None) w)) = Some (tt, w1)
          ∧ r = Ok p
          ∧ w' = upd_by_package_id (delete (Package.Id pv)) w1
    end.
Proof.
  unfold Part000.RetrievePackageInternal. cbn [negb]. intros H.
  bind_inv H f w1 Hfetch. apply Fetch_spec in Hfetch as (lv & Hlv & Hfetch).
  exists lv. split; [done|].
  destruct (Locker.Contents lv) as [p|].
  2:{ destruct Hfetch as [-> ->]. unfold ret in H. by injection H as <- <-. }
  destruct Hfetch as (pv & Hp & -> & ->).
  bind_inv H u w2 Hd. destruct u.
  pose proof Hd as Hd'.
  apply DeallocateLocker_spec in Hd' as (l & c & _ & _ & _ & Hw2).
  bind_inv H pv1 w3 Hp1. rewrite load_pkg_eq in Hp1.
  assert (Hp2 : packages w2 !! p = Some (Package.with_StoredIn pv None)).
  { rewrite Hw2. unfold upd_control, set_pkg. cbn. apply lookup_insert_eq. }
  rewrite Hp2 in Hp1. injection Hp1 as <- <-.
  rewrite (bind_eq _ _ _ _ _ (get_inv_eq _)) in H.
  unfold bind, put_inv, ret in H. injection H as <- <-.
  exists pv, w2. done.
Qed.

Lemma LockersGo_RetrievePackageInternal_inv i w r w' :
  LockersGo.RetrievePackageInternal i true w = Some (r, w') →
  ∃ lv, index (Inventory.Lockers (inventory w)) i = Some lv ∧
    match Locker.Contents lv with
    | None => r = Err "Tried to fetch from empty locker" ∧ w' = w
    | Some p =>
        ∃ pv,
          packages w !! p = Some pv
          ∧ DeallocateLocker i
              (set_pkg p (Package.with_StoredIn pv None)
                 (set_locker i (Locker.with_Contents lv None) w)) = Some (tt, w')
          ∧ r = Ok p
    end.
Proof.
  unfold LockersGo.RetrievePackageInternal. cbn [negb]. intros H.
  bind_inv H f w1 Hfetch. apply Fetch_spec in Hfetch as (lv & Hlv & Hfetch).
  exists lv. split; [done|].
  destruct (Locker.Contents lv) as [p|].
  2:{ destruct Hfetch as [-> ->]. unfold ret in H. by injection H as <- <-. }
  destruct Hfetch as (pv & Hp & -> & ->).
  bind_inv H u w2 Hd. destruct u.
  unfold ret in H. injection H as <- <-. by exists pv.
Qed.

(** C4.  In revision [src/unnamed/part_000], [RetrievePackageById] and
    [RetrievePackageByLockerId] fail with the unknown-identifier error
    exactly when the identifier is not registered, and then leave the state
    unchanged; when they succeed, the identifier is registered for a locker
    that holds the returned package, the package has been fetched out of the
    locker (locker emptied, back-reference cleared), the locker has been
    deallocated, and the entry of the package's identifier has been removed
    from [LockersByPackageId]. *)
Theorem Part000_RetrievePackage_unknown_or_removed (w : World) (id : string) :
  (Inventory.LockersByPackageId (inventory w) !! id = None →
     Part000.RetrievePackageById id w = Some (Err "Package ID not known", w))
  ∧ (∀ w', Part000.RetrievePackageById id w = Some (Err "Package ID not known", w') →
       Inventory.LockersByPackageId (inventory w) !! id = None ∧ w' = w)
  ∧ (Inventory.LockersById (inventory w) !! id = None →
     Part000.RetrievePackageByLockerId id w = Some (Err "Package ID not known", w))
  ∧ (∀ w', Part000.RetrievePackageByLockerId id w = Some (Err "Package ID not known", w') →
       Inventory.LockersById (inventory w) !! id = None ∧ w' = w)
  ∧ (∀ pkg w',
       Part000.RetrievePackageById id w = Some (Ok pkg, w')
       ∨ Part000.RetrievePackageByLockerId id w = Some (Ok pkg, w') →
       ∃ i lv pv w1,
         (Inventory.LockersByPackageId (inventory w) !! id = Some i
          ∨ Inventory.LockersById (inventory w) !! id = Some i)
         ∧ index (Inventory.Lockers (inventory w)) i = Some lv
         ∧ Locker.Contents lv = Some pkg
         ∧ packages w !! pkg = Some pv
         ∧ DeallocateLocker i
             (set_pkg pkg (Package.with_StoredIn pv None)
                (set_locker i (Locker.with_Contents lv None) w)) = Some (tt, w1)
         ∧ w' = upd_by_package_id (delete (Package.Id pv)) w1
         ∧ Inventory.LockersByPackageId (inventory w') !! Package.Id pv = None).
Proof.
  assert (Hinternal : ∀ i r w',
    Part000.RetrievePackageInternal i true w = Some (r, w') →
    r ≠ Err "Package ID not known"
    ∧ ∀ pkg, r = Ok pkg →
        ∃ lv pv w1,
          index (Inventory.Lockers (inventory w)) i = Some lv
          ∧ Locker.Contents lv = Some pkg
          ∧ packages w !! pkg = Some pv
          ∧ DeallocateLocker i
              (set_pkg pkg (Package.with_StoredIn pv None)
                 (set_locker i (Locker.with_Contents lv None) w)) = Some (tt, w1)
          ∧ w' = upd_by_package_id (delete (Package.Id pv)) w1
          ∧ Inventory.LockersByPackageId (inventory w') !! Package.Id pv = None).
  { intros i r w' (lv & Hlv & H)%Part000_RetrievePackageInternal_inv.
    destruct (Locker.Contents lv) as [p|] eqn:Hcont.
    - destruct H as (pv & w1 & Hp & Hd & -> & ->). split; [done|].
      intros pkg [= <-]. exists lv, pv, w1.
      split; [done|]. split; [done|]. split; [done|]. split; [done|]. split; [done|].
      apply lookup_delete_eq.
    - destruct H as [-> ->]. split; [done|]. by intros pkg [=]. }
  split; [|split; [|split; [|split]]].
  - intros Hnone. unfold Part000.RetrievePackageById.
    rewrite (bind_eq _ _ _ _ _ (get_inv_eq _)). by rewrite (comma_ok_None _ _ Hnone).
  - intros w'. unfold Part000.RetrievePackageById.
    rewrite (bind_eq _ _ _ _ _ (get_inv_eq _)).
    destruct (Inventory.LockersByPackageId (inventory w) !! id) as [i|] eqn:Hreg.
    + rewrite (comma_ok_Some _ _ _ Hreg). intros H.
      by destruct (Hinternal _ _ _ H) as [Hne _].
    + rewrite (comma_ok_None _ _ Hreg). by intros [= <-].
  - intros Hnone. unfold Part000.RetrievePackageByLockerId.
    rewrite (bind_eq _ _ _ _ _ (get_inv_eq _)). by rewrite (comma_ok_None _ _ Hnone).
  - intros w'. unfold Part000.RetrievePackageByLockerId.
    rewrite (bind_eq _ _ _ _ _ (get_inv_eq _)).
    destruct (Inventory.LockersById (inventory w) !! id) as [i|] eqn:Hreg.
    + rewrite (comma_ok_Some _ _ _ Hreg). intros H.
      by destruct (Hinternal _ _ _ H) as [Hne _].
    + rewrite (comma_ok_None _ _ Hreg). by intros [= <-].
  - intros pkg w' [H|H].
    + unfold Part000.RetrievePackageById in H.
      rewrite (bind_eq _ _ _ _ _ (get_inv_eq _)) in H.
      destruct (Inventory.LockersByPackageId (inventory w) !! id) as [i|] eqn:Hreg.
      2:{ by rewrite (comma_ok_None _ _ Hreg) in H. }
      rewrite (comma_ok_Some _ _ _ Hreg) in H.
      destruct (Hinternal _ _ _ H) as [_ Hok].
      destruct (Hok pkg eq_refl) as (lv & pv & w1 & ?). exists i, lv, pv, w1.
      split; [by left|done].
    + unfold Part000.RetrievePackageByLockerId in H.
      rewrite (bind_eq _ _ _ _ _ (get_inv_eq _)) in H.
      destruct (Inventory.LockersById (inventory w) !! id) as [i|] eqn:Hreg.
      2:{ by rewrite (comma_ok_None _ _ Hreg) in H. }
      rewrite (comma_ok_Some _ _ _ Hreg) in H.
      destruct (Hinternal _ _ _ H) as [_ Hok].
      destruct (Hok pkg eq_refl) as (lv & pv & w1 & ?). exists i, lv, pv, w1.
      split; [by right|done].
Qed.

Lemma Part000_RetrievePackage_unknown_or_removed_witness :
  Part000.RetrievePackageById "nobody" example_deposited
    = Some (Err "Package ID not known", example_deposited)
  ∧ ∃ w', Part000.RetrievePackageById "parcel" example_deposited = Some (Ok 1%positive, w')
          ∧ Inventory.LockersByPackageId (inventory w') !! "parcel"%string = None.
Proof.
  split.
  - apply (Part000_RetrievePackage_unknown_or_removed example_deposited "nobody").
    vm_compute. reflexivity.
  - destruct (Part000_RetrievePackage_unknown_or_removed example_deposited "parcel")
      as (_ & _ & _ & _ & Hok).
    destruct (Part000.RetrievePackageById "parcel" example_deposited)
      as [[[p|e] w']|] eqn:H; [|vm_compute in H; discriminate..].
    destruct (Hok p w' (or_introl eq_refl))
      as (i & lv & pv & w1 & _ & _ & _ & Hp & _ & _ & Hgone).
    assert (Hp1 : p = 1%positive) by (vm_compute in H; congruence).
    subst p. vm_compute in Hp. injection Hp as <-.
    exists w'. split; [reflexivity|exact Hgone].
Defined.

Lemma GetMostSuitableLockerSize_error_iff_witness :
  GetMostSuitableLockerSize example_order (mkSizeSpec 9 9 9) example_world
    = Some (Err "No available lockers which can fit package", example_world)
  ∧ ∃ id, GetMostSuitableLockerSize example_order (mkSizeSpec 4 2 1) example_world
          = Some (Ok id, example_world).
Proof.
  assert (Hperm : example_order ≡ₚ map_to_list (Inventory.Sizes (inventory example_world)))
    by reflexivity.
  assert (Hctl : sizes_controlled (inventory example_world))
    by (refine (bool_decide_unpack _ _); vm_compute; exact I).
  split.
  - destruct (GetMostSuitableLockerSize_error_iff example_order (mkSizeSpec 9 9 9)
                example_world Hperm Hctl) as ([r Hr] & _ & _).
    rewrite Hr. vm_compute in Hr. injection Hr as <-. reflexivity.
  - destruct (GetMostSuitableLockerSize_error_iff example_order (mkSizeSpec 4 2 1)
                example_world Hperm Hctl) as ([r Hr] & _ & _).
    destruct r as [id|e]; [by exists id|].
    vm_compute in Hr. discriminate.
Defined.

Lemma GetMostSuitableLockerSize_minimal_witness :
  ∃ chosen_id,
    GetMostSuitableLockerSize example_order (mkSizeSpec 1 1 1) example_world
      = Some (Ok chosen_id, example_world)
    ∧ candidate (inventory example_world) (mkSizeSpec 1 1 1) chosen_id
    ∧ Before 2 chosen_id (inventory example_world) = Some false.
Proof.
  assert (Hperm : example_order ≡ₚ map_to_list (Inventory.Sizes (inventory example_world)))
    by reflexivity.
  destruct (GetMostSuitableLockerSize example_order (mkSizeSpec 1 1 1) example_world)
    as [[[id|e] w']|] eqn:H; [|vm_compute in H; discriminate..].
  destruct (GetMostSuitableLockerSize_minimal _ _ _ _ _ Hperm H) as (Hcand & Hmin & _).
  pose proof (proj1 (GetMostSuitableLockerSize_inv _ _ _ _ _ H)) as ->.
  exists id. split; [reflexivity|]. split; [exact Hcand|].
  apply Hmin.
  exists (mkSizeSpec 5 1 1), (LockerControlSpec.mk 2 (mkSizeSpec 5 1 1) [1] [4] [2; 3; 4] 4).
  split; [vm_compute; reflexivity|]. split; [reflexivity|].
  split; [vm_compute; reflexivity|]. discriminate.
Defined.

(** ** Construction *)

Lemma Contains_antisym s t : Contains s t = true → Contains t s = true → s = t.
Proof.
  unfold Contains. rewrite !andb_true_iff, !bool_decide_eq_true.
  destruct s, t; cbn. intros [[? ?] ?] [[? ?] ?]. f_equal; lia.
Qed.

Lemma Contains_refl s : Contains s s = true.
Proof.
  unfold Contains. rewrite !andb_true_iff, !bool_decide_eq_true. lia.
Qed.

Lemma amend_amend inv g1 g2 : amend (amend inv g1) g2 = amend inv (g2 ∘ g1).
Proof. unfold amend, Inventory.with_Control. cbn. by rewrite <- map_fmap_compose. Qed.

Lemma amend_ext inv g1 g2 :
  (∀ id c, Inventory.Control inv !! id = Some c → g1 c = g2 c) →
  amend inv g1 = amend inv g2.
Proof.
  intros H. unfold amend. f_equal. by apply map_fmap_ext.
Qed.

Lemma amend_id inv g :
  (∀ id c, Inventory.Control inv !! id = Some c → g c = c) → amend inv g = inv.
Proof.
  intros H. unfold amend.
  rewrite (map_fmap_ext g id) by done. rewrite map_fmap_id. by destruct inv.
Qed.

Lemma classes_by_size_amend idf inv all g :
  (∀ c, LockerControlSpec.Size (g c) = LockerControlSpec.Size c) →
  classes_by_size idf inv all → classes_by_size idf (amend inv g) all.
Proof.
  intros Hg [H1 H2]. split.
  - intros s Hs. destruct (H1 s Hs) as (c & Hc & Hsz). exists (g c).
    unfold amend. cbn. rewrite lookup_fmap, Hc. split; [done|]. by rewrite Hg.
  - intros id c'. unfold amend. cbn. rewrite lookup_fmap.
    destruct (Inventory.Control inv !! id) as [c|] eqn:Hc; [|done].
    intros [= <-]. rewrite Hg. by apply H2.
Qed.

Lemma classes_by_size_inj idf inv all s t :
  classes_by_size idf inv all → s ∈ all → t ∈ all → idf s = idf t → s = t.
Proof.
  intros [H1 _] Hs Ht Heq.
  destruct (H1 s Hs) as (c & Hc & <-). destruct (H1 t Ht) as (c' & Hc' & <-).
  rewrite Heq in Hc. congruence.
Qed.

Lemma alter_by_size idf inv all s (f : LockerControlSpec → LockerControlSpec) c :
  classes_by_size idf inv all → s ∈ all →
  Inventory.Control inv !! idf s = Some c →
  <[idf s := f c]> (Inventory.Control inv)
  = (λ c, if decide (LockerControlSpec.Size c = s) then f c else c) <$> Inventory.Control inv.
Proof.
  intros [H1 H2] Hs Hc. apply map_eq. intros k.
  rewrite lookup_insert, lookup_fmap.
  destruct (H1 s Hs) as (c0 & Hc0 & Hsz). rewrite Hc in Hc0. injection Hc0 as <-.
  case_decide as Hk.
  - subst k. rewrite Hc. cbn. by rewrite decide_True.
  - destruct (Inventory.Control inv !! k) as [ck|] eqn:Hck; [|done]. cbn.
    destruct (H2 k ck Hck) as [-> _].
    rewrite decide_False; [done|]. intros Heq. apply Hk. by rewrite Heq.
Qed.

Lemma push_BiggerThan_amend idf inv all s x :
  classes_by_size idf inv all → s ∈ all →
  push_BiggerThan inv (idf s) x
  = Some (amend inv (λ c, if decide (LockerControlSpec.Size c = s)
                          then LockerControlSpec.with_BiggerThan c
                                 (LockerControlSpec.BiggerThan c ++ [x])
                          else c)).
Proof.
  intros Hcls Hs. unfold push_BiggerThan.
  destruct Hcls as [H1 H2]. destruct (H1 s Hs) as (c & Hc & Hsz).
  rewrite Hc. cbn. f_equal. unfold amend. f_equal.
  by apply (alter_by_size idf inv all s
              (λ c, LockerControlSpec.with_BiggerThan c (LockerControlSpec.BiggerThan c ++ [x]))).
Qed.

Lemma push_SmallerThan_amend idf inv all s x :
  classes_by_size idf inv all → s ∈ all →
  push_SmallerThan inv (idf s) x
  = Some (amend inv (λ c, if decide (LockerControlSpec.Size c = s)
                          then LockerControlSpec.with_SmallerThan c
                                 (LockerControlSpec.SmallerThan c ++ [x])
                          else c)).
Proof.
  intros Hcls Hs. unfold push_SmallerThan.
  destruct Hcls as [H1 H2]. destruct (H1 s Hs) as (c & Hc & Hsz).
  rewrite Hc. cbn. f_equal. unfold amend. f_equal.
  by apply (alter_by_size idf inv all s
              (λ c, LockerControlSpec.with_SmallerThan c (LockerControlSpec.SmallerThan c ++ [x]))).
Qed.

Lemma grow_nil idf c : grow idf [] c = c.
Proof. unfold grow, bigs, smalls. cbn. rewrite !app_nil_r. by destruct c. Qed.

Lemma grow_Size idf news c :
  LockerControlSpec.Size (grow idf news c) = LockerControlSpec.Size c.
Proof. reflexivity. Qed.

Lemma grow_app idf l1 l2 c : grow idf l2 (grow idf l1 c) = grow idf (l1 ++ l2) c.
Proof.
  unfold grow, bigs, smalls. cbn.
  by rewrite !filter_app, !fmap_app, !app_assoc.
Qed.

Lemma grow_cons_self idf s rest c :
  LockerControlSpec.Size c = s → grow idf (s :: rest) c = grow idf rest c.
Proof.
  intros <-. unfold grow, bigs, smalls.
  rewrite !filter_cons. rewrite !decide_False by (by intros [_ ?]). done.
Qed.

Lemma grow_single_bigger idf s t c :
  LockerControlSpec.Size c = s → s ≠ t → Contains s t = true →
  grow idf [t] c
  = LockerControlSpec.with_BiggerThan c (LockerControlSpec.BiggerThan c ++ [idf t]).
Proof.
  intros <- Hne Hc. unfold grow, bigs, smalls.
  rewrite !filter_cons, !filter_nil.
  rewrite decide_True by (split; [done|congruence]).
  rewrite decide_False.
  2:{ intros [Hc' _]. apply Hne. by apply Contains_antisym. }
  cbn. rewrite app_nil_r. by destruct c.
Qed.

Lemma grow_single_smaller idf s t c :
  LockerControlSpec.Size c = s → s ≠ t → Contains s t = false → Contains t s = true →
  grow idf [t] c
  = LockerControlSpec.with_SmallerThan c (LockerControlSpec.SmallerThan c ++ [idf t]).
Proof.
  intros <- Hne Hc Hc'. unfold grow, bigs, smalls.
  rewrite !filter_cons, !filter_nil.
  rewrite decide_False by (intros [? _]; congruence).
  rewrite decide_True by (split; [done|congruence]).
  cbn. rewrite app_nil_r. by destruct c.
Qed.

Lemma grow_single_unrelated idf s t c :
  LockerControlSpec.Size c = s → Contains s t = false → Contains t s = false →
  grow idf [t] c = c.
Proof.
  intros <- Hc Hc'. unfold grow, bigs, smalls.
  rewrite !filter_cons, !filter_nil.
  rewrite !decide_False by (intros [? _]; congruence).
  cbn. rewrite !app_nil_r. by destruct c.
Qed.

Lemma size_id_of_amend inv g s : size_id_of (amend inv g) s = size_id_of inv s.
Proof. reflexivity. Qed.

Lemma relate_amend idf inv all s1 t :
  (∀ s, size_id_of inv s = idf s) →
  classes_by_size idf inv all → s1 ∈ all → t ∈ all → s1 ≠ t →
  relate s1 inv t
  = Some (amend inv (λ c, if decide (LockerControlSpec.Size c = s1) then grow idf [t] c
                          else if decide (LockerControlSpec.Size c = t) then grow idf [s1] c
                          else c)).
Proof.
  intros Hidf Hcls Hs1 Ht Hne. unfold relate.
  destruct (Contains s1 t) eqn:Hc1; [|destruct (Contains t s1) eqn:Hc2].
  - rewrite !Hidf. rewrite (push_BiggerThan_amend idf inv all s1) by done. cbn.
    rewrite !size_id_of_amend, !Hidf.
    rewrite (push_SmallerThan_amend idf _ all t);
      [|by apply classes_by_size_amend; [intros c; case_decide|]|done].
    f_equal. rewrite amend_amend. apply amend_ext. intros id c _. cbn.
    destruct (decide (LockerControlSpec.Size c = s1)) as [Hs|Hs].
    + rewrite decide_False by (cbn; congruence).
      by rewrite (grow_single_bigger idf s1 t).
    + destruct (decide (LockerControlSpec.Size c = t)) as [Hst|Hst]; [|done].
      rewrite (grow_single_smaller idf t s1); [done..|congruence| |done].
      destruct (Contains t s1) eqn:Hc2; [|done].
      exfalso. apply Hne. by apply Contains_antisym.
  - rewrite !Hidf. rewrite (push_SmallerThan_amend idf inv all s1) by done. cbn.
    rewrite !size_id_of_amend, !Hidf.
    rewrite (push_BiggerThan_amend idf _ all t);
      [|by apply classes_by_size_amend; [intros c; case_decide|]|done].
    f_equal. rewrite amend_amend. apply amend_ext. intros id c _. cbn.
    destruct (decide (LockerControlSpec.Size c = s1)) as [Hs|Hs].
    + rewrite decide_False by (cbn; congruence).
      by rewrite (grow_single_smaller idf s1 t).
    + destruct (decide (LockerControlSpec.Size c = t)) as [Hst|Hst]; [|done].
      rewrite (grow_single_bigger idf t s1); [done..|congruence|done].
  - f_equal. symmetry. apply amend_id. intros id c _.
    destruct (decide (LockerControlSpec.Size c = s1)) as [Hs|Hs].
    + by apply (grow_single_unrelated idf s1 t).
    + destruct (decide (LockerControlSpec.Size c = t)) as [Hst|Hst]; [|done].
      by apply (grow_single_unrelated idf t s1).
Qed.

Lemma relate_fold idf inv all s1 rest :
  (∀ s, size_id_of inv s = idf s) →
  classes_by_size idf inv all → s1 ∈ all → (∀ t, t ∈ rest → t ∈ all) →
  s1 ∉ rest → NoDup rest →
  fold_opt (relate s1) inv rest
  = Some (amend inv (λ c, if decide (LockerControlSpec.Size c = s1) then grow idf rest c
                          else if decide (LockerControlSpec.Size c ∈ rest) then grow idf [s1] c
                          else c)).
Proof.
  revert inv. induction rest as [|t rest IH]; intros inv Hidf Hcls Hs1 Hsub Hnot Hnd.
  - cbn. f_equal. symmetry. apply amend_id. intros id c _.
    case_decide; [apply grow_nil|]. rewrite decide_False; [done|]. apply not_elem_of_nil.
  - cbn. apply not_elem_of_cons in Hnot as [Hne Hnot].
    apply NoDup_cons in Hnd as [Hnt Hnd].
    rewrite (relate_amend idf inv all s1 t); [|done..|by apply Hsub; left|done].
    cbn. rewrite IH; first last; try done.
    { intros u Hu. apply Hsub. by right. }
    { apply classes_by_size_amend; [|done]. intros c. by repeat case_decide. }
    f_equal. rewrite amend_amend. apply amend_ext. intros id c _. cbn.
    destruct (decide (LockerControlSpec.Size c = s1)) as [Hs|Hs].
    + rewrite decide_True by (by rewrite grow_Size). apply (grow_app idf [t] rest).
    + destruct (decide (LockerControlSpec.Size c = t)) as [Hst|Hst].
      * rewrite decide_False by (by rewrite grow_Size).
        rewrite decide_False by (rewrite grow_Size; congruence).
        rewrite decide_True; [done|]. rewrite Hst. by left.
      * rewrite decide_False by done.
        destruct (decide (LockerControlSpec.Size c ∈ rest)) as [Hin|Hin].
        -- rewrite decide_True; [done|]. by right.
        -- rewrite decide_False; [done|]. intros [?|?]%elem_of_cons; done.
Qed.

Lemma relate_all_spec idf inv all sizes :
  (∀ s, size_id_of inv s = idf s) →
  classes_by_size idf inv all → (∀ t, t ∈ sizes → t ∈ all) → NoDup sizes →
  relate_all inv sizes
  = Some (amend inv (λ c, if decide (LockerControlSpec.Size c ∈ sizes)
                          then grow idf sizes c else c)).
Proof.
  revert inv. induction sizes as [|s1 rest IH]; intros inv Hidf Hcls Hsub Hnd.
  - cbn. f_equal. symmetry. apply amend_id. intros id c _.
    rewrite decide_False; [done|]. apply not_elem_of_nil.
  - cbn. apply NoDup_cons in Hnd as [Hnot Hnd].
    rewrite (relate_fold idf inv all s1 rest); [|done..|by apply Hsub; left| |done|done].
    2:{ intros u Hu. apply Hsub. by right. }
    cbn. rewrite IH; first last; try done.
    { intros u Hu. apply Hsub. by right. }
    { apply classes_by_size_amend; [|done]. intros c. by repeat case_decide. }
    f_equal. rewrite amend_amend. apply amend_ext. intros id c _. cbn.
    destruct (decide (LockerControlSpec.Size c = s1)) as [Hs|Hs].
    + rewrite decide_False by (rewrite grow_Size; congruence).
      rewrite decide_True by (rewrite Hs; by left).
      by rewrite grow_cons_self.
    + destruct (decide (LockerControlSpec.Size c ∈ rest)) as [Hin|Hin].
      * rewrite decide_True by (by rewrite grow_Size).
        rewrite decide_True by (by right).
        apply (grow_app idf [s1] rest).
      * rewrite decide_False by done.
        rewrite decide_False; [done|]. intros [?|?]%elem_of_cons; done.
Qed.

Lemma sumZ_perm {A} (f : A → Z) l l' : l ≡ₚ l' → sumZ f l = sumZ f l'.
Proof. unfold sumZ. induction 1; cbn in *; lia. Qed.

Lemma total_free_insert_None (C : gmap LockerSize LockerControlSpec) id c :
  C !! id = None →
  total_free (<[id := c]> C) = len (LockerControlSpec.Lockers c) + total_free C.
Proof.
  intros H. unfold total_free.
  by rewrite (sumZ_perm _ _ _ (map_to_list_insert C id c H)).
Qed.

Lemma total_free_insert_Some (C : gmap LockerSize LockerControlSpec) id c c' :
  C !! id = Some c →
  total_free (<[id := c']> C)
  = total_free C - len (LockerControlSpec.Lockers c) + len (LockerControlSpec.Lockers c').
Proof.
  intros H. rewrite <- insert_delete_eq.
  rewrite total_free_insert_None by apply lookup_delete_eq.
  unfold total_free at 2.
  rewrite <- (sumZ_perm _ _ _ (map_to_list_delete C id c H)).
  unfold total_free, sumZ, free_of. cbn. lia.
Qed.

Lemma index_lt {A} (l : list A) i x : index l i = Some x → 0 ≤ i < len l.
Proof.
  intros [H0 H]%index_Some. apply lookup_lt_Some in H. unfold len. lia.
Qed.

Lemma index_insert_ne {A} (l : list A) i j y :
  i ≠ j → 0 ≤ i → index (<[Z.to_nat i := y]> l) j = index l j.
Proof.
  intros Hne Hi. unfold index. case_decide; [|done].
  apply list_lookup_insert_ne. lia.
Qed.

Lemma new_locker_Some uuid size_id inv n idx st :
  new_locker uuid size_id (inv, n) idx = Some st →
  ∃ l c,
    index (Inventory.Lockers inv) idx = Some l
    ∧ Inventory.Control inv !! size_id = Some c
    ∧ st = (Inventory.mk
              (<[Z.to_nat idx := Locker.mk (uuid n) size_id None]> (Inventory.Lockers inv))
              (<[size_id := LockerControlSpec.with_Lockers c
                              (LockerControlSpec.Lockers c ++ [idx])]> (Inventory.Control inv))
              (Inventory.Sizes inv)
              (<[uuid n := idx]> (Inventory.LockersById inv))
              (Inventory.LockersByPackageId inv),
            S n).
Proof.
  unfold new_locker.
  destruct (index (Inventory.Lockers inv) idx) as [l|] eqn:Hl; [|done]. cbn.
  destruct (Inventory.Control inv !! size_id) as [c|] eqn:Hc; [|done]. cbn.
  intros [= <-]. by exists l, c.
Qed.

Lemma built_new_locker uuid sizes inv idx n size_id s inv' n' :
  built (mkBuilder inv sizes idx n) →
  Inventory.Sizes inv !! s = Some size_id →
  new_locker uuid size_id (inv, n) idx = Some (inv', n') →
  built (mkBuilder inv' sizes (idx + 1) n')
  ∧ Inventory.Sizes inv' = Inventory.Sizes inv.
Proof.
  intros (Hnd & Hin & Hsz & Hcls & Hback & Hidx & Htot & Hfree & Hmax) Hs Hnew.
  cbn in *.
  apply new_locker_Some in Hnew as (l & c & Hl & Hc & [= -> ->]).
  pose proof (index_lt _ _ _ Hl) as Hlt.
  split; [|done]. repeat split; cbn; try done.
  - by apply Hin.
  - by apply Hin.
  - by apply (Hcls s0 id).
  - by apply (Hcls s0 id).
  - destruct (Hcls s0 id H) as (_ & c0 & Hc0 & Hf).
    destruct (decide (id = size_id)) as [->|Hne].
    + rewrite lookup_insert_eq. rewrite Hc in Hc0. injection Hc0 as <-.
      eexists. split; [done|]. exact Hf.
    + rewrite lookup_insert_ne by done. by exists c0.
  - intros id c'. rewrite lookup_insert. case_decide as Hd.
    + subst id. intros [= <-]. cbn. by apply Hback.
    + apply Hback.
  - lia.
  - unfold len. rewrite length_insert. unfold len in Hlt. lia.
  - rewrite (total_free_insert_Some _ _ c) by done. cbn.
    unfold len. rewrite length_app. cbn. unfold len in Htot. lia.
  - intros id c'. rewrite lookup_insert. case_decide as Hd.
    + subst id. intros [= <-]. cbn. apply Forall_app. split.
      * eapply Forall_impl; [by apply (Hfree size_id c)|].
        intros i [Hi Hty]. cbn. split; [lia|].
        rewrite index_insert_ne; [done|lia..].
      * apply Forall_singleton. split; [lia|].
        by rewrite (index_insert_eq _ _ _ _ Hl).
    + intros Hc'. eapply Forall_impl; [by apply (Hfree id c')|].
      intros i [Hi Hty]. cbn. split; [lia|].
      rewrite index_insert_ne; [done|lia..].
  - unfold len. rewrite length_insert. exact Hmax.
Qed.

Lemma fold_opt_cons {A B} (f : A → B → option A) a b l :
  fold_opt f a (b :: l) = f a b ≫= λ a', fold_opt f a' l.
Proof. reflexivity. Qed.

Lemma built_new_lockers uuid sizes size_id s n :
  ∀ idx inv d inv' d',
    built (mkBuilder inv sizes idx d) →
    Inventory.Sizes inv !! s = Some size_id →
    fold_opt (new_locker uuid size_id) (inv, d) (seqZ idx (Z.of_nat n)) = Some (inv', d') →
    built (mkBuilder inv' sizes (idx + Z.of_nat n) d').
Proof.
  induction n as [|n IH]; intros idx inv d inv' d' Hb Hs Hfold.
  - cbn in Hfold. injection Hfold as <- <-.
    by replace (idx + Z.of_nat 0) with idx by lia.
  - rewrite seqZ_cons in Hfold by lia. rewrite fold_opt_cons in Hfold.
    destruct (new_locker uuid size_id (inv, d) idx) as [[inv1 d1]|] eqn:Hnew;
      cbn in Hfold; [|done].
    destruct (built_new_locker _ _ _ _ _ _ _ _ _ Hb Hs Hnew) as [Hb1 Hsz].
    replace (Z.pred (Z.of_nat (S n))) with (Z.of_nat n) in Hfold by lia.
    replace (idx + Z.of_nat (S n)) with (Z.succ idx + Z.of_nat n) by lia.
    eapply IH; [exact Hb1| |exact Hfold]. by rewrite Hsz.
Qed.

Lemma built_new_class inv sizes idx d s :
  built (mkBuilder inv sizes idx d) →
  Inventory.Sizes inv !! s = None →
  let size_id := Z.of_nat (base.size (Inventory.Sizes inv)) + 1 in
  built (mkBuilder
           (Inventory.with_Control
              (Inventory.with_Sizes inv (<[s := size_id]> (Inventory.Sizes inv)))
              (<[size_id := LockerControlSpec.mk size_id s [] [] [] 0]>
                 (Inventory.Control inv)))
           (sizes ++ [s]) idx d).
Proof.
  intros (Hnd & Hin & Hsz & Hcls & Hback & Hidx & Htot & Hfree & Hmax) Hs size_id.
  cbn in *.
  assert (Hfresh : Inventory.Control inv !! size_id = None).
  { destruct (Inventory.Control inv !! size_id) as [c|] eqn:Hc; [|done].
    apply Hback in Hc. apply Hcls in Hc as [Hr _]. unfold size_id in Hr. lia. }
  repeat split; cbn in *.
  - apply NoDup_app. split; [done|]. split; [|apply NoDup_singleton].
    intros x Hx Hx2. apply list_elem_of_singleton in Hx2 as ->.
    apply Hin in Hx as [? ?]. congruence.
  - intros [Hx|Hx]%elem_of_app.
    + apply Hin in Hx as [id Hid]. rewrite lookup_insert_ne; [by eauto|]. congruence.
    + apply list_elem_of_singleton in Hx as ->. rewrite lookup_insert_eq. by eauto.
  - rewrite lookup_insert. case_decide as Hd.
    + subst. intros _. apply elem_of_app. right. by left.
    + intros Hx. apply elem_of_app. left. by apply Hin.
  - rewrite map_size_insert_None by done. rewrite length_app. cbn. lia.
  - revert H. rewrite lookup_insert. case_decide as Hd.
    + intros [= <-]. unfold size_id. lia.
    + intros Hx. apply Hcls in Hx as [Hr _]. lia.
  - revert H. rewrite lookup_insert. case_decide as Hd.
    + intros [= <-]. unfold size_id. rewrite length_app. cbn. lia.
    + intros Hx. apply Hcls in Hx as [Hr _]. rewrite length_app. lia.
  - revert H. rewrite lookup_insert. case_decide as Hd.
    + intros [= <-]. subst s0. rewrite lookup_insert_eq. eexists. by split.
    + intros Hx. destruct (Hcls _ _ Hx) as (Hr & c & Hc & Hf).
      rewrite lookup_insert_ne; [by exists c|]. unfold size_id. lia.
  - intros id c. rewrite lookup_insert. case_decide as Hd.
    + subst id. intros [= <-]. cbn. apply lookup_insert_eq.
    + intros Hc. pose proof (Hback _ _ Hc) as Hb.
      rewrite lookup_insert_ne; [done|]. congruence.
  - lia.
  - lia.
  - rewrite total_free_insert_None by done. unfold len. cbn. lia.
  - intros id c. rewrite lookup_insert. case_decide as Hd.
    + subst id. intros [= <-]. cbn. constructor.
    + apply Hfree.
  - exact Hmax.
Qed.

Lemma built_add_size uuid b entry b' :
  built b → add_size uuid b entry = Some b' → built b'.
Proof.
  destruct b as [inv sizes idx d]. destruct entry as [size count].
  intros Hb. unfold add_size. cbn.
  set (s := Normalize size).
  set (max := int_add count idx).
  assert (Hloop : ∀ inv1 sizes1 size_id,
    built (mkBuilder inv1 sizes1 idx d) →
    Inventory.Sizes inv1 !! s = Some size_id →
    ∀ b', ('(inv2, n) ← fold_opt (new_locker uuid size_id) (inv1, d) (seqZ idx (max - idx));
           Some (mkBuilder inv2 sizes1 (Z.max idx max) n)) = Some b' →
    built b').
  { intros inv1 sizes1 size_id Hb1 Hs1 b''.
    destruct (fold_opt (new_locker uuid size_id) (inv1, d) (seqZ idx (max - idx)))
      as [[inv2 n]|] eqn:Hfold; [|done].
    cbn. intros [= <-].
    destruct (decide (max - idx ≤ 0)) as [Hle|Hgt].
    - rewrite seqZ_nil in Hfold by done. cbn in Hfold. injection Hfold as <- <-.
      by rewrite Z.max_l by lia.
    - replace (max - idx) with (Z.of_nat (Z.to_nat (max - idx))) in Hfold by lia.
      pose proof (built_new_lockers _ _ _ _ _ _ _ _ _ _ Hb1 Hs1 Hfold) as Hb2.
      replace (idx + Z.of_nat (Z.to_nat (max - idx))) with (Z.max idx max) in Hb2 by lia.
      done. }
  destruct (Inventory.Sizes inv !! s) as [size_id|] eqn:Hs; cbn.
  - by apply Hloop.
  - case_decide; [done|]. cbn. apply Hloop.
    + by apply built_new_class.
    + cbn. apply lookup_insert_eq.
Qed.

Lemma built_fold uuid entries :
  ∀ b b', built b → fold_opt (add_size uuid) b entries = Some b' → built b'.
Proof.
  induction entries as [|e entries IH]; intros b b' Hb.
  - cbn. by intros [= <-].
  - rewrite fold_opt_cons.
    destruct (add_size uuid b e) as [b1|] eqn:H1; cbn; [|done].
    apply IH. by eapply built_add_size.
Qed.

Lemma built_init n :
  Z.of_nat n ≤ MAX_INT →
  built (mkBuilder (Inventory.mk (replicate n (Locker.mk "" 0 None)) ∅ ∅ ∅ ∅) [] 0 0%nat).
Proof.
  intros Hn. repeat split; cbn; try done.
  - constructor.
  - by intros ?%elem_of_nil.
  - rewrite lookup_empty. by intros [? ?].
  - unfold len. lia.
  - unfold len. by rewrite length_replicate.
Qed.

Lemma seed_inner (C : gmap LockerSize LockerControlSpec) ids v0 :
  Forall (λ id, is_Some (C !! id)) ids →
  fold_opt (λ vc other_id,
              other ← C !! other_id;
              Some (int_add vc (len (LockerControlSpec.Lockers other)))) v0 ids
  = Some (foldl (λ vc other_id, int_add vc (free C other_id)) v0 ids).
Proof.
  intros H. revert v0. induction H as [|id ids [c Hc] _ IH]; intros v0; [done|].
  rewrite fold_opt_cons. rewrite Hc. cbn. rewrite IH. unfold free. by rewrite Hc.
Qed.

Lemma seed_capacity_Some inv id c :
  Inventory.Control inv !! id = Some c →
  Forall (λ id, is_Some (Inventory.Control inv !! id)) (LockerControlSpec.SmallerThan c) →
  seed_capacity inv id
  = Some (Inventory.with_Control inv
            (<[id := LockerControlSpec.with_VirtualCapacity c
                       (seeded (Inventory.Control inv) c)]> (Inventory.Control inv))).
Proof.
  intros Hc Hall. unfold seed_capacity. rewrite Hc. cbn.
  by rewrite (seed_inner _ _ _ Hall).
Qed.

Lemma free_with_VC (C : gmap LockerSize LockerControlSpec) id c v k :
  C !! id = Some c →
  free (<[id := LockerControlSpec.with_VirtualCapacity c v]> C) k = free C k.
Proof.
  intros Hc. unfold free. rewrite lookup_insert. case_decide; [subst|done].
  by rewrite Hc.
Qed.

Lemma seeded_ext (C C' : gmap LockerSize LockerControlSpec) c :
  (∀ k, free C' k = free C k) → seeded C' c = seeded C c.
Proof.
  intros H. unfold seeded. f_equal.
  generalize (LockerControlSpec.VirtualCapacity c).
  induction (LockerControlSpec.SmallerThan c) as [|k ks IH]; intros v; [done|].
  cbn. by rewrite H, IH.
Qed.

Lemma seed_fold ks :
  ∀ inv,
    NoDup ks →
    (∀ k, k ∈ ks → ∃ c, Inventory.Control inv !! k = Some c
                   ∧ Forall (λ id, is_Some (Inventory.Control inv !! id))
                            (LockerControlSpec.SmallerThan c)) →
    fold_opt seed_capacity inv ks
    = Some (Inventory.with_Control inv (seed_all ks (Inventory.Control inv))).
Proof.
  induction ks as [|k ks IH]; intros inv Hnd Hall.
  - cbn. f_equal. unfold seed_all.
    assert (map_imap (λ (k : LockerSize) (c : LockerControlSpec),
                Some (if decide (k ∈ []) then
                        LockerControlSpec.with_VirtualCapacity c
                          (seeded (Inventory.Control inv) c) else c))
              (Inventory.Control inv) = Inventory.Control inv) as ->.
    { apply map_eq. intros i. rewrite map_lookup_imap.
      destruct (Inventory.Control inv !! i); [|done]. cbn.
      rewrite decide_False; [done|]. apply not_elem_of_nil. }
    by destruct inv.
  - rewrite fold_opt_cons. apply NoDup_cons in Hnd as [Hk Hnd].
    destruct (Hall k) as (c & Hc & Hclosed); [by left|].
    rewrite (seed_capacity_Some _ _ _ Hc Hclosed). cbn.
    set (C := Inventory.Control inv).
    set (C1 := <[k := LockerControlSpec.with_VirtualCapacity c (seeded C c)]> C).
    rewrite IH; [|done|].
    2:{ intros j Hj. destruct (Hall j) as (cj & Hcj & Hclj); [by right|].
        exists cj. cbn. unfold C1, C. split.
        - rewrite lookup_insert_ne; [done|]. intros ->. done.
        - eapply Forall_impl; [exact Hclj|]. intros i Hi. cbn in *.
          by rewrite (present_insert _ _ _ _ _ Hc). }
    f_equal. cbn. unfold Inventory.with_Control. cbn. f_equal.
    apply map_eq. intros j. unfold seed_all. rewrite !map_lookup_imap.
    fold C. fold C1.
    assert (Hfree : ∀ i, free C1 i = free C i).
    { intros i. by apply free_with_VC. }
    assert (HC1 : C1 !! j
                  = if decide (k = j)
                    then Some (LockerControlSpec.with_VirtualCapacity c (seeded C c))
                    else C !! j) by apply lookup_insert.
    rewrite HC1. clear HC1.
    destruct (decide (k = j)) as [<-|Hjk].
    + fold C in Hc. rewrite Hc. cbn.
      rewrite decide_False by done. rewrite decide_True by (by left). done.
    + destruct (C !! j) as [cj|] eqn:Hcj; [|done]. cbn.
      rewrite (seeded_ext C C1 cj Hfree).
      destruct (decide (j ∈ ks)) as [Hin|Hin].
      * rewrite decide_True by (by right). done.
      * rewrite decide_False; [done|]. intros [?|?]%elem_of_cons; done.
Qed.

Lemma sumZ_cons {A} (f : A → Z) x l : sumZ f (x :: l) = f x + sumZ f l.
Proof. reflexivity. Qed.

Lemma sumZ_nonneg {A} (f : A → Z) l : (∀ x, 0 ≤ f x) → 0 ≤ sumZ f l.
Proof.
  intros Hf. induction l as [|a l IH]; [done|].
  rewrite sumZ_cons. specialize (Hf a). lia.
Qed.

Lemma foldl_int_add_exact (f : LockerSize → Z) ids v0 :
  (∀ id, 0 ≤ f id) → 0 ≤ v0 → v0 + sumZ f ids ≤ MAX_INT →
  foldl (λ vc id, int_add vc (f id)) v0 ids = v0 + sumZ f ids.
Proof.
  intros Hf. revert v0. induction ids as [|id ids IH]; intros v0 H0 Hmax.
  - cbn. lia.
  - rewrite sumZ_cons in *. cbn [foldl].
    pose proof (sumZ_nonneg f ids Hf). pose proof (Hf id).
    assert (int_add v0 (f id) = v0 + f id) as ->.
    { unfold int_add. apply wrap_small. unfold int_ok, MIN_INT, MAX_INT in *. lia. }
    rewrite IH; lia.
Qed.

Lemma total_locker_count_ok entries : int_ok (total_locker_count entries).
Proof.
  unfold total_locker_count.
  assert (H : ∀ acc, int_ok acc →
            int_ok (foldl (λ total (entry : SizeSpec * Z), int_add total entry.2) acc entries)).
  { induction entries as [|e entries IH]; intros acc Hacc; [done|].
    cbn. apply IH. apply wrap_ok. }
  apply H. unfold int_ok, MIN_INT, MAX_INT. lia.
Qed.

Lemma built_classes_by_size b :
  built b → classes_by_size (size_id_of (b_inv b)) (b_inv b) (b_sizes b).
Proof.
  intros (Hnd & Hin & Hsz & Hcls & Hback & _). split.
  - intros s Hs. apply Hin in Hs as [id Hid].
    destruct (Hcls s id Hid) as (_ & c & Hc & Hsize & _).
    exists c. unfold size_id_of. rewrite Hid. by split.
  - intros id c Hc. pose proof (Hback id c Hc) as Hs.
    unfold size_id_of. rewrite Hs. split; [done|]. apply Hin. by eauto.
Qed.

Lemma NewInventory_finished uuid range_control entries inv :
  (∀ m, range_control m ≡ₚ (map_to_list m).*1) →
  NewInventory uuid range_control entries = Some inv →
  ∃ b, built b ∧ inv = finished range_control b.
Proof.
  intros Hrange. unfold NewInventory.
  pose proof (total_locker_count_ok entries) as Htot.
  set (total := total_locker_count entries) in *.
  case_decide as Hneg; [done|].
  set (inv0 := Inventory.mk _ _ _ _ _).
  destruct (fold_opt (add_size uuid) (mkBuilder inv0 [] 0 0%nat) entries) as [b|] eqn:Hb;
    [|done].
  cbn [mbind option_bind].
  assert (Hbuilt : built b).
  { eapply built_fold; [|exact Hb]. apply built_init.
    unfold int_ok, MAX_INT in *. lia. }
  pose proof (built_classes_by_size b Hbuilt) as Hcls.
  pose proof Hbuilt as (Hnd & Hin & Hsz & Hcl & Hback & _).
  rewrite (relate_all_spec (size_id_of (b_inv b)) (b_inv b) (b_sizes b) (b_sizes b));
    [|done..].
  cbn [mbind option_bind].
  set (idf := size_id_of (b_inv b)).
  assert (Hamend : amend (b_inv b)
            (λ c, if decide (LockerControlSpec.Size c ∈ b_sizes b)
                  then grow idf (b_sizes b) c else c)
          = amend (b_inv b) (grow idf (b_sizes b))).
  { apply amend_ext. intros id c Hc. rewrite decide_True; [done|].
    by apply (proj2 Hcls id c). }
  rewrite Hamend. clear Hamend.
  set (inv2 := amend (b_inv b) (grow idf (b_sizes b))).
  intros Hseed. exists b. split; [done|].
  rewrite seed_fold in Hseed.
  - injection Hseed as <-. reflexivity.
  - rewrite Hrange. apply NoDup_fst_map_to_list.
  - intros k Hk. rewrite Hrange in Hk.
    apply list_elem_of_fmap in Hk as ([k' c] & -> & Hkc). cbn.
    apply elem_of_map_to_list in Hkc. exists c. split; [done|].
    unfold inv2, amend in Hkc. cbn in Hkc. rewrite lookup_fmap in Hkc.
    destruct (Inventory.Control (b_inv b) !! k') as [c0|] eqn:Hc0; [|done].
    injection Hkc as <-.
    pose proof (Hback _ _ Hc0) as Hs0.
    destruct (Hcl _ _ Hs0) as (_ & c0' & Hc0' & _ & _ & Hsm & _).
    rewrite Hc0 in Hc0'. injection Hc0' as <-.
    cbn. rewrite Hsm. cbn. apply Forall_fmap, Forall_forall.
    intros t Ht. cbn. unfold smalls in Ht. apply list_elem_of_filter in Ht as [_ Ht].
    destruct (proj1 Hcls t Ht) as (ct & Hct & _).
    unfold inv2, amend. cbn. rewrite lookup_fmap. fold idf in Hct. rewrite Hct. by eauto.
Qed.

Section finished.
Variable range_control : gmap LockerSize LockerControlSpec → list LockerSize.
Hypothesis range_control_perm : ∀ m, range_control m ≡ₚ (map_to_list m).*1.
Variable b : builder.
Hypothesis Hbuilt : built b.

Let idf := size_id_of (b_inv b).
Let sizes := b_sizes b.
Let C1 := Inventory.Control (b_inv b).
Let C2 := grow idf sizes <$> C1.

Lemma finished_lookup id :
  Inventory.Control (finished range_control b) !! id
  = (λ c0, LockerControlSpec.with_VirtualCapacity (grow idf sizes c0)
             (seeded C2 (grow idf sizes c0))) <$> C1 !! id.
Proof.
  unfold finished. cbn. unfold seed_all. rewrite map_lookup_imap, lookup_fmap.
  fold idf sizes C1 C2.
  destruct (C1 !! id) as [c0|] eqn:Hc0; [|done]. cbn.
  rewrite decide_True; [done|].
  rewrite range_control_perm. apply list_elem_of_fmap.
  exists (id, grow idf sizes c0). split; [done|].
  apply elem_of_map_to_list. unfold C2. by rewrite lookup_fmap, Hc0.
Qed.

Lemma finished_block id c :
  Inventory.Control (finished range_control b) !! id = Some c →
  ∃ c0,
    C1 !! id = Some c0
    ∧ id = idf (LockerControlSpec.Size c0)
    ∧ LockerControlSpec.Size c0 ∈ sizes
    ∧ LockerControlSpec.Size c = LockerControlSpec.Size c0
    ∧ LockerControlSpec.Lockers c = LockerControlSpec.Lockers c0
    ∧ LockerControlSpec.BiggerThan c = idf <$> bigs sizes (LockerControlSpec.Size c0)
    ∧ LockerControlSpec.SmallerThan c = idf <$> smalls sizes (LockerControlSpec.Size c0)
    ∧ LockerControlSpec.VirtualCapacity c
      = int_add (foldl (λ vc other_id, int_add vc (free C2 other_id)) 0
                       (idf <$> smalls sizes (LockerControlSpec.Size c0)))
                (len (LockerControlSpec.Lockers c0)).
Proof.
  rewrite finished_lookup.
  destruct (C1 !! id) as [c0|] eqn:Hc0; [|done]. cbn. intros [= <-].
  pose proof Hbuilt as (_ & _ & _ & Hcl & Hback & _).
  pose proof (Hback _ _ Hc0) as Hs0.
  destruct (Hcl _ _ Hs0) as (_ & c0' & Hc0' & _ & Hbg & Hsm & Hvc).
  fold C1 in Hc0'. rewrite Hc0 in Hc0'. injection Hc0' as <-.
  destruct (built_classes_by_size b Hbuilt) as [_ H2].
  destruct (H2 _ _ Hc0) as [Hid Hin].
  exists c0. split; [done|]. split; [exact Hid|]. split; [exact Hin|].
  split; [done|]. split; [done|].
  cbn. rewrite Hbg, Hsm. cbn. split; [done|]. split; [done|].
  unfold seeded. cbn. by rewrite Hsm, Hvc.
Qed.

Lemma finished_present t :
  t ∈ sizes →
  ∃ c, Inventory.Control (finished range_control b) !! idf t = Some c
       ∧ LockerControlSpec.Size c = t.
Proof.
  intros Ht. destruct (built_classes_by_size b Hbuilt) as [H1 _].
  destruct (H1 t Ht) as (c0 & Hc0 & Hsz). fold idf C1 in Hc0.
  eexists. rewrite finished_lookup, Hc0. cbn. split; [done|]. exact Hsz.
Qed.

Lemma idf_inj s t : s ∈ sizes → t ∈ sizes → idf s = idf t → s = t.
Proof. apply (classes_by_size_inj idf (b_inv b) sizes), built_classes_by_size, Hbuilt. Qed.

Lemma NoDup_idf l : (∀ t, t ∈ l → t ∈ sizes) → NoDup l → NoDup (idf <$> l).
Proof.
  intros Hsub Hnd. apply NoDup_fmap_2_strong; [|done].
  intros s t Hs Ht. apply idf_inj; by apply Hsub.
Qed.

Lemma finished_graph_ok : graph_ok (finished range_control b).
Proof.
  pose proof Hbuilt as (Hnd & _).
  intros S cs Hcs. cbn.
  destruct (finished_block _ _ Hcs)
    as (c0 & Hc0 & HS & HinS & Hsize & _ & Hbig & Hsmall & _).
  rewrite Hbig, Hsmall.
  split; [|split; [|split; [|split]]].
  - apply NoDup_idf; [|by apply NoDup_filter].
    intros t Ht. unfold bigs in Ht. by apply list_elem_of_filter in Ht as [_ ?].
  - apply NoDup_idf; [|by apply NoDup_filter].
    intros t Ht. unfold smalls in Ht. by apply list_elem_of_filter in Ht as [_ ?].
  - apply Forall_fmap, Forall_forall. intros t Ht. cbn.
    unfold bigs in Ht. apply list_elem_of_filter in Ht as [_ Ht].
    destruct (finished_present t Ht) as (c & Hc & _). by eauto.
  - apply Forall_fmap, Forall_forall. intros t Ht. cbn.
    unfold smalls in Ht. apply list_elem_of_filter in Ht as [_ Ht].
    destruct (finished_present t Ht) as (c & Hc & _). by eauto.
  - intros T ct Hct. cbn.
    destruct (finished_block _ _ Hct) as (c0' & _ & HT & HinT & Hsize' & _).
    unfold strictly_smaller. rewrite Hsize, Hsize'. split.
    + rewrite list_elem_of_fmap. unfold bigs. split.
      * intros (t & Ht & [[Hc Hne] Hin]%list_elem_of_filter).
        assert (t = LockerControlSpec.Size c0') as ->.
        { apply idf_inj; [done..|]. by rewrite <- Ht, <- HT. }
        done.
      * intros [Hc Hne]. exists (LockerControlSpec.Size c0'). split; [done|].
        by apply list_elem_of_filter.
    + rewrite list_elem_of_fmap. unfold smalls. split.
      * intros (t & Ht & [[Hc Hne] Hin]%list_elem_of_filter).
        assert (t = LockerControlSpec.Size c0') as ->.
        { apply idf_inj; [done..|]. by rewrite <- Ht, <- HT. }
        split; [done|]. congruence.
      * intros [Hc Hne]. exists (LockerControlSpec.Size c0'). split; [done|].
        apply list_elem_of_filter. split; [|done]. split; [done|]. congruence.
Qed.

End finished.

Lemma free_nonneg C id : 0 ≤ free C id.
Proof. unfold free, len. destruct (C !! id); cbn; lia. Qed.

Lemma total_free_nonneg C : 0 ≤ total_free C.
Proof. apply sumZ_nonneg. intros [k c]. unfold free_of, len. cbn. lia. Qed.

Lemma total_free_delete (C : gmap LockerSize LockerControlSpec) id :
  total_free C = free C id + total_free (delete id C).
Proof.
  unfold free. destruct (C !! id) as [c|] eqn:Hc; cbn.
  - unfold total_free at 1.
    by rewrite <- (sumZ_perm _ _ _ (map_to_list_delete C id c Hc)).
  - by rewrite delete_id.
Qed.

Lemma sumZ_ext {A} (f g : A → Z) l : (∀ x, x ∈ l → f x = g x) → sumZ f l = sumZ g l.
Proof.
  induction l as [|a l IH]; intros H; [done|].
  rewrite !sumZ_cons. rewrite H by (by left). rewrite IH; [done|].
  intros x Hx. apply H. by right.
Qed.

Lemma sum_free_le L : ∀ C, NoDup L → sumZ (free C) L ≤ total_free C.
Proof.
  induction L as [|id L IH]; intros C Hnd.
  - cbn. apply total_free_nonneg.
  - apply NoDup_cons in Hnd as [Hid Hnd].
    rewrite sumZ_cons, (total_free_delete C id).
    rewrite (sumZ_ext (free C) (free (delete id C)) L).
    + specialize (IH (delete id C) Hnd). lia.
    + intros k Hk. unfold free. rewrite lookup_delete_ne; [done|]. intros ->. done.
Qed.

Lemma total_free_fmap (g : LockerControlSpec → LockerControlSpec) C :
  (∀ c, LockerControlSpec.Lockers (g c) = LockerControlSpec.Lockers c) →
  total_free (g <$> C) = total_free C.
Proof.
  intros Hg. unfold total_free.
  rewrite (map_to_list_fmap g C).
  induction (map_to_list C) as [|[k c] l IH]; [done|].
  rewrite fmap_cons, !sumZ_cons, IH. unfold free_of. cbn. by rewrite Hg.
Qed.

Lemma free_fmap (g : LockerControlSpec → LockerControlSpec) C id :
  (∀ c, LockerControlSpec.Lockers (g c) = LockerControlSpec.Lockers c) →
  free (g <$> C) id = free C id.
Proof.
  intros Hg. unfold free. rewrite lookup_fmap. destruct (C !! id); cbn; [|done].
  by rewrite Hg.
Qed.

Lemma sumZ_free_of_keys (C : gmap LockerSize LockerControlSpec) l :
  (∀ kc, kc ∈ l → C !! kc.1 = Some kc.2) → sumZ free_of l = sumZ (free C) l.*1.
Proof.
  induction l as [|[k c] l IH]; intros H; [done|].
  cbn [fmap list_fmap]. rewrite !sumZ_cons, IH.
  - f_equal. unfold free, free_of. cbn.
    pose proof (H (k, c) (ltac:(by left))) as Hk. cbn in Hk. by rewrite Hk.
  - intros kc Hkc. apply H. by right.
Qed.

Lemma free_among_list (P : LockerControlSpec → Prop) `{∀ c, Decision (P c)} inv L :
  NoDup L →
  (∀ id, id ∈ L ↔ ∃ c, Inventory.Control inv !! id = Some c ∧ P c) →
  free_among P inv = sumZ (free (Inventory.Control inv)) L.
Proof.
  intros Hnd Hmem. unfold free_among.
  set (l := filter (λ kc, P kc.2) (map_to_list (Inventory.Control inv))).
  rewrite (sumZ_free_of_keys (Inventory.Control inv)).
  2:{ intros [k c] [_ Hkc]%list_elem_of_filter. by apply elem_of_map_to_list. }
  apply sumZ_perm. apply NoDup_Permutation; [|done|].
  - eapply sublist_NoDup; [apply (NoDup_fst_map_to_list (Inventory.Control inv))|].
    apply fmap_sublist. apply sublist_filter.
  - intros id. rewrite Hmem. rewrite list_elem_of_fmap. split.
    + intros ([k c] & -> & [Hp Hkc]%list_elem_of_filter).
      exists c. split; [|done]. by apply elem_of_map_to_list.
    + intros (c & Hc & Hp). exists (id, c). split; [done|].
      apply list_elem_of_filter. split; [done|]. by apply elem_of_map_to_list.
Qed.

Section capacity.
Variable range_control : gmap LockerSize LockerControlSpec → list LockerSize.
Hypothesis range_control_perm : ∀ m, range_control m ≡ₚ (map_to_list m).*1.
Variable b : builder.
Hypothesis Hbuilt : built b.

Lemma finished_free k :
  free (Inventory.Control (finished range_control b)) k
  = free (Inventory.Control (b_inv b)) k.
Proof.
  unfold free. rewrite (finished_lookup range_control range_control_perm b).
  by destruct (Inventory.Control (b_inv b) !! k).
Qed.

Lemma finished_capacity id c :
  Inventory.Control (finished range_control b) !! id = Some c →
  LockerControlSpec.VirtualCapacity c
  = len (LockerControlSpec.Lockers c)
    + sumZ (free (Inventory.Control (finished range_control b)))
           (LockerControlSpec.SmallerThan c)
  ∧ int_ok (LockerControlSpec.VirtualCapacity c).
Proof.
  intros Hc.
  pose proof (finished_graph_ok range_control range_control_perm b Hbuilt id c Hc)
    as (_ & Hnd & _ & _ & Hrel).
  destruct (finished_block range_control range_control_perm b Hbuilt _ _ Hc)
    as (c0 & Hc0 & _ & _ & _ & Hlk & _ & Hsmall & Hvc).
  set (C1 := Inventory.Control (b_inv b)) in *.
  set (idf := size_id_of (b_inv b)) in *.
  set (C2 := grow idf (b_sizes b) <$> C1) in *.
  rewrite <- Hsmall in Hvc. rewrite <- Hlk in Hvc.
  assert (Hfree2 : ∀ k, free C2 k = free C1 k).
  { intros k. by apply free_fmap. }
  assert (Hself : id ∉ LockerControlSpec.SmallerThan c).
  { intros Hin. apply (Hrel id c Hc) in Hin as [_ Hne]. done. }
  assert (Hbound : sumZ (free C1) (id :: LockerControlSpec.SmallerThan c) ≤ MAX_INT).
  { pose proof Hbuilt as (_ & _ & _ & _ & _ & Hidx & Htot & _ & Hmax).
    pose proof (sum_free_le (id :: LockerControlSpec.SmallerThan c) C1
                  (proj2 (NoDup_cons _ _) (conj Hself Hnd))).
    fold C1 in Htot. lia. }
  rewrite sumZ_cons in Hbound.
  assert (Hid : free C1 id = len (LockerControlSpec.Lockers c)).
  { unfold free. by rewrite Hc0, Hlk. }
  rewrite Hid in Hbound.
  rewrite (sumZ_ext _ (free C1)) by (intros; apply finished_free).
  pose proof (sumZ_nonneg (free C1) (LockerControlSpec.SmallerThan c) (free_nonneg C1)).
  assert (0 ≤ len (LockerControlSpec.Lockers c)) by (unfold len; lia).
  rewrite Hvc.
  rewrite (foldl_int_add_exact (free C2)).
  - rewrite (sumZ_ext (free C2) (free C1)) by (intros; apply Hfree2).
    unfold int_add. rewrite wrap_small by (unfold int_ok, MIN_INT, MAX_INT in *; lia).
    split; [lia|]. unfold int_ok, MIN_INT, MAX_INT in *. lia.
  - apply free_nonneg.
  - lia.
  - rewrite (sumZ_ext (free C2) (free C1)) by (intros; apply Hfree2). lia.
Qed.

End capacity.

Lemma finished_well_formed range_control b :
  (∀ m, range_control m ≡ₚ (map_to_list m).*1) →
  built b →
  graph_ok (finished range_control b)
  ∧ sizes_controlled (finished range_control b)
  ∧ free_typed (finished range_control b)
  ∧ vc_ok (finished range_control b).
Proof.
  intros Hrange Hbuilt.
  split; [by apply finished_graph_ok|].
  pose proof Hbuilt as (_ & _ & _ & Hcl & _ & _ & _ & Hfree & _).
  split; [|split].
  - intros s id Hs. cbn in Hs. cbn.
    destruct (Hcl s id Hs) as (_ & c & Hc & _).
    rewrite (finished_lookup range_control Hrange b), Hc. by eauto.
  - intros id c Hc. cbn.
    destruct (finished_block range_control Hrange b Hbuilt _ _ Hc)
      as (c0 & Hc0 & _ & _ & _ & Hlk & _).
    rewrite Hlk. eapply Forall_impl; [by apply (Hfree id c0)|].
    intros i [_ Hi]. exact Hi.
  - intros id c Hc. cbn.
    by destruct (finished_capacity range_control Hrange b Hbuilt id c Hc).
Qed.

(** The inventories that [NewInventory] returns satisfy the invariants
    that the theorems on the operations assume. *)
Lemma NewInventory_well_formed uuid range_control counts inv :
  (∀ m, range_control m ≡ₚ (map_to_list m).*1) →
  NewInventory uuid range_control counts = Some inv →
  graph_ok inv ∧ bigger_closed inv ∧ sizes_controlled inv ∧ free_typed inv ∧ vc_ok inv.
Proof.
  intros Hrange Hnew.
  destruct (NewInventory_finished _ _ _ _ Hrange Hnew) as (b & Hb & ->).
  destruct (finished_well_formed range_control b Hrange Hb) as (Hg & Hs & Hf & Hv).
  split; [done|]. split; [by apply graph_ok_bigger_closed|done].
Qed.

(** C1 (as amended).  After [NewInventory] returns, for every size class X,
    VirtualCapacity(X) equals the length of X's free list plus the sum, over
    every class Y that is strictly bigger than X (whose size strictly
    contains the size of X: the classes of X's [SmallerThan] list), of the
    length of Y's free list. *)
Theorem NewInventory_virtual_capacity uuid range_control counts inv :
  (∀ m, range_control m ≡ₚ (map_to_list m).*1) →
  NewInventory uuid range_control counts = Some inv →
  ∀ X cx,
    Inventory.Control inv !! X = Some cx →
    LockerControlSpec.VirtualCapacity cx
    = len (LockerControlSpec.Lockers cx) + free_among (λ cy, strictly_smaller cx cy) inv.
Proof.
  intros Hrange Hnew X cx Hcx.
  destruct (NewInventory_finished _ _ _ _ Hrange Hnew) as (b & Hb & ->).
  destruct (finished_capacity range_control Hrange b Hb X cx Hcx) as [-> _].
  f_equal. symmetry.
  pose proof (finished_graph_ok range_control Hrange b Hb X cx Hcx)
    as (_ & Hnd & _ & Hclosed & Hrel).
  apply free_among_list; [done|].
  intros id. split.
  - intros Hin. rewrite Forall_forall in Hclosed.
    destruct (Hclosed id Hin) as [cy Hcy]. exists cy. split; [done|].
    by apply (Hrel id cy Hcy).
  - intros (cy & Hcy & Hlt). by apply (Hrel id cy Hcy).
Qed.

Lemma NewInventory_virtual_capacity_witness :
  NewInventory example_uuid example_range example_counts = Some example_inventory
  ∧ ∃ cx, Inventory.Control example_inventory !! 1 = Some cx
          ∧ LockerControlSpec.Lockers cx = [0; 1]
          ∧ LockerControlSpec.VirtualCapacity cx
            = 2 + free_among (λ cy, strictly_smaller cx cy) example_inventory.
Proof.
  assert (Hrange : ∀ m, example_range m ≡ₚ (map_to_list m).*1) by (intros m; reflexivity).
  assert (Hnew : NewInventory example_uuid example_range example_counts
                 = Some example_inventory) by (vm_compute; reflexivity).
  split; [exact Hnew|].
  exists (LockerControlSpec.mk 1 (mkSizeSpec 1 1 1) [] [2; 3; 4] [0; 1] 8).
  assert (Hcx : Inventory.Control example_inventory !! 1
                = Some (LockerControlSpec.mk 1 (mkSizeSpec 1 1 1) [] [2; 3; 4] [0; 1] 8))
    by (vm_compute; reflexivity).
  split; [exact Hcx|]. split; [reflexivity|].
  exact (NewInventory_virtual_capacity _ _ _ _ Hrange Hnew 1 _ Hcx).
Defined.

(** C1, as stated, fails: in the example inventory the class 5x5x5 has one
    free locker and strictly contains the three other classes, which have
    seven free lockers together; its virtual capacity is 1, not 8. *)
Lemma NewInventory_does_not_sum_smaller_classes :
  ∃ inv cx,
    NewInventory example_uuid example_range example_counts = Some inv
    ∧ Inventory.Control inv !! 4 = Some cx
    ∧ LockerControlSpec.VirtualCapacity cx = 1
    ∧ len (LockerControlSpec.Lockers cx) + free_among (λ cy, strictly_smaller cy cx) inv = 8
    ∧ LockerControlSpec.VirtualCapacity cx
      ≠ len (LockerControlSpec.Lockers cx) + free_among (λ cy, strictly_smaller cy cx) inv.
Proof.
  eexists _, _.
  split; [vm_compute; reflexivity|].
  split; [vm_compute; reflexivity|].
  split; [reflexivity|].
  split; [vm_compute; reflexivity|]. vm_compute. discriminate.
Qed.

(** * Further properties of the code *)

#[local] Arguments sumZ : simpl never.

(** ** Sizes *)

Lemma make_positive_negate x : int_ok x → make_positive (int_sub 0 x) = make_positive x.
Proof.
  intros Hx. unfold make_positive, int_sub.
  destruct (decide (x = MIN_INT)) as [->|Hne]; [reflexivity|].
  assert (Hw : wrap (0 - x) = - x).
  { apply wrap_small. unfold int_ok, MIN_INT, MAX_INT in *. lia. }
  rewrite Hw. repeat case_decide; try lia.
  rewrite wrap_small; [lia|]. unfold int_ok, MIN_INT, MAX_INT in *. lia.
Qed.

Lemma Normalize_swap_LW l w h :
  Normalize (mkSizeSpec w l h) = Normalize (mkSizeSpec l w h).
Proof.
  unfold Normalize; cbn.
  generalize (make_positive l) (make_positive w) (make_positive h). intros a b c.
  repeat (case_decide; cbn in * ); f_equal; lia.
Qed.

Lemma Normalize_swap_WH l w h :
  Normalize (mkSizeSpec l h w) = Normalize (mkSizeSpec l w h).
Proof.
  unfold Normalize; cbn.
  generalize (make_positive l) (make_positive w) (make_positive h). intros a b c.
  repeat (case_decide; cbn in * ); f_equal; lia.
Qed.

(** X1.  [Normalize] does not depend on the orientation in which a size is
    given: the six permutations of the three dimensions have the same
    normal form, and so has the size with a dimension negated. *)
Theorem Normalize_orientation (s t : SizeSpec) :
  t ∈ orientations s →
  Normalize t = Normalize s
  ∧ (SizeSpec_ok s →
     Normalize (mkSizeSpec (int_sub 0 (Length t)) (Width t) (Height t)) = Normalize s
     ∧ Normalize (mkSizeSpec (Length t) (int_sub 0 (Width t)) (Height t)) = Normalize s
     ∧ Normalize (mkSizeSpec (Length t) (Width t) (int_sub 0 (Height t))) = Normalize s).
Proof.
  destruct s as [l w h]. unfold orientations; cbn.
  intros Hin.
  assert (Hperm : Normalize t = Normalize (mkSizeSpec l w h)).
  { repeat (apply elem_of_cons in Hin as [->|Hin]); [..|by apply elem_of_nil in Hin].
    - reflexivity.
    - apply Normalize_swap_WH.
    - apply Normalize_swap_LW.
    - by rewrite Normalize_swap_WH, Normalize_swap_LW.
    - by rewrite Normalize_swap_LW, Normalize_swap_WH.
    - by rewrite Normalize_swap_LW, Normalize_swap_WH, Normalize_swap_LW. }
  split; [exact Hperm|].
  intros (Hl & Hw & Hh). cbn in Hl, Hw, Hh.
  assert (Ht : int_ok (Length t) ∧ int_ok (Width t) ∧ int_ok (Height t)).
  { repeat (apply elem_of_cons in Hin as [->|Hin]); [..|by apply elem_of_nil in Hin];
      cbn; tauto. }
  destruct Ht as (Htl & Htw & Hth).
  rewrite <- Hperm. destruct t as [tl tw th]; cbn in *.
  unfold Normalize; cbn.
  by rewrite !make_positive_negate.
Qed.

Lemma Normalize_orientation_witness :
  Normalize (mkSizeSpec 1 2 3) = Normalize (mkSizeSpec 3 2 1)
  ∧ Normalize (mkSizeSpec (-1) 2 3) = Normalize (mkSizeSpec 3 2 1).
Proof.
  assert (Hin : mkSizeSpec 1 2 3 ∈ orientations (mkSizeSpec 3 2 1)).
  { unfold orientations; cbn. do 5 apply list_elem_of_further. apply list_elem_of_here. }
  destruct (Normalize_orientation (mkSizeSpec 3 2 1) (mkSizeSpec 1 2 3) Hin) as [H1 H2].
  split; [exact H1|].
  apply H2. unfold SizeSpec_ok, int_ok, MIN_INT, MAX_INT; cbn. lia.
Defined.

Lemma make_positive_nonneg_id x : 0 ≤ x → make_positive x = x.
Proof. intros H. unfold make_positive. case_decide; lia. Qed.

Lemma Contains_true s t :
  Contains s t = true ↔
  Length s >= Length t ∧ Width s >= Width t ∧ Height s >= Height t.
Proof.
  unfold Contains. rewrite !andb_true_iff, !bool_decide_eq_true. tauto.
Qed.

(** X2.  On sizes whose dimensions are not negative, [Contains] applied to
    the normal forms decides whether the second box fits into the first in
    one of its six orientations. *)
Theorem Contains_Normalize_fits (a b : SizeSpec) :
  0 ≤ Length a → 0 ≤ Width a → 0 ≤ Height a →
  0 ≤ Length b → 0 ≤ Width b → 0 ≤ Height b →
  Contains (Normalize a) (Normalize b) = true
  ↔ ∃ b', b' ∈ orientations b ∧ Contains a b' = true.
Proof.
  destruct a as [al aw ah], b as [bl bw bh]; cbn.
  intros Hal Haw Hah Hbl Hbw Hbh.
  unfold Normalize; cbn. rewrite !make_positive_nonneg_id by assumption.
  split.
  - intros H.
    assert (Hor : ∀ P : SizeSpec → Prop,
              (P (mkSizeSpec bl bw bh) ∨ P (mkSizeSpec bl bh bw) ∨ P (mkSizeSpec bw bl bh)
               ∨ P (mkSizeSpec bw bh bl) ∨ P (mkSizeSpec bh bl bw) ∨ P (mkSizeSpec bh bw bl)) →
              ∃ b', b' ∈ orientations (mkSizeSpec bl bw bh) ∧ P b').
    { intros P HP. unfold orientations; cbn.
      destruct HP as [HP|[HP|[HP|[HP|[HP|HP]]]]]; eexists; (split; [|exact HP]);
        set_solver. }
    apply Hor. rewrite !Contains_true; cbn.
    apply Contains_true in H. revert H.
    repeat (case_decide; cbn in * ); lia.
  - intros (b' & Hin & Hc). unfold orientations in Hin; cbn in Hin.
    apply Contains_true in Hc. apply Contains_true.
    repeat (apply elem_of_cons in Hin as [->|Hin]); [..|by apply elem_of_nil in Hin];
      cbn in *; repeat (case_decide; cbn in * ); lia.
Qed.

Lemma Contains_Normalize_fits_witness :
  Contains (Normalize (mkSizeSpec 1 5 1)) (Normalize (mkSizeSpec 1 1 4)) = true
  ↔ ∃ b', b' ∈ orientations (mkSizeSpec 1 1 4) ∧ Contains (mkSizeSpec 1 5 1) b' = true.
Proof.
  apply (Contains_Normalize_fits (mkSizeSpec 1 5 1) (mkSizeSpec 1 1 4)); cbn; lia.
Defined.

Lemma wrap_mul_l a b : wrap (wrap a * b) = wrap (a * b).
Proof.
  unfold wrap. f_equal.
  pose proof (Z.div_mod (a + 2 ^ 63) (2 ^ 64) ltac:(lia)) as Hdm.
  set (q := (a + 2 ^ 63) / 2 ^ 64) in *.
  set (r := (a + 2 ^ 63) mod 2 ^ 64) in *.
  replace ((r - 2 ^ 63) * b + 2 ^ 63) with (a * b + 2 ^ 63 + (- q * b) * 2 ^ 64) by lia.
  apply Z_mod_plus_full.
Qed.

Lemma make_positive_abs x : int_ok x → x ≠ MIN_INT → make_positive x = Z.abs x.
Proof.
  intros Hx Hne. unfold make_positive, int_sub. case_decide; [|lia].
  rewrite wrap_small; unfold int_ok, MIN_INT, MAX_INT in *; lia.
Qed.

Lemma Volume_eq s : Volume s = wrap (Length s * Width s * Height s).
Proof. unfold Volume, int64_mul. apply wrap_mul_l. Qed.

(** X3.  The volume of a normal form is the wrapped product of the
    magnitudes of the three dimensions, whatever their signs and their
    order (no dimension being the minimal int): [Volume] after [Normalize]
    does not depend on the orientation. *)
Theorem Volume_Normalize (s : SizeSpec) :
  SizeSpec_ok s →
  Length s ≠ MIN_INT → Width s ≠ MIN_INT → Height s ≠ MIN_INT →
  Volume (Normalize s) = wrap (Z.abs (Length s * Width s * Height s))
  ∧ ∀ t, t ∈ orientations s → Volume (Normalize t) = Volume (Normalize s).
Proof.
  intros (Hl & Hw & Hh) Nl Nw Nh. split.
  - rewrite Volume_eq. f_equal. rewrite !Z.abs_mul.
    unfold Normalize; cbn.
    rewrite !make_positive_abs by assumption.
    repeat (case_decide; cbn in * ); lia.
  - intros t Ht. f_equal.
    destruct s as [l w h]. unfold orientations in Ht; cbn in Ht.
    repeat (apply elem_of_cons in Ht as [->|Ht]); [..|by apply elem_of_nil in Ht].
    + reflexivity.
    + apply Normalize_swap_WH.
    + apply Normalize_swap_LW.
    + by rewrite Normalize_swap_WH, Normalize_swap_LW.
    + by rewrite Normalize_swap_LW, Normalize_swap_WH.
    + by rewrite Normalize_swap_LW, Normalize_swap_WH, Normalize_swap_LW.
Qed.

Lemma Volume_Normalize_witness :
  Volume (Normalize (mkSizeSpec (-5) 5 2)) = 50.
Proof.
  refine (proj1 (Volume_Normalize (mkSizeSpec (-5) 5 2) _ _ _ _)).
  - unfold SizeSpec_ok, int_ok, MIN_INT, MAX_INT; cbn. lia.
  - cbn. unfold MIN_INT. lia.
  - cbn. unfold MIN_INT. lia.
  - cbn. unfold MIN_INT. lia.
Defined.

(** ** The order of the selection *)

Lemma Before_None a b (inv : Inventory) :
  Before a b inv = None
  ↔ Inventory.Control inv !! a = None ∨ Inventory.Control inv !! b = None.
Proof.
  destruct (Inventory.Control inv !! a) as [ca|] eqn:Ha.
  - destruct (Inventory.Control inv !! b) as [cb|] eqn:Hb.
    + rewrite (Before_Some _ _ _ _ _ Ha Hb). split; [done|]. by intros [?|?].
    + split; [by right|]. intros _.
      unfold Before, ControlSpec, Inventory_ControlSpec. by rewrite Ha, Hb.
  - split; [by left|]. intros _.
    unfold Before, ControlSpec, Inventory_ControlSpec. by rewrite Ha.
Qed.

Lemma Before_true a b (inv : Inventory) :
  Before a b inv = Some true
  ↔ ∃ ca cb, Inventory.Control inv !! a = Some ca ∧ Inventory.Control inv !! b = Some cb
             ∧ sorts_before ca cb.
Proof.
  split.
  - intros (ca & cb & Ha & Hb & Hr)%Before_is_Some. exists ca, cb.
    split; [done|]. split; [done|]. symmetry in Hr. by apply bool_decide_eq_true_1 in Hr.
  - intros (ca & cb & Ha & Hb & Hlt). rewrite (Before_Some _ _ _ _ _ Ha Hb).
    f_equal. by apply bool_decide_eq_true_2.
Qed.

Lemma Before_false a b (inv : Inventory) :
  Before a b inv = Some false
  ↔ ∃ ca cb, Inventory.Control inv !! a = Some ca ∧ Inventory.Control inv !! b = Some cb
             ∧ ¬ sorts_before ca cb.
Proof.
  split.
  - intros (ca & cb & Ha & Hb & Hr)%Before_is_Some. exists ca, cb.
    split; [done|]. split; [done|]. symmetry in Hr. by apply bool_decide_eq_false_1 in Hr.
  - intros (ca & cb & Ha & Hb & Hlt). rewrite (Before_Some _ _ _ _ _ Ha Hb).
    f_equal. by apply bool_decide_eq_false_2.
Qed.

(** X4.  [Before] panics exactly when one of the two classes has no control
    block (a nil pointer is dereferenced); on the classes of an inventory
    it is a strict weak order: no class sorts before itself, two classes
    never sort before each other, and both [Before] and its negation are
    transitive, which is what the scan of [GetMostSuitableLockerSize]
    relies on to keep a class that no candidate sorts before. *)
Theorem Before_strict_weak_order (inv : Inventory) (a b c : LockerSize) :
  (Before a b inv = None
   ↔ Inventory.Control inv !! a = None ∨ Inventory.Control inv !! b = None)
  ∧ Before a a inv ≠ Some true
  ∧ (Before a b inv = Some true → Before b a inv = Some false)
  ∧ (Before a b inv = Some true → Before b c inv = Some true → Before a c inv = Some true)
  ∧ (Before a b inv = Some false → Before b c inv = Some false →
     Before a c inv = Some false).
Proof.
  split; [apply Before_None|]. split; [|split; [|split]].
  - intros (ca & ca' & Ha & Ha' & Hlt)%Before_true.
    rewrite Ha in Ha'. injection Ha' as <-. unfold sorts_before in Hlt. lia.
  - intros (ca & cb & Ha & Hb & Hlt)%Before_true. apply Before_false.
    exists cb, ca. split; [done|]. split; [done|]. by apply sorts_before_asym.
  - intros (ca & cb & Ha & Hb & Hab)%Before_true (cb' & cc & Hb' & Hc & Hbc)%Before_true.
    rewrite Hb in Hb'. injection Hb' as <-. apply Before_true.
    exists ca, cc. split; [done|]. split; [done|]. unfold sorts_before in *. lia.
  - intros (ca & cb & Ha & Hb & Hab)%Before_false (cb' & cc & Hb' & Hc & Hbc)%Before_false.
    rewrite Hb in Hb'. injection Hb' as <-. apply Before_false.
    exists ca, cc. split; [done|]. split; [done|]. by eapply sorts_before_negtrans.
Qed.

(** ** Put and Fetch compose *)

Lemma Forall_imap_index {A} (P : Z → A → Prop) (L : list A) :
  Forall (λ il : nat * A, P (Z.of_nat il.1) il.2) (imap pair L)
  ↔ ∀ i l, index L i = Some l → P i l.
Proof.
  rewrite Forall_forall. split.
  - intros H i l [Hi Hl]%index_Some.
    specialize (H (Z.to_nat i, l)). cbn in H.
    replace (Z.of_nat (Z.to_nat i)) with i in H by lia.
    apply H. apply elem_of_lookup_imap. by exists (Z.to_nat i), l.
  - intros H [n l] (n' & l' & [= -> ->] & Hl)%elem_of_lookup_imap. cbn.
    apply H. apply index_Some. split; [lia|]. by rewrite Nat2Z.id.
Qed.

Lemma linked_index w :
  linked w ↔ ∀ i l, index (Inventory.Lockers (inventory w)) i = Some l → points_back w i l.
Proof. apply (Forall_imap_index (points_back w)). Qed.

Lemma set_locker_id i lv w :
  index (Inventory.Lockers (inventory w)) i = Some lv → set_locker i lv w = w.
Proof.
  intros [_ Hl]%index_Some. unfold set_locker.
  rewrite list_insert_id by done. by destruct w as [[] ?].
Qed.

Lemma set_pkg_id p pv w : packages w !! p = Some pv → set_pkg p pv w = w.
Proof. intros Hp. unfold set_pkg. rewrite insert_id by done. by destruct w. Qed.

Lemma set_locker_twice i a b w : set_locker i a (set_locker i b w) = set_locker i a w.
Proof.
  unfold set_locker. cbn. unfold Inventory.with_Lockers. cbn.
  by rewrite list_insert_insert_eq.
Qed.

Lemma set_pkg_twice p a b w : set_pkg p a (set_pkg p b w) = set_pkg p a w.
Proof. unfold set_pkg. cbn. by rewrite insert_insert_eq. Qed.

Lemma set_pkg_set_locker p v i l w :
  set_pkg p v (set_locker i l w) = set_locker i l (set_pkg p v w).
Proof. reflexivity. Qed.

Lemma set_locker_index i l w lv :
  index (Inventory.Lockers (inventory w)) i = Some lv →
  index (Inventory.Lockers (inventory (set_locker i l w))) i = Some l.
Proof. intros H. unfold set_locker. cbn. by eapply index_insert_eq. Qed.

Lemma set_locker_index_ne i j l w :
  i ≠ j → 0 ≤ i →
  index (Inventory.Lockers (inventory (set_locker i l w))) j
  = index (Inventory.Lockers (inventory w)) j.
Proof. intros Hne Hi. unfold set_locker. cbn. by apply index_insert_ne. Qed.

Lemma Locker_with_Contents_id lv : Locker.with_Contents lv (Locker.Contents lv) = lv.
Proof. by destruct lv. Qed.

Lemma Package_with_StoredIn_id pv : Package.with_StoredIn pv (Package.StoredIn pv) = pv.
Proof. by destruct pv. Qed.

(** X5.  [Fetch] undoes [Put]: after a successful [Put] of a package into a
    locker, [Fetch] on that locker returns the same package and restores
    the state that preceded the [Put]. *)
Theorem Put_Fetch_round_trip l pkg (w w' : World) :
  Put l pkg w = Some (None, w') →
  Fetch l w' = Some (Ok pkg, w).
Proof.
  intros (lv & Hlv & H)%Put_spec.
  destruct (Locker.Contents lv) eqn:Hcont; [by destruct H|].
  destruct H as (pv & Hp & H).
  destruct (Package.StoredIn pv) eqn:Hst; [by destruct H|].
  destruct H as [_ ->].
  apply Fetch_spec. exists (Locker.with_Contents lv (Some pkg)). split.
  { by apply (set_locker_index _ _ _ lv). }
  cbn. exists (Package.with_StoredIn pv (Some (PoolLocker l))). split.
  { unfold set_pkg. cbn. apply lookup_insert_eq. }
  split; [done|].
  rewrite <- (set_pkg_set_locker pkg), set_pkg_twice, set_locker_twice.
  change (Locker.with_Contents (Locker.with_Contents lv (Some pkg)) None)
    with (Locker.with_Contents lv None).
  change (Package.with_StoredIn (Package.with_StoredIn pv (Some (PoolLocker l))) None)
    with (Package.with_StoredIn pv None).
  rewrite <- Hcont, Locker_with_Contents_id.
  rewrite <- Hst, Package_with_StoredIn_id.
  rewrite set_pkg_set_locker, set_locker_id; [by rewrite set_pkg_id|done].
Qed.

Lemma Put_Fetch_round_trip_witness :
  ∃ w', Put 3 1%positive example_world = Some (None, w')
        ∧ Fetch 3 w' = Some (Ok 1%positive, example_world).
Proof.
  destruct (Put 3 1%positive example_world) as [[[e|] w']|] eqn:H;
    [vm_compute in H; discriminate| |vm_compute in H; discriminate].
  exists w'. split; [reflexivity|].
  exact (Put_Fetch_round_trip 3 1%positive example_world w' H).
Defined.

(** X6.  [Put] undoes [Fetch]: in a state in which every stored package
    points back to the locker that holds it, putting the fetched package
    back into the locker succeeds and restores the state that preceded the
    [Fetch]. *)
Theorem Fetch_Put_round_trip l p (w w' : World) :
  linked w →
  Fetch l w = Some (Ok p, w') →
  Put l p w' = Some (None, w).
Proof.
  intros Hlinked (lv & Hlv & H)%Fetch_spec.
  pose proof (proj1 (linked_index w) Hlinked l lv Hlv) as Hback.
  unfold points_back in Hback.
  destruct (Locker.Contents lv) as [p'|] eqn:Hcont; [|by destruct H].
  destruct H as (pv & Hp & [= <-] & ->).
  rewrite Hp in Hback. cbn in Hback. injection Hback as Hst.
  apply Put_spec. exists (Locker.with_Contents lv None). split.
  { by apply (set_locker_index _ _ _ lv). }
  cbn. exists (Package.with_StoredIn pv None). split.
  { unfold set_pkg. cbn. apply lookup_insert_eq. }
  cbn. split; [done|].
  rewrite <- (set_pkg_set_locker p), set_pkg_twice, set_locker_twice.
  change (Locker.with_Contents (Locker.with_Contents lv None) (Some p))
    with (Locker.with_Contents lv (Some p)).
  change (Package.with_StoredIn (Package.with_StoredIn pv None) (Some (PoolLocker l)))
    with (Package.with_StoredIn pv (Some (PoolLocker l))).
  rewrite <- Hcont, Locker_with_Contents_id.
  rewrite <- Hst, Package_with_StoredIn_id.
  rewrite set_pkg_set_locker, set_locker_id; [by rewrite set_pkg_id|done].
Qed.

Lemma Fetch_Put_round_trip_witness :
  ∃ w', Fetch 7 example_deposited = Some (Ok 1%positive, w')
        ∧ Put 7 1%positive w' = Some (None, example_deposited).
Proof.
  assert (Hl : linked example_deposited)
    by (refine (bool_decide_unpack _ _); vm_compute; exact I).
  destruct (Fetch 7 example_deposited) as [[[p|e] w']|] eqn:H;
    [|vm_compute in H; discriminate..].
  assert (Hp : p = 1%positive) by (vm_compute in H; congruence).
  subst p. exists w'. split; [reflexivity|].
  exact (Fetch_Put_round_trip 7 1%positive example_deposited w' Hl H).
Defined.

Lemma linked_Put l pkg w r w' : linked w → Put l pkg w = Some (r, w') → linked w'.
Proof.
  intros Hlinked (lv & Hlv & H)%Put_spec.
  destruct (Locker.Contents lv) eqn:Hcont; [by destruct H as [_ ->]|].
  destruct H as (pv & Hp & H).
  destruct (Package.StoredIn pv) eqn:Hst; [by destruct H as [_ ->]|].
  destruct H as [_ ->].
  pose proof (proj1 (index_Some _ _ _) Hlv) as [Hl0 _].
  apply linked_index. intros i li Hi.
  rewrite set_pkg_set_locker in Hi.
  destruct (decide (l = i)) as [<-|Hne].
  - rewrite (set_locker_index _ _ _ lv) in Hi by done. injection Hi as <-.
    unfold points_back. cbn. unfold set_pkg. cbn. by rewrite lookup_insert_eq.
  - rewrite set_locker_index_ne in Hi by done.
    pose proof (proj1 (linked_index w) Hlinked i li Hi) as Hback.
    unfold points_back in *. destruct (Locker.Contents li) as [q|]; [|done].
    unfold set_pkg. cbn. destruct (decide (pkg = q)) as [<-|Hq].
    + rewrite Hp in Hback. cbn in Hback. congruence.
    + by rewrite lookup_insert_ne.
Qed.

Lemma linked_Fetch l w r w' : linked w → Fetch l w = Some (r, w') → linked w'.
Proof.
  intros Hlinked (lv & Hlv & H)%Fetch_spec.
  pose proof (proj1 (linked_index w) Hlinked l lv Hlv) as Hbl.
  unfold points_back in Hbl.
  destruct (Locker.Contents lv) as [p|] eqn:Hcont; [|by destruct H as [_ ->]].
  destruct H as (pv & Hp & _ & ->).
  pose proof (proj1 (index_Some _ _ _) Hlv) as [Hl0 _].
  apply linked_index. intros i li Hi.
  rewrite set_pkg_set_locker in Hi.
  destruct (decide (l = i)) as [<-|Hne].
  - rewrite (set_locker_index _ _ _ lv) in Hi by done. by injection Hi as <-.
  - rewrite set_locker_index_ne in Hi by done.
    pose proof (proj1 (linked_index w) Hlinked i li Hi) as Hback.
    unfold points_back in *. destruct (Locker.Contents li) as [q|]; [|done].
    unfold set_pkg. cbn. destruct (decide (p = q)) as [<-|Hq].
    + rewrite Hp in Hback, Hbl. cbn in *. congruence.
    + by rewrite lookup_insert_ne.
Qed.

(** X7.  [Put] and [Fetch] keep lockers and packages linked: if every
    package that a locker holds is in the store and points back to that
    locker, this is still so after [Put] and after [Fetch], whatever they
    return; in particular no package is ever held by two lockers. *)
Theorem Put_Fetch_keep_linked (w : World) :
  linked w →
  (∀ l pkg r w', Put l pkg w = Some (r, w') → linked w')
  ∧ (∀ l r w', Fetch l w = Some (r, w') → linked w')
  ∧ (∀ i j li lj p,
       index (Inventory.Lockers (inventory w)) i = Some li →
       index (Inventory.Lockers (inventory w)) j = Some lj →
       Locker.Contents li = Some p → Locker.Contents lj = Some p → i = j).
Proof.
  intros Hlinked. split; [|split].
  - intros l pkg r w'. by apply linked_Put.
  - intros l r w'. by apply linked_Fetch.
  - intros i j li lj p Hi Hj Hci Hcj.
    pose proof (proj1 (linked_index w) Hlinked i li Hi) as Hbi.
    pose proof (proj1 (linked_index w) Hlinked j lj Hj) as Hbj.
    unfold points_back in *. rewrite Hci in Hbi. rewrite Hcj in Hbj.
    rewrite Hbi in Hbj. congruence.
Qed.

Lemma Put_Fetch_keep_linked_witness :
  ∃ w', Put 3 1%positive example_world = Some (None, w') ∧ linked w'.
Proof.
  assert (Hl : linked example_world)
    by (refine (bool_decide_unpack _ _); vm_compute; exact I).
  destruct (Put 3 1%positive example_world) as [[[e|] w']|] eqn:H;
    [vm_compute in H; discriminate| |vm_compute in H; discriminate].
  exists w'. split; [reflexivity|].
  exact (proj1 (Put_Fetch_keep_linked example_world Hl) 3 1%positive None w' H).
Defined.

(** ** Allocation keeps the capacities exact *)

Lemma adjusted_control inv S cs lockers by_ :
  graph_ok inv →
  Inventory.Control inv !! S = Some cs →
  adjust_all (S :: LockerControlSpec.BiggerThan cs) by_
    (<[S := LockerControlSpec.with_Lockers cs lockers]> (Inventory.Control inv))
  = map_imap (λ T ct, Some (reallocated S cs lockers by_ T ct)) (Inventory.Control inv).
Proof.
  intros Hg Hcs. destruct (graph_ok_ids _ _ _ Hg Hcs) as [Hnd Hin].
  apply map_eq. intros T.
  rewrite adjust_all_lookup_NoDup by done. rewrite map_lookup_imap.
  destruct (decide (T = S)) as [->|Hne].
  - rewrite decide_True by (by left). rewrite lookup_insert_eq, Hcs. cbn.
    f_equal. unfold reallocated, bump. cbn.
    rewrite decide_True by done. rewrite decide_True by (by left). done.
  - rewrite lookup_insert_ne by done.
    destruct (Inventory.Control inv !! T) as [ct|] eqn:Hct; cbn; [|by case_decide].
    specialize (Hin T ct Hct). unfold reallocated.
    rewrite (decide_False (P := T = S)) by done.
    case_decide as Hd.
    + rewrite decide_True by (by apply Hin). reflexivity.
    + rewrite decide_False by (by rewrite <- Hin). by destruct ct.
Qed.

Lemma graph_ok_Control inv inv' :
  Inventory.Control inv' = Inventory.Control inv → graph_ok inv → graph_ok inv'.
Proof. unfold graph_ok. by intros ->. Qed.

Lemma graph_ok_reallocated inv S cs lockers by_ inv' :
  Inventory.Control inv'
  = map_imap (λ T ct, Some (reallocated S cs lockers by_ T ct)) (Inventory.Control inv) →
  graph_ok inv → graph_ok inv'.
Proof.
  intros HC Hg. unfold graph_ok. rewrite HC.
  set (C' := map_imap _ _).
  assert (Hlook : ∀ T, C' !! T = reallocated S cs lockers by_ T <$> Inventory.Control inv !! T).
  { intros T. unfold C'. rewrite map_lookup_imap.
    by destruct (Inventory.Control inv !! T). }
  intros X cx'. rewrite Hlook.
  destruct (Inventory.Control inv !! X) as [cx|] eqn:Hcx; [|done]. cbn.
  intros [= <-]. cbn.
  destruct (Hg X cx Hcx) as (Hnb & Hns & Hb & Hs & Hrel).
  assert (Hpres : ∀ T, is_Some (Inventory.Control inv !! T) → is_Some (C' !! T)).
  { intros T [ct Hct]. rewrite Hlook, Hct. cbn. by eauto. }
  split; [done|]. split; [done|].
  split; [eapply Forall_impl; [exact Hb|]; intros T; apply Hpres|].
  split; [eapply Forall_impl; [exact Hs|]; intros T; apply Hpres|].
  intros T ct'. rewrite Hlook.
  destruct (Inventory.Control inv !! T) as [ct|] eqn:Hct; [|done]. cbn.
  intros [= <-]. exact (Hrel T ct Hct).
Qed.

Lemma vc_ok_reallocated inv S cs lockers by_ inv' :
  Inventory.Control inv'
  = map_imap (λ T ct, Some (reallocated S cs lockers by_ T ct)) (Inventory.Control inv) →
  vc_ok inv → vc_ok inv'.
Proof.
  intros HC Hvc X cx'. rewrite HC, map_lookup_imap.
  destruct (Inventory.Control inv !! X) as [cx|] eqn:Hcx; [|done]. cbn.
  intros [= <-]. cbn. case_decide; [apply wrap_ok|by apply (Hvc X cx)].
Qed.

Lemma capacity_exact_lists inv :
  graph_ok inv →
  capacity_exact inv
  ↔ ∀ X cx, Inventory.Control inv !! X = Some cx →
      LockerControlSpec.VirtualCapacity cx
      = len (LockerControlSpec.Lockers cx)
        + sumZ (free (Inventory.Control inv)) (LockerControlSpec.SmallerThan cx).
Proof.
  intros Hg.
  assert (Heq : ∀ X cx, Inventory.Control inv !! X = Some cx →
            free_among (λ cy, strictly_smaller cx cy) inv
            = sumZ (free (Inventory.Control inv)) (LockerControlSpec.SmallerThan cx)).
  { intros X cx Hcx. destruct (Hg X cx Hcx) as (_ & Hns & _ & Hs & Hrel).
    apply free_among_list; [done|]. intros id. split.
    - intros Hin. rewrite Forall_forall in Hs. destruct (Hs id Hin) as [cy Hcy].
      exists cy. split; [done|]. by apply (Hrel id cy Hcy).
    - intros (cy & Hcy & Hlt). by apply (Hrel id cy Hcy). }
  split.
  - intros H X cx Hcx. rewrite <- (Heq X cx Hcx). by apply (H X cx).
  - intros H X cx Hcx. cbn. rewrite (Heq X cx Hcx). by apply (H X).
Qed.

Lemma sumZ_update (f g : LockerSize → Z) S d L :
  NoDup L →
  (∀ y, g y = if decide (y = S) then f y + d else f y) →
  sumZ g L = sumZ f L + (if decide (S ∈ L) then d else 0).
Proof.
  intros Hnd Hg. induction Hnd as [|y L Hy Hnd IH].
  - unfold sumZ. cbn. rewrite decide_False; [lia|]. apply not_elem_of_nil.
  - rewrite !sumZ_cons, IH, Hg.
    destruct (decide (y = S)) as [->|Hne].
    + rewrite decide_False by done. rewrite decide_True by (by left). lia.
    + destruct (decide (S ∈ L)) as [Hin|Hin].
      * rewrite decide_True by (by right). lia.
      * rewrite decide_False; [lia|]. intros [?|?]%elem_of_cons; done.
Qed.

Lemma sumZ_elem_le {A} (f : A → Z) x l : (∀ y, 0 ≤ f y) → x ∈ l → f x ≤ sumZ f l.
Proof.
  intros Hf. induction l as [|y l IH]; [by intros ?%elem_of_nil|].
  rewrite sumZ_cons. intros [->|Hin]%elem_of_cons.
  - pose proof (sumZ_nonneg f l Hf). lia.
  - specialize (IH Hin). pose proof (Hf y). lia.
Qed.

Lemma capacity_exact_reallocated inv S cs lockers by_ inv' :
  Inventory.Control inv'
  = map_imap (λ T ct, Some (reallocated S cs lockers by_ T ct)) (Inventory.Control inv) →
  graph_ok inv → capacity_exact inv →
  Inventory.Control inv !! S = Some cs →
  len lockers = len (LockerControlSpec.Lockers cs) + by_ →
  (∀ X cx, Inventory.Control inv !! X = Some cx →
     X = S ∨ strictly_smaller cx cs →
     int_ok (LockerControlSpec.VirtualCapacity cx + by_)) →
  capacity_exact inv'.
Proof.
  intros HC Hg Hcap Hcs Hlen Hok.
  pose proof (graph_ok_reallocated _ _ _ _ _ _ HC Hg) as Hg'.
  apply (capacity_exact_lists inv' Hg').
  pose proof (proj1 (capacity_exact_lists inv Hg) Hcap) as Hold.
  assert (Hfree : ∀ y, free (Inventory.Control inv') y
                       = if decide (y = S) then free (Inventory.Control inv) y + by_
                         else free (Inventory.Control inv) y).
  { intros y. unfold free. rewrite HC, map_lookup_imap.
    destruct (decide (y = S)) as [->|Hne].
    - rewrite Hcs. cbn. rewrite decide_True by done. exact Hlen.
    - destruct (Inventory.Control inv !! y) as [cy|]; [|done]. cbn.
      by rewrite decide_False. }
  intros X cx' Hcx'. rewrite HC, map_lookup_imap in Hcx'.
  destruct (Inventory.Control inv !! X) as [cx|] eqn:Hcx; [|done]. cbn in Hcx'.
  injection Hcx' as <-. cbn.
  destruct (Hg X cx Hcx) as (_ & Hns & _ & _ & Hrel).
  rewrite (sumZ_update (free (Inventory.Control inv)) _ S by_ _ Hns Hfree).
  destruct (Hrel S cs Hcs) as [_ HS].
  pose proof (Hold X cx Hcx) as HoldX.
  destruct (decide (X = S)) as [->|Hne].
  - rewrite Hcx in Hcs. injection Hcs as ->.
    rewrite decide_True by (by left).
    rewrite decide_False.
    2:{ rewrite HS. by intros [_ ?]. }
    unfold int_add. rewrite wrap_small.
    + lia.
    + apply (Hok S cs Hcx). by left.
  - destruct (decide (strictly_smaller cx cs)) as [Hlt|Hnlt].
    + rewrite decide_True by (by right). rewrite decide_True by (by apply HS).
      unfold int_add. rewrite wrap_small.
      * lia.
      * apply (Hok X cx Hcx). by right.
    + rewrite decide_False by tauto. rewrite decide_False by (by rewrite HS). lia.
Qed.

Lemma capacity_nonneg inv X cx :
  graph_ok inv → capacity_exact inv →
  Inventory.Control inv !! X = Some cx →
  0 ≤ LockerControlSpec.VirtualCapacity cx
  ∧ ∀ S cs, Inventory.Control inv !! S = Some cs →
      X = S ∨ strictly_smaller cx cs →
      len (LockerControlSpec.Lockers cs) ≤ LockerControlSpec.VirtualCapacity cx.
Proof.
  intros Hg Hcap Hcx.
  rewrite (proj1 (capacity_exact_lists inv Hg) Hcap X cx Hcx).
  pose proof (sumZ_nonneg (free (Inventory.Control inv))
                (LockerControlSpec.SmallerThan cx) (free_nonneg _)) as Hs.
  assert (Hl : ∀ c : LockerControlSpec, 0 ≤ len (LockerControlSpec.Lockers c))
    by (intros c; unfold len; lia).
  split; [pose proof (Hl cx); lia|].
  intros S cs Hcs [->|Hlt].
  - rewrite Hcx in Hcs. injection Hcs as ->. lia.
  - destruct (Hg X cx Hcx) as (_ & _ & _ & _ & Hrel).
    destruct (Hrel S cs Hcs) as [_ HS]. apply HS in Hlt.
    pose proof (sumZ_elem_le (free (Inventory.Control inv)) S _ (free_nonneg _) Hlt) as Hle.
    unfold free at 1 in Hle. rewrite Hcs in Hle. cbn in Hle. pose proof (Hl cx). lia.
Qed.

Lemma AllocateLocker_reallocated size_id w i w' :
  graph_ok (inventory w) →
  AllocateLocker size_id w = Some (i, w') →
  ∃ cs rest,
    Inventory.Control (inventory w) !! size_id = Some cs
    ∧ LockerControlSpec.Lockers cs = rest ++ [i]
    ∧ w' = upd_control
             (map_imap (λ T ct, Some (reallocated size_id cs rest (-1) T ct))) w.
Proof.
  intros Hg (cs & rest & Hcs & Hrest & _ & ->)%AllocateLocker_spec.
  exists cs, rest. split; [done|]. split; [done|].
  apply upd_control_ext. cbn [compose]. by apply adjusted_control.
Qed.

Lemma DeallocateLocker_reallocated i w u w' :
  graph_ok (inventory w) →
  DeallocateLocker i w = Some (u, w') →
  ∃ l cs,
    index (Inventory.Lockers (inventory w)) i = Some l
    ∧ Inventory.Control (inventory w) !! Locker.SizeId l = Some cs
    ∧ w' = upd_control
             (map_imap (λ T ct, Some (reallocated (Locker.SizeId l) cs
                                        (LockerControlSpec.Lockers cs ++ [i]) 1 T ct))) w.
Proof.
  intros Hg (l & cs & Hl & Hcs & _ & ->)%DeallocateLocker_spec.
  exists l, cs. split; [done|]. split; [done|].
  apply upd_control_ext. cbn [compose]. by apply adjusted_control.
Qed.

Lemma len_app_1 {A} (l : list A) x : len (l ++ [x]) = len l + 1.
Proof. unfold len. rewrite length_app. cbn. lia. Qed.

Lemma alloc_capacity_exact inv S cs rest i inv' :
  Inventory.Control inv'
  = map_imap (λ T ct, Some (reallocated S cs rest (-1) T ct)) (Inventory.Control inv) →
  graph_ok inv → capacity_exact inv → vc_ok inv →
  Inventory.Control inv !! S = Some cs →
  LockerControlSpec.Lockers cs = rest ++ [i] →
  capacity_exact inv'.
Proof.
  intros HC Hg Hcap Hvc Hcs Hrest.
  eapply capacity_exact_reallocated; [exact HC|done..| |].
  - rewrite Hrest, len_app_1. lia.
  - intros X cx Hcx Hrel.
    destruct (capacity_nonneg _ _ _ Hg Hcap Hcx) as [_ Hge].
    specialize (Hge S cs Hcs Hrel). rewrite Hrest, len_app_1 in Hge.
    pose proof (Hvc X cx Hcx) as Hok. cbn in Hok.
    assert (0 ≤ len rest) by (unfold len; lia).
    unfold int_ok, MIN_INT, MAX_INT in *. lia.
Qed.

Lemma dealloc_capacity_exact inv S cs i inv' :
  Inventory.Control inv'
  = map_imap (λ T ct, Some (reallocated S cs (LockerControlSpec.Lockers cs ++ [i]) 1 T ct))
      (Inventory.Control inv) →
  graph_ok inv → capacity_exact inv → capacity_below_max inv →
  Inventory.Control inv !! S = Some cs →
  capacity_exact inv'.
Proof.
  intros HC Hg Hcap Hmax Hcs.
  eapply capacity_exact_reallocated; [exact HC|done..| |].
  - by rewrite len_app_1.
  - intros X cx Hcx Hrel.
    destruct (capacity_nonneg _ _ _ Hg Hcap Hcx) as [H0 _].
    pose proof (Hmax X cx Hcx) as Hlt. cbn in Hlt.
    unfold int_ok, MIN_INT, MAX_INT in *. lia.
Qed.

(** X8.  Allocation keeps the virtual capacities exact.  In an inventory
    whose containment lists are those of the containment relation and in
    which the virtual capacity of every class is the number of free lockers
    of the class and of the strictly bigger classes, this is still so after
    [AllocateLocker]; and after [DeallocateLocker] as well, provided that no
    virtual capacity is the maximal int (the increment would wrap around). *)
Theorem allocation_keeps_capacity_exact (w : World) :
  graph_ok (inventory w) → capacity_exact (inventory w) → vc_ok (inventory w) →
  (∀ size_id i w',
     AllocateLocker size_id w = Some (i, w') →
     graph_ok (inventory w') ∧ capacity_exact (inventory w') ∧ vc_ok (inventory w'))
  ∧ (∀ i w',
       capacity_below_max (inventory w) →
       DeallocateLocker i w = Some (tt, w') →
       graph_ok (inventory w') ∧ capacity_exact (inventory w') ∧ vc_ok (inventory w')).
Proof.
  intros Hg Hcap Hvc. split.
  - intros S i w' Halloc.
    apply AllocateLocker_reallocated in Halloc as (cs & rest & Hcs & Hrest & ->); [|done].
    pose proof (upd_control_control
                  (map_imap (λ T ct, Some (reallocated S cs rest (-1) T ct))) w) as HC.
    split; [by eapply graph_ok_reallocated|].
    split; [by eapply alloc_capacity_exact|by eapply vc_ok_reallocated].
  - intros i w' Hmax Hd.
    apply DeallocateLocker_reallocated in Hd as (l & cs & Hl & Hcs & ->); [|done].
    pose proof (upd_control_control
                  (map_imap (λ T ct, Some (reallocated (Locker.SizeId l) cs
                                             (LockerControlSpec.Lockers cs ++ [i]) 1 T ct)))
                  w) as HC.
    split; [by eapply graph_ok_reallocated|].
    split; [by eapply dealloc_capacity_exact|by eapply vc_ok_reallocated].
Qed.

Lemma allocation_keeps_capacity_exact_witness :
  ∃ i w', AllocateLocker 2 example_world = Some (i, w')
          ∧ capacity_exact (inventory w').
Proof.
  assert (Hg : graph_ok (inventory example_world))
    by (refine (bool_decide_unpack _ _); vm_compute; exact I).
  assert (Hc : capacity_exact (inventory example_world))
    by (refine (bool_decide_unpack _ _); vm_compute; exact I).
  assert (Hvc : vc_ok (inventory example_world))
    by (refine (bool_decide_unpack _ _); vm_compute; exact I).
  destruct (AllocateLocker 2 example_world) as [[i w']|] eqn:Halloc;
    [|vm_compute in Halloc; discriminate].
  exists i, w'. split; [reflexivity|].
  exact (proj1 (proj2 (proj1 (allocation_keeps_capacity_exact example_world Hg Hc Hvc)
                         2 i w' Halloc))).
Defined.

(** X9.  The free lists are stacks: [DeallocateLocker] pushes the locker
    onto the free list of its class and [AllocateLocker] pops the last one,
    so that allocating from the class of a locker that has just been
    deallocated hands out that same locker and restores the state that
    preceded the deallocation. *)
Theorem Deallocate_Allocate_round_trip (w w' : World) (i : Z) :
  vc_ok (inventory w) →
  DeallocateLocker i w = Some (tt, w') →
  ∃ l, index (Inventory.Lockers (inventory w)) i = Some l
       ∧ AllocateLocker (Locker.SizeId l) w' = Some (i, w).
Proof.
  intros Hvc (l & c & Hl & Hc & Hall & ->)%DeallocateLocker_spec.
  exists l. split; [done|].
  set (S := Locker.SizeId l) in *.
  apply AllocateLocker_spec.
  set (ids := S :: LockerControlSpec.BiggerThan c).
  set (n := count_occ Z.eq_dec ids S).
  set (c1 := LockerControlSpec.with_Lockers c (LockerControlSpec.Lockers c ++ [i])).
  exists (Nat.iter n (bump 1) c1), (LockerControlSpec.Lockers c).
  rewrite upd_control_control. cbn [compose].
  split; [by rewrite adjust_all_lookup, lookup_insert_eq|].
  destruct (iter_bump_fields n 1 c1) as (Hb & _ & Hlk & _). rewrite Hb, Hlk.
  split; [done|]. cbn. fold ids. split.
  { eapply Forall_impl; [exact Hall|]. intros k Hk. cbn in Hk.
    rewrite adjust_all_is_Some. by rewrite (present_insert _ _ _ _ _ Hc). }
  rewrite upd_control_compose. symmetry. apply upd_control_id. cbn [compose].
  apply map_eq. intros k.
  rewrite adjust_all_lookup.
  destruct (decide (k = S)) as [->|Hne].
  - rewrite lookup_insert_eq, Hc. cbn. f_equal. fold n.
    unfold c1. rewrite (iter_bump_with_Lockers n 1 c).
    rewrite with_Lockers_twice.
    rewrite (iter_bump_with_Lockers n (-1)).
    change (bump (-1)) with (bump (Z.opp 1)).
    rewrite iter_bump_inverse; [|by apply (Hvc S)].
    by destruct c.
  - rewrite lookup_insert_ne by done. rewrite adjust_all_lookup.
    rewrite lookup_insert_ne by done.
    destruct (Inventory.Control (inventory w) !! k) as [ck|] eqn:Hck; [|done].
    cbn. f_equal. change (bump (-1)) with (bump (Z.opp 1)).
    apply iter_bump_inverse. by apply (Hvc k).
Qed.

Lemma Deallocate_Allocate_round_trip_witness :
  ∃ w', DeallocateLocker 5 example_world = Some (tt, w')
        ∧ AllocateLocker 3 w' = Some (5, example_world).
Proof.
  assert (Hvc : vc_ok (inventory example_world))
    by (refine (bool_decide_unpack _ _); vm_compute; exact I).
  destruct (DeallocateLocker 5 example_world) as [[[] w']|] eqn:Hd;
    [|vm_compute in Hd; discriminate].
  exists w'. split; [reflexivity|].
  destruct (Deallocate_Allocate_round_trip example_world w' 5 Hvc Hd) as (l & Hl & Ha).
  vm_compute in Hl. injection Hl as <-. exact Ha.
Defined.

(** ** Counting the free lockers *)

Lemma total_free_concat (C : gmap LockerSize LockerControlSpec) :
  total_free C
  = len (mjoin ((λ kc : LockerSize * LockerControlSpec, LockerControlSpec.Lockers kc.2)
                   <$> map_to_list C)).
Proof.
  unfold total_free. induction (map_to_list C) as [|kc M IH]; [done|].
  rewrite sumZ_cons, IH. cbn. unfold free_of, len.
  by rewrite length_app, Nat2Z.inj_add.
Qed.

Lemma NoDup_concat_typed {A} (ty : Z → option A) (M : list (A * LockerControlSpec)) :
  NoDup M.*1 →
  (∀ k c, (k, c) ∈ M →
     NoDup (LockerControlSpec.Lockers c)
     ∧ ∀ j, j ∈ LockerControlSpec.Lockers c → ty j = Some k) →
  NoDup (mjoin ((λ kc : A * LockerControlSpec, LockerControlSpec.Lockers kc.2) <$> M)).
Proof.
  induction M as [|[k c] M IH]; cbn; [intros; constructor|].
  intros [Hk Hnd]%NoDup_cons HM.
  destruct (HM k c) as [Hc Hty]; [by left|].
  apply NoDup_app. split; [done|]. split.
  - intros j Hj Hj'. apply list_elem_of_join in Hj' as (L & Hj' & HL).
    apply list_elem_of_fmap in HL as ([k' c'] & -> & Hin). cbn in Hj'.
    destruct (HM k' c') as [_ Hty']; [by right|].
    pose proof (Hty j Hj) as H1. pose proof (Hty' j Hj') as H2.
    rewrite H1 in H2. injection H2 as <-.
    apply Hk. apply list_elem_of_fmap. by exists (k, c').
  - apply IH; [done|]. intros k' c' Hin. apply HM. by right.
Qed.

Lemma NoDup_range_length (l : list Z) n :
  0 ≤ n → NoDup l → (∀ x, x ∈ l → 0 ≤ x < n) → len l ≤ n.
Proof.
  intros Hn Hnd Hr.
  assert (Hsub : l ⊆+ seqZ 0 n).
  { apply NoDup_submseteq; [done|]. intros x Hx. apply elem_of_seqZ.
    specialize (Hr x Hx). lia. }
  apply submseteq_length in Hsub. rewrite length_seqZ in Hsub. unfold len. lia.
Qed.

Lemma fmap_Contents_None (o : option Locker) :
  Locker.Contents <$> o = Some None ↔ ∃ l, o = Some l ∧ Locker.Contents l = None.
Proof.
  destruct o as [l|]; cbn.
  - split; [intros [= H]; by exists l|]. intros (l' & [= <-] & H). by rewrite H.
  - split; [done|]. by intros (? & [=] & _).
Qed.

Lemma free_exact_lists inv S c :
  free_exact inv → Inventory.Control inv !! S = Some c →
  NoDup (LockerControlSpec.Lockers c)
  ∧ ∀ j, j ∈ LockerControlSpec.Lockers c →
      ∃ l, index (Inventory.Lockers inv) j = Some l ∧ Locker.Contents l = None.
Proof.
  intros [Hlists _] Hc. destruct (Hlists S c Hc) as [Hnd Hall].
  split; [done|]. intros j Hj. rewrite Forall_forall in Hall.
  by apply fmap_Contents_None, Hall.
Qed.

Lemma free_exact_accounted inv i l :
  free_exact inv → index (Inventory.Lockers inv) i = Some l → locker_accounted inv i l.
Proof.
  intros [_ Hacc] Hl.
  by apply (proj1 (Forall_imap_index (locker_accounted inv) _) Hacc).
Qed.

Lemma free_typed_index inv S c j :
  free_typed inv → Inventory.Control inv !! S = Some c →
  j ∈ LockerControlSpec.Lockers c →
  Locker.SizeId <$> index (Inventory.Lockers inv) j = Some S.
Proof.
  intros Hf Hc Hj. specialize (Hf S c Hc). cbn in Hf.
  rewrite Forall_forall in Hf. by apply Hf.
Qed.

Lemma free_count_bound inv i lv :
  free_typed inv → free_exact inv →
  index (Inventory.Lockers inv) i = Some lv → is_Some (Locker.Contents lv) →
  total_free (Inventory.Control inv) + 1 ≤ len (Inventory.Lockers inv).
Proof.
  intros Hty Hfree Hlv [p Hp].
  rewrite total_free_concat.
  set (F := mjoin _).
  assert (Hin : ∀ j, j ∈ F → ∃ S c, Inventory.Control inv !! S = Some c
                                     ∧ j ∈ LockerControlSpec.Lockers c).
  { intros j (L & Hj & HL)%list_elem_of_join.
    apply list_elem_of_fmap in HL as ([S c] & -> & HSc).
    apply elem_of_map_to_list in HSc. by exists S, c. }
  assert (Hnd : NoDup F).
  { apply (NoDup_concat_typed (λ j, Locker.SizeId <$> index (Inventory.Lockers inv) j)).
    - apply NoDup_fst_map_to_list.
    - intros S c HSc%elem_of_map_to_list.
      split; [by apply (free_exact_lists inv S c)|].
      intros j Hj. by apply (free_typed_index inv S c). }
  assert (Hni : i ∉ F).
  { intros (S & c & Hc & Hi)%Hin.
    destruct (free_exact_lists inv S c Hfree Hc) as [_ Hempty].
    destruct (Hempty i Hi) as (l & Hl & Hnone). congruence. }
  assert (Hlen : len (i :: F) ≤ len (Inventory.Lockers inv)).
  { apply NoDup_range_length; [unfold len; lia|by apply NoDup_cons|].
    intros j [->|Hj]%elem_of_cons; [by eapply index_lt|].
    apply Hin in Hj as (S & c & Hc & Hj).
    destruct (free_exact_lists inv S c Hfree Hc) as [_ Hempty].
    destruct (Hempty j Hj) as (l & Hl & _). by eapply index_lt. }
  unfold len in *. cbn in Hlen. lia.
Qed.

Lemma capacity_le_total_free inv X cx :
  graph_ok inv → capacity_exact inv →
  Inventory.Control inv !! X = Some cx →
  LockerControlSpec.VirtualCapacity cx ≤ total_free (Inventory.Control inv).
Proof.
  intros Hg Hcap Hcx.
  rewrite (proj1 (capacity_exact_lists inv Hg) Hcap X cx Hcx).
  destruct (Hg X cx Hcx) as (_ & Hns & _ & _ & Hrel).
  assert (Hself : X ∉ LockerControlSpec.SmallerThan cx).
  { intros Hin. apply (Hrel X cx Hcx) in Hin as [_ Hne]. done. }
  pose proof (sum_free_le (X :: LockerControlSpec.SmallerThan cx) (Inventory.Control inv)
                ltac:(by apply NoDup_cons)) as Hle.
  rewrite sumZ_cons in Hle. unfold free at 1 in Hle. rewrite Hcx in Hle. exact Hle.
Qed.

(** ** What a deposit and a retrieval keep *)

Lemma index_insert_SizeId (L : list Locker) i lv lv' j :
  index L i = Some lv → Locker.SizeId lv' = Locker.SizeId lv →
  Locker.SizeId <$> index (<[Z.to_nat i := lv']> L) j = Locker.SizeId <$> index L j.
Proof.
  intros Hlv Hsz. pose proof (proj1 (index_Some _ _ _) Hlv) as [Hi _].
  destruct (decide (i = j)) as [<-|Hne].
  - rewrite (index_insert_eq _ _ _ _ Hlv), Hlv. cbn. by rewrite Hsz.
  - by rewrite index_insert_ne.
Qed.

Lemma index_insert_is_Some (L : list Locker) i lv lv' j :
  index L i = Some lv →
  is_Some (index (<[Z.to_nat i := lv']> L) j) ↔ is_Some (index L j).
Proof.
  intros Hlv. pose proof (proj1 (index_Some _ _ _) Hlv) as [Hi _].
  destruct (decide (i = j)) as [<-|Hne].
  - rewrite (index_insert_eq _ _ _ _ Hlv), Hlv. split; eauto.
  - by rewrite index_insert_ne.
Qed.

Lemma len_insert {A} (L : list A) n x : len (<[n := x]> L) = len L.
Proof. unfold len. by rewrite length_insert. Qed.

Lemma reallocated_lookup S cs lockers by_ (C : gmap LockerSize LockerControlSpec) T :
  map_imap (λ T ct, Some (reallocated S cs lockers by_ T ct)) C !! T
  = reallocated S cs lockers by_ T <$> C !! T.
Proof. rewrite map_lookup_imap. by destruct (C !! T). Qed.

Lemma sizes_controlled_reallocated inv S cs lockers by_ inv' :
  Inventory.Control inv'
  = map_imap (λ T ct, Some (reallocated S cs lockers by_ T ct)) (Inventory.Control inv) →
  Inventory.Sizes inv' = Inventory.Sizes inv →
  sizes_controlled inv → sizes_controlled inv'.
Proof.
  intros HC HS Hctl s id Hs. rewrite HS in Hs. cbn.
  destruct (Hctl s id Hs) as [c Hc]. rewrite HC, reallocated_lookup, Hc. cbn. by eauto.
Qed.

Lemma ids_valid_insert inv i lv lv' inv' :
  Inventory.Lockers inv' = <[Z.to_nat i := lv']> (Inventory.Lockers inv) →
  Inventory.LockersById inv' = Inventory.LockersById inv →
  index (Inventory.Lockers inv) i = Some lv →
  ids_valid inv → ids_valid inv'.
Proof.
  intros HL HB Hlv Hids id k Hk. rewrite HB in Hk. cbn. rewrite HL.
  apply (index_insert_is_Some _ _ _ _ _ Hlv). by apply (Hids id k).
Qed.

Lemma free_typed_reallocated inv S cs lockers by_ i lv lv' inv' :
  Inventory.Control inv'
  = map_imap (λ T ct, Some (reallocated S cs lockers by_ T ct)) (Inventory.Control inv) →
  Inventory.Lockers inv' = <[Z.to_nat i := lv']> (Inventory.Lockers inv) →
  index (Inventory.Lockers inv) i = Some lv →
  Locker.SizeId lv' = Locker.SizeId lv →
  Forall (λ j, Locker.SizeId <$> index (Inventory.Lockers inv) j = Some S) lockers →
  free_typed inv → free_typed inv'.
Proof.
  intros HC HL Hlv Hsz Hnew Hty T c' Hc'. cbn.
  rewrite HC, reallocated_lookup in Hc'.
  destruct (Inventory.Control inv !! T) as [ct|] eqn:Hct; [|done].
  cbn in Hc'. injection Hc' as <-. cbn. rewrite HL.
  apply Forall_forall. intros j Hj.
  rewrite (index_insert_SizeId _ _ _ _ _ Hlv Hsz).
  case_decide as HT.
  - subst T. rewrite Forall_forall in Hnew. by apply Hnew.
  - by apply (free_typed_index inv T ct).
Qed.

Lemma Part000_DepositPackage_Err order pkg w e w' :
  Part000.DepositPackage order pkg w = Some (Err e, w') → w' = w.
Proof.
  intros (pv' & Hp' & H)%Part000_DepositPackage_inv.
  destruct (Inventory.LockersByPackageId (inventory w) !! Package.Id pv');
    [by destruct H|].
  destruct H as ([chosen|e'] & _ & H); [|by destruct H].
  destruct H as (? & ? & [e1|] & ? & _ & _ & _ & H); [by destruct H|].
  by destruct H as (? & ? & ? & ? & _ & _ & _ & _ & [=]).
Qed.

Lemma NoDup_snoc {A} (l : list A) x : NoDup (l ++ [x]) ↔ (x ∉ l) ∧ NoDup l.
Proof.
  rewrite NoDup_app. split.
  - intros (Hl & Hd & _). split; [|done]. intros Hx. apply (Hd x Hx). by left.
  - intros [Hx Hl]. split; [done|]. split; [|apply NoDup_singleton].
    intros y Hy Hy2. apply list_elem_of_singleton in Hy2 as ->. done.
Qed.

Lemma registered_index w :
  Forall (λ il : nat * Locker, registered w (Z.of_nat il.1) il.2)
         (imap pair (Inventory.Lockers (inventory w)))
  ↔ ∀ i l, index (Inventory.Lockers (inventory w)) i = Some l → registered w i l.
Proof. apply (Forall_imap_index (registered w)). Qed.

Lemma accounted_index inv :
  Forall (λ il : nat * Locker, locker_accounted inv (Z.of_nat il.1) il.2)
         (imap pair (Inventory.Lockers inv))
  ↔ ∀ i l, index (Inventory.Lockers inv) i = Some l → locker_accounted inv i l.
Proof. apply (Forall_imap_index (locker_accounted inv)). Qed.

Lemma stored_at_Some w i pv :
  stored_at w i = Some pv
  ↔ ∃ l p, index (Inventory.Lockers (inventory w)) i = Some l
           ∧ Locker.Contents l = Some p ∧ packages w !! p = Some pv.
Proof.
  unfold stored_at. rewrite bind_Some. split.
  - intros (l & Hl & (p & Hp & H)%bind_Some). by exists l, p.
  - intros (l & p & Hl & Hp & H). exists l. split; [done|].
    apply bind_Some. by exists p.
Qed.

Lemma holds_iff w id i :
  holds w id i
  ↔ ∃ l p pv, index (Inventory.Lockers (inventory w)) i = Some l
              ∧ Locker.Contents l = Some p ∧ packages w !! p = Some pv
              ∧ Package.Id pv = id.
Proof.
  unfold holds. rewrite fmap_Some. split.
  - intros (pv & (l & p & ? & ? & ?)%stored_at_Some & ->). by exists l, p, pv.
  - intros (l & p & pv & ? & ? & ? & <-). exists pv. split; [|done].
    apply stored_at_Some. by exists l, p.
Qed.

Lemma registered_iff w i l :
  registered w i l
  ↔ ∀ p, Locker.Contents l = Some p →
      ∃ pv, packages w !! p = Some pv
            ∧ Inventory.LockersByPackageId (inventory w) !! Package.Id pv = Some i.
Proof.
  unfold registered. destruct (Locker.Contents l) as [p|].
  - rewrite bind_Some. split.
    + intros (pv & ? & ?) p' [= <-]. by exists pv.
    + intros H. by apply H.
  - split; [by intros _ p [=]|done].
Qed.

Lemma points_back_iff w i l :
  points_back w i l
  ↔ ∀ p, Locker.Contents l = Some p →
      ∃ pv, packages w !! p = Some pv ∧ Package.StoredIn pv = Some (PoolLocker i).
Proof.
  unfold points_back. destruct (Locker.Contents l) as [p|].
  - rewrite fmap_Some. split.
    + intros (pv & ? & ?) p' [= <-]. by exists pv.
    + intros H. destruct (H p eq_refl) as (pv & ? & ?). by exists pv.
  - split; [by intros _ p [=]|done].
Qed.

Lemma linked_ext w w' :
  Inventory.Lockers (inventory w') = Inventory.Lockers (inventory w) →
  packages w' = packages w →
  linked w → linked w'.
Proof. unfold linked, points_back. by intros -> ->. Qed.

Lemma Part000_DepositPackage_keeps order pkg w lid w' :
  well_formed w →
  Part000.DepositPackage order pkg w = Some (Ok lid, w') →
  well_formed w'.
Proof.
  intros (Hg & Hctl & Hcap & Hvc & Hty & Hfree & Hlinked & [Hreg Hmap] & Hids & Hlen) Hdep.
  apply Part000_DepositPackage_success in Hdep
    as (pv & S & c & rest & i & lv & Hp & Hst & Hdup & _ & Hc & Hrest & Hall
        & Hlv & Hcont & _ & ->).
  set (lvS := Locker.with_Contents lv (Some pkg)).
  set (pvS := Package.with_StoredIn pv (Some (PoolLocker i))).
  set (w0 := set_pkg pkg pvS (set_locker i lvS w)).
  assert (HF : upd_control (adjust_all (S :: LockerControlSpec.BiggerThan c) (-1)
                            ∘ <[S := LockerControlSpec.with_Lockers c rest]>) w0
               = upd_control (map_imap (λ T ct, Some (reallocated S c rest (-1) T ct))) w0).
  { apply upd_control_ext. cbn [compose]. by apply (adjusted_control (inventory w)). }
  rewrite HF. clear HF.
  set (w' := upd_by_package_id _ _).
  assert (HC : Inventory.Control (inventory w')
               = map_imap (λ T ct, Some (reallocated S c rest (-1) T ct))
                   (Inventory.Control (inventory w))) by reflexivity.
  assert (HL : Inventory.Lockers (inventory w')
               = <[Z.to_nat i := lvS]> (Inventory.Lockers (inventory w))) by reflexivity.
  assert (HS : Inventory.Sizes (inventory w') = Inventory.Sizes (inventory w))
    by reflexivity.
  assert (HB : Inventory.LockersById (inventory w') = Inventory.LockersById (inventory w))
    by reflexivity.
  assert (HP : packages w' = <[pkg := pvS]> (packages w)) by reflexivity.
  assert (HR : Inventory.LockersByPackageId (inventory w')
               = <[Package.Id pv := i]> (Inventory.LockersByPackageId (inventory w)))
    by reflexivity.
  assert (Hlinked0 : linked w').
  { apply (linked_ext w0); [reflexivity..|].
    apply (linked_Put i pkg w None); [done|].
    apply Put_spec. exists lv. split; [done|]. rewrite Hcont.
    exists pv. split; [done|]. by rewrite Hst. }
  clearbody w'. clear w0.
  pose proof (proj1 (index_Some _ _ _) Hlv) as [Hi0 _].
  assert (Hin : i ∈ LockerControlSpec.Lockers c).
  { rewrite Hrest. apply elem_of_app. right. by left. }
  assert (Hsz : Locker.SizeId lv = S).
  { pose proof (free_typed_index _ _ _ _ Hty Hc Hin) as H. rewrite Hlv in H.
    by injection H. }
  destruct (free_exact_lists _ _ _ Hfree Hc) as [Hndc _].
  rewrite Hrest in Hndc. apply NoDup_snoc in Hndc as [Hni Hndr].
  assert (Hreg' := proj1 (registered_index w) Hreg).
  split; [by eapply graph_ok_reallocated|].
  split; [by eapply sizes_controlled_reallocated|].
  split; [by eapply alloc_capacity_exact|].
  split; [by eapply vc_ok_reallocated|].
  split.
  { eapply free_typed_reallocated; [exact HC|exact HL|exact Hlv|done| |done].
    apply Forall_forall. intros j Hj. apply (free_typed_index _ S c); [done..|].
    rewrite Hrest. apply elem_of_app. by left. }
  split.
  { split.
    - intros T c' Hc'. cbn. rewrite HC, reallocated_lookup in Hc'.
      destruct (Inventory.Control (inventory w) !! T) as [ct|] eqn:Hct; [|done].
      cbn in Hc'. injection Hc' as <-. cbn.
      destruct (free_exact_lists _ _ _ Hfree Hct) as [HndT HemptyT].
      split; [by case_decide|].
      apply Forall_forall. intros j Hj. rewrite HL.
      assert (Hj' : j ≠ i ∧ j ∈ LockerControlSpec.Lockers ct).
      { case_decide as HT.
        - subst T. rewrite Hc in Hct. injection Hct as <-.
          split; [by intros ->|]. rewrite Hrest. apply elem_of_app. by left.
        - split; [|done]. intros ->.
          pose proof (free_typed_index _ _ _ _ Hty Hct Hj) as H.
          rewrite Hlv in H. cbn in H. congruence. }
      destruct Hj' as [Hne Hjc].
      rewrite index_insert_ne by done. apply fmap_Contents_None. by apply HemptyT.
    - apply accounted_index. intros j l' Hj. rewrite HL in Hj.
      unfold locker_accounted. rewrite HC, reallocated_lookup.
      destruct (decide (i = j)) as [<-|Hne].
      + rewrite (index_insert_eq _ _ _ _ Hlv) in Hj. injection Hj as <-.
        change (Locker.SizeId lvS) with (Locker.SizeId lv). rewrite Hsz, Hc. cbn.
        discriminate.
      + rewrite index_insert_ne in Hj by done.
        pose proof (free_exact_accounted _ _ _ Hfree Hj) as Hacc.
        unfold locker_accounted in Hacc.
        destruct (Inventory.Control (inventory w) !! Locker.SizeId l') as [ct|] eqn:Hct;
          cbn; [|exact Hacc].
        intros Hnone. specialize (Hacc Hnone). case_decide as HT; [|done].
        rewrite HT, Hc in Hct. injection Hct as <-.
        rewrite Hrest in Hacc. apply elem_of_app in Hacc as [?|Hl]; [done|].
        apply list_elem_of_singleton in Hl. congruence. }
  split; [done|].
  split.
  { split.
    - apply registered_index. intros j l' Hj. rewrite HL in Hj.
      apply registered_iff. intros q Hq. rewrite HP, HR.
      destruct (decide (i = j)) as [<-|Hne].
      + rewrite (index_insert_eq _ _ _ _ Hlv) in Hj. injection Hj as <-.
        cbn in Hq. injection Hq as <-. exists pvS.
        split; [apply lookup_insert_eq|]. cbn. apply lookup_insert_eq.
      + rewrite index_insert_ne in Hj by done.
        destruct (proj1 (registered_iff _ _ _) (Hreg' j l' Hj) q Hq) as (qv & Hqv & Hk).
        assert (Hid : Package.Id pv ≠ Package.Id qv) by congruence.
        assert (Hq' : pkg ≠ q) by congruence.
        exists qv. by rewrite !lookup_insert_ne.
    - intros id k Hk. rewrite HR in Hk. apply holds_iff. rewrite HL, HP.
      apply lookup_insert_Some in Hk as [[<- <-]|[Hne Hk]].
      + exists lvS, pkg, pvS. split; [by eapply index_insert_eq|].
        split; [done|]. split; [apply lookup_insert_eq|done].
      + destruct (proj1 (holds_iff _ _ _) (Hmap id k Hk)) as (l & q & qv & Hl & Hq & Hqv & Hid).
        assert (Hki : i ≠ k) by congruence.
        assert (Hq' : pkg ≠ q) by congruence.
        exists l, q, qv. rewrite index_insert_ne by done.
        by rewrite lookup_insert_ne. }
  split; [by eapply ids_valid_insert|].
  by rewrite HL, len_insert.
Qed.

Lemma Part000_RetrievePackageInternal_keeps i w r w' :
  well_formed w →
  Part000.RetrievePackageInternal i true w = Some (r, w') →
  well_formed w'.
Proof.
  intros Hwf (lv & Hlv & H)%Part000_RetrievePackageInternal_inv.
  destruct (Locker.Contents lv) as [p|] eqn:Hcont; [|by destruct H as [_ ->]].
  destruct H as (pv & w1 & Hp & Hd & _ & ->).
  destruct Hwf
    as (Hg & Hctl & Hcap & Hvc & Hty & Hfree & Hlinked & [Hreg Hmap] & Hids & Hlen).
  set (lvN := Locker.with_Contents lv None) in *.
  set (pvN := Package.with_StoredIn pv None) in *.
  set (w0 := set_pkg p pvN (set_locker i lvN w)) in *.
  apply DeallocateLocker_reallocated in Hd as (l & cs & Hl & Hcs & ->); [|exact Hg].
  change (index (<[Z.to_nat i := lvN]> (Inventory.Lockers (inventory w))) i = Some l) in Hl.
  rewrite (index_insert_eq _ _ _ _ Hlv) in Hl. injection Hl as <-.
  change (Locker.SizeId lvN) with (Locker.SizeId lv) in *.
  set (S := Locker.SizeId lv) in *.
  change (Inventory.Control (inventory w) !! S = Some cs) in Hcs.
  set (w' := upd_by_package_id _ _).
  assert (HC : Inventory.Control (inventory w')
               = map_imap (λ T ct, Some (reallocated S cs
                                           (LockerControlSpec.Lockers cs ++ [i]) 1 T ct))
                   (Inventory.Control (inventory w))) by reflexivity.
  assert (HL : Inventory.Lockers (inventory w')
               = <[Z.to_nat i := lvN]> (Inventory.Lockers (inventory w))) by reflexivity.
  assert (HS : Inventory.Sizes (inventory w') = Inventory.Sizes (inventory w))
    by reflexivity.
  assert (HB : Inventory.LockersById (inventory w') = Inventory.LockersById (inventory w))
    by reflexivity.
  assert (HP : packages w' = <[p := pvN]> (packages w)) by reflexivity.
  assert (HR : Inventory.LockersByPackageId (inventory w')
               = delete (Package.Id pv) (Inventory.LockersByPackageId (inventory w)))
    by reflexivity.
  assert (Hlinked0 : linked w').
  { apply (linked_ext w0); [reflexivity..|].
    apply (linked_Fetch i w (Ok p)); [done|].
    apply Fetch_spec. exists lv. split; [done|]. rewrite Hcont. by exists pv. }
  clearbody w'. clear w0.
  pose proof (proj1 (index_Some _ _ _) Hlv) as [Hi0 _].
  assert (Hreg' := proj1 (registered_index w) Hreg).
  assert (Hlinked' := proj1 (linked_index w) Hlinked).
  destruct (proj1 (registered_iff _ _ _) (Hreg' i lv Hlv) p Hcont) as (pv0 & Hpv0 & Hregi).
  rewrite Hp in Hpv0. injection Hpv0 as <-.
  destruct (proj1 (points_back_iff _ _ _) (Hlinked' i lv Hlv) p Hcont)
    as (pv0 & Hpv0 & Hbacki).
  rewrite Hp in Hpv0. injection Hpv0 as <-.
  assert (Hfresh : ∀ T ct, Inventory.Control (inventory w) !! T = Some ct →
                     i ∉ LockerControlSpec.Lockers ct).
  { intros T ct Hct Hin.
    destruct (free_exact_lists _ _ _ Hfree Hct) as [_ Hempty].
    destruct (Hempty i Hin) as (l & Hl & Hnone). congruence. }
  assert (Hmax : capacity_below_max (inventory w)).
  { intros X cx Hcx. cbn.
    pose proof (capacity_le_total_free _ _ _ Hg Hcap Hcx) as Hle.
    pose proof (free_count_bound _ _ _ Hty Hfree Hlv ltac:(rewrite Hcont; eauto)) as Hb.
    lia. }
  assert (Hother : ∀ j l' q, index (Inventory.Lockers (inventory w)) j = Some l' →
                     Locker.Contents l' = Some q → i ≠ j → p ≠ q).
  { intros j l' q Hj Hq Hne ->.
    destruct (proj1 (points_back_iff _ _ _) (Hlinked' j l' Hj) q Hq) as (qv & Hqv & Hb).
    rewrite Hp in Hqv. injection Hqv as <-. congruence. }
  split; [by eapply graph_ok_reallocated|].
  split; [by eapply sizes_controlled_reallocated|].
  split; [by eapply dealloc_capacity_exact|].
  split; [by eapply vc_ok_reallocated|].
  split.
  { eapply free_typed_reallocated; [exact HC|exact HL|exact Hlv|done| |done].
    apply Forall_app. split.
    - apply Forall_forall. intros j Hj. by apply (free_typed_index _ S cs).
    - apply Forall_singleton. by rewrite Hlv. }
  split.
  { split.
    - intros T c' Hc'. cbn. rewrite HC, reallocated_lookup in Hc'.
      destruct (Inventory.Control (inventory w) !! T) as [ct|] eqn:Hct; [|done].
      cbn in Hc'. injection Hc' as <-. cbn.
      destruct (free_exact_lists _ _ _ Hfree Hct) as [HndT HemptyT].
      split.
      + case_decide as HT; [|done]. subst T. rewrite Hcs in Hct. injection Hct as <-.
        apply NoDup_snoc. split; [by apply (Hfresh S cs)|done].
      + apply Forall_forall. intros j Hj. rewrite HL. apply fmap_Contents_None.
        destruct (decide (i = j)) as [<-|Hne].
        * exists lvN. split; [by eapply index_insert_eq|done].
        * rewrite index_insert_ne by done. apply HemptyT.
          case_decide as HT; [|done]. subst T. rewrite Hcs in Hct. injection Hct as <-.
          apply elem_of_app in Hj as [?|Hj]; [done|].
          apply list_elem_of_singleton in Hj. congruence.
    - apply accounted_index. intros j l' Hj. rewrite HL in Hj.
      unfold locker_accounted. rewrite HC, reallocated_lookup.
      destruct (decide (i = j)) as [<-|Hne].
      + rewrite (index_insert_eq _ _ _ _ Hlv) in Hj. injection Hj as <-.
        change (Locker.SizeId lvN) with S. rewrite Hcs. cbn. intros _.
        rewrite decide_True by done. apply elem_of_app. right. by left.
      + rewrite index_insert_ne in Hj by done.
        pose proof (free_exact_accounted _ _ _ Hfree Hj) as Hacc.
        unfold locker_accounted in Hacc.
        destruct (Inventory.Control (inventory w) !! Locker.SizeId l') as [ct|] eqn:Hct;
          cbn; [|exact Hacc].
        intros Hnone. specialize (Hacc Hnone). case_decide as HT; [|done].
        rewrite HT, Hcs in Hct. injection Hct as <-.
        apply elem_of_app. by left. }
  split; [done|].
  split.
  { split.
    - apply registered_index. intros j l' Hj. rewrite HL in Hj.
      apply registered_iff. intros q Hq. rewrite HP, HR.
      destruct (decide (i = j)) as [<-|Hne].
      + rewrite (index_insert_eq _ _ _ _ Hlv) in Hj. by injection Hj as <-.
      + rewrite index_insert_ne in Hj by done.
        destruct (proj1 (registered_iff _ _ _) (Hreg' j l' Hj) q Hq) as (qv & Hqv & Hk).
        pose proof (Hother j l' q Hj Hq Hne) as Hpq.
        exists qv. rewrite lookup_insert_ne by done. split; [done|].
        rewrite lookup_delete_ne; [done|]. intros Hid. rewrite <- Hid in Hk. congruence.
    - intros id k Hk. rewrite HR in Hk. apply holds_iff. rewrite HL, HP.
      apply lookup_delete_Some in Hk as [Hne Hk].
      destruct (proj1 (holds_iff _ _ _) (Hmap id k Hk)) as (l & q & qv & Hl & Hq & Hqv & Hid).
      assert (Hki : i ≠ k).
      { intros <-. rewrite Hlv in Hl. injection Hl as <-.
        rewrite Hcont in Hq. injection Hq as <-. rewrite Hp in Hqv. congruence. }
      pose proof (Hother k l q Hl Hq Hki) as Hpq.
      exists l, q, qv. rewrite index_insert_ne by done.
      by rewrite lookup_insert_ne. }
  split; [by eapply ids_valid_insert|].
  by rewrite HL, len_insert.
Qed.

(** ** Deposits and retrievals on a well-formed state *)

Lemma Part000_DepositPackage_runs order pkg w pv chosen_id :
  well_formed w →
  packages w !! pkg = Some pv →
  Inventory.LockersByPackageId (inventory w) !! Package.Id pv = None →
  GetMostSuitableLockerSize order (Normalize (Package.Size pv)) w = Some (Ok chosen_id, w) →
  candidate (inventory w) (Normalize (Package.Size pv)) chosen_id →
  match Package.StoredIn pv with
  | Some _ => Part000.DepositPackage order pkg w = Some (Err "Package already in locker", w)
  | None => ∃ lid w', Part000.DepositPackage order pkg w = Some (Ok lid, w')
  end.
Proof.
  intros (Hg & Hctl & Hcap & Hvc & Hty & Hfree & Hlinked & Hregs & Hids & Hlen)
    Hp Hdup HG (size & ctrl & Hsize & Hfits & Hctrl & Hne).
  destruct (last (LockerControlSpec.Lockers ctrl)) as [i|] eqn:Hlast;
    [|by apply last_None in Hlast].
  pose proof Hlast as Hrest. apply last_Some in Hrest as [rest Hrest].
  destruct (free_exact_lists _ _ _ Hfree Hctrl) as [_ Hempty].
  destruct (Hempty i) as (lv & Hlv & Hcont).
  { rewrite Hrest. apply elem_of_app. right. by left. }
  unfold Part000.DepositPackage.
  rewrite (bind_eq _ _ _ _ _ (load_pkg_Some _ _ _ Hp)).
  rewrite (bind_eq _ _ _ _ _ (get_inv_eq w)).
  rewrite comma_ok_snd, Hdup.
  rewrite (bind_eq _ _ _ _ _ HG).
  rewrite (bind_eq _ _ _ _ _ (proj2 (load_ctrl_Some _ _ _ _) (conj Hctrl eq_refl))).
  rewrite index_last, Hlast. cbn [deref].
  rewrite (bind_eq _ _ _ i w eq_refl).
  destruct (Package.StoredIn pv) eqn:Hst.
  - assert (HPut : Put i pkg w = Some (Some "Package already in locker"%string, w)).
    { apply Put_spec. exists lv. split; [done|]. rewrite Hcont.
      exists pv. split; [done|]. by rewrite Hst. }
    by rewrite (bind_eq _ _ _ _ _ HPut).
  - set (w1 := set_pkg pkg (Package.with_StoredIn pv (Some (PoolLocker i)))
                 (set_locker i (Locker.with_Contents lv (Some pkg)) w)).
    assert (HPut : Put i pkg w = Some (None, w1)).
    { apply Put_spec. exists lv. split; [done|]. rewrite Hcont.
      exists pv. split; [done|]. by rewrite Hst. }
    rewrite (bind_eq _ _ _ _ _ HPut).
    set (w2 := upd_control
                 (adjust_all (chosen_id :: LockerControlSpec.BiggerThan ctrl) (-1)
                  ∘ <[chosen_id := LockerControlSpec.with_Lockers ctrl rest]>) w1).
    assert (HAlloc : AllocateLocker chosen_id w1 = Some (i, w2)).
    { apply AllocateLocker_spec. exists ctrl, rest. split; [exact Hctrl|].
      split; [done|]. split; [|done].
      by destruct (Hg chosen_id ctrl Hctrl) as (_ & _ & Hb & _). }
    rewrite (bind_eq _ _ _ _ _ HAlloc).
    assert (Hp2 : packages w2 !! pkg = Some (Package.with_StoredIn pv (Some (PoolLocker i)))).
    { change (<[pkg := Package.with_StoredIn pv (Some (PoolLocker i))]> (packages w) !! pkg
              = Some (Package.with_StoredIn pv (Some (PoolLocker i)))).
      apply lookup_insert_eq. }
    rewrite (bind_eq _ _ _ _ _ (load_pkg_Some _ _ _ Hp2)).
    rewrite (bind_eq _ _ _ _ _ (get_inv_eq _)).
    unfold bind at 1. unfold put_inv at 1.
    unfold bind at 1. rewrite load_locker_eq.
    match goal with |- context [index ?L i] =>
      assert (HLi : index L i = Some (Locker.with_Contents lv (Some pkg))) end.
    { change (index (<[Z.to_nat i := Locker.with_Contents lv (Some pkg)]>
                       (Inventory.Lockers (inventory w))) i
              = Some (Locker.with_Contents lv (Some pkg))).
      by eapply index_insert_eq. }
    rewrite HLi. cbn. by eauto.
Qed.

Lemma GetMostSuitableLockerSize_Ok_candidate order package_size w chosen_id w' :
  order ≡ₚ map_to_list (Inventory.Sizes (inventory w)) →
  GetMostSuitableLockerSize order package_size w = Some (Ok chosen_id, w') →
  w' = w ∧ candidate (inventory w) package_size chosen_id.
Proof.
  intros Hperm H.
  destruct (GetMostSuitableLockerSize_inv _ _ _ _ _ H) as (-> & l & Hl & Hr).
  split; [done|].
  destruct (candidate_sizes_inv _ _ _ _ _ Hl) as [_ Hcand].
  destruct l as [|first others]; [done|].
  destruct Hr as (c & [= <-] & Hc).
  destruct (Hcand first) as [(s & cf & _ & _ & Hcf & _) _]; [by left|].
  destruct (choose_inv _ _ _ _ _ (ltac:(eauto)) Hc) as (_ & Hin & _).
  apply (candidate_order _ order); [done|]. by apply Hcand.
Qed.

(** X10.  On a well-formed state, [DepositPackage] (revision
    [src/unnamed/part_000]) never panics and leaves the state well formed:
    the containment lists, the exact virtual capacities, the free lists
    that hold exactly the empty lockers, the links between lockers and
    packages and the registry of package identifiers all survive.  It
    stores the package exactly when the identifier is not registered, some
    class with a free locker contains the normalized size, and the package
    is not already in a locker. *)
Theorem Part000_DepositPackage_well_formed order pkg (w : World) pv :
  well_formed w →
  order ≡ₚ map_to_list (Inventory.Sizes (inventory w)) →
  packages w !! pkg = Some pv →
  ∃ r w',
    Part000.DepositPackage order pkg w = Some (r, w')
    ∧ well_formed w'
    ∧ ((∃ lid, r = Ok lid)
       ↔ Inventory.LockersByPackageId (inventory w) !! Package.Id pv = None
         ∧ (∃ id, candidate (inventory w) (Normalize (Package.Size pv)) id)
         ∧ Package.StoredIn pv = None).
Proof.
  intros Hwf Hperm Hp.
  destruct (Inventory.LockersByPackageId (inventory w) !! Package.Id pv) as [k|] eqn:Hdup.
  { destruct (DepositPackage_duplicate order pkg w pv Hp) as [_ H]; [by rewrite Hdup|].
    eexists _, _. split; [exact H|]. split; [done|].
    split; [by intros [? [=]]|by intros [[=] _]]. }
  pose proof Hwf as (_ & Hctl & _).
  destruct (GetMostSuitableLockerSize_total order (Normalize (Package.Size pv)) w
              Hperm Hctl) as (l & Hcand & Hres).
  destruct l as [|first others].
  { destruct (DepositPackage_no_locker order pkg w pv Hp Hdup Hres) as [_ H].
    eexists _, _. split; [exact H|]. split; [done|].
    split; [by intros [? [=]]|]. intros (_ & [id Hid] & _).
    apply Hcand in Hid. by apply elem_of_nil in Hid. }
  destruct Hres as [chosen HG].
  destruct (GetMostSuitableLockerSize_Ok_candidate _ _ _ _ _ Hperm HG) as [_ Hchosen].
  pose proof (Part000_DepositPackage_runs order pkg w pv chosen Hwf Hp Hdup HG Hchosen)
    as Hrun.
  destruct (Package.StoredIn pv) eqn:Hst.
  - eexists _, _. split; [exact Hrun|]. split; [done|].
    split; [by intros [? [=]]|by intros (_ & _ & [=])].
  - destruct Hrun as (lid & w' & Hrun). exists (Ok lid), w'.
    split; [exact Hrun|]. split; [by eapply Part000_DepositPackage_keeps|].
    split; [|by eauto]. intros _. split; [done|]. split; [by exists chosen|done].
Qed.

Lemma Part000_DepositPackage_well_formed_witness :
  ∃ lid w',
    Part000.DepositPackage example_order 1%positive example_world = Some (Ok lid, w')
    ∧ well_formed w'.
Proof.
  assert (Hwf : well_formed example_world)
    by (refine (bool_decide_unpack _ _); vm_compute; exact I).
  assert (Hperm : example_order ≡ₚ map_to_list (Inventory.Sizes (inventory example_world)))
    by reflexivity.
  assert (Hp : packages example_world !! 1%positive
               = Some (Package.mk "parcel" (mkSizeSpec 2 1 4) None))
    by (vm_compute; reflexivity).
  destruct (Part000_DepositPackage_well_formed example_order 1%positive example_world _
              Hwf Hperm Hp) as (r & w' & Hdep & Hwf' & Hok).
  destruct r as [lid|e].
  - exists lid, w'. split; [exact Hdep|exact Hwf'].
  - exfalso. vm_compute in Hdep. discriminate.
Defined.

(** X11.  A successful [DepositPackage] (revision [src/unnamed/part_000])
    puts the package into a locker that was empty and that is big enough:
    the returned identifier is that of a locker whose size class contains
    the normalized size of the package; afterwards the locker holds the
    package, the package points back to the locker, the package identifier
    is registered for the locker, and no other locker and no other package
    has changed. *)
Theorem Part000_DepositPackage_places order pkg (w : World) lid w' :
  free_typed (inventory w) →
  order ≡ₚ map_to_list (Inventory.Sizes (inventory w)) →
  Part000.DepositPackage order pkg w = Some (Ok lid, w') →
  ∃ i lv pv size,
    packages w !! pkg = Some pv
    ∧ index (Inventory.Lockers (inventory w)) i = Some lv
    ∧ Locker.Id lv = lid
    ∧ Locker.Contents lv = None
    ∧ Inventory.Sizes (inventory w) !! size = Some (Locker.SizeId lv)
    ∧ Contains size (Normalize (Package.Size pv)) = true
    ∧ index (Inventory.Lockers (inventory w')) i = Some (Locker.with_Contents lv (Some pkg))
    ∧ packages w' !! pkg = Some (Package.with_StoredIn pv (Some (PoolLocker i)))
    ∧ Inventory.LockersByPackageId (inventory w') !! Package.Id pv = Some i
    ∧ (∀ j, j ≠ i →
         index (Inventory.Lockers (inventory w')) j
         = index (Inventory.Lockers (inventory w)) j)
    ∧ (∀ q, q ≠ pkg → packages w' !! q = packages w !! q).
Proof.
  intros Hty Hperm Hdep.
  apply Part000_DepositPackage_success in Hdep
    as (pv & S & c & rest & i & lv & Hp & Hst & Hdup & HG & Hc & Hrest & Hall
        & Hlv & Hcont & -> & ->).
  destruct (GetMostSuitableLockerSize_Ok_candidate _ _ _ _ _ Hperm HG)
    as [_ (size & ctrl & Hsize & Hfits & _)].
  pose proof (proj1 (index_Some _ _ _) Hlv) as [Hi0 _].
  assert (Hsz : Locker.SizeId lv = S).
  { assert (Hin : i ∈ LockerControlSpec.Lockers c).
    { rewrite Hrest. apply elem_of_app. right. by left. }
    pose proof (free_typed_index _ _ _ _ Hty Hc Hin) as H. rewrite Hlv in H.
    by injection H. }
  exists i, lv, pv, size.
  split; [done|]. split; [done|]. split; [done|]. split; [done|].
  split; [by rewrite Hsz|]. split; [done|].
  split.
  { change (index (<[Z.to_nat i := Locker.with_Contents lv (Some pkg)]>
                     (Inventory.Lockers (inventory w))) i
            = Some (Locker.with_Contents lv (Some pkg))).
    by eapply index_insert_eq. }
  split.
  { change (<[pkg := Package.with_StoredIn pv (Some (PoolLocker i))]> (packages w) !! pkg
            = Some (Package.with_StoredIn pv (Some (PoolLocker i)))).
    apply lookup_insert_eq. }
  split.
  { change (<[Package.Id pv := i]> (Inventory.LockersByPackageId (inventory w))
              !! Package.Id pv = Some i).
    apply lookup_insert_eq. }
  split.
  - intros j Hj.
    change (index (<[Z.to_nat i := Locker.with_Contents lv (Some pkg)]>
                     (Inventory.Lockers (inventory w))) j
            = index (Inventory.Lockers (inventory w)) j).
    apply index_insert_ne; [congruence|done].
  - intros q Hq.
    change (<[pkg := Package.with_StoredIn pv (Some (PoolLocker i))]> (packages w) !! q
            = packages w !! q).
    by apply lookup_insert_ne.
Qed.

Lemma Part000_DepositPackage_places_witness :
  ∃ w' i lv size,
    Part000.DepositPackage example_order 1%positive example_world = Some (Ok "7", w')
    ∧ index (Inventory.Lockers (inventory example_world)) i = Some lv
    ∧ Locker.Id lv = "7"%string
    ∧ Inventory.Sizes (inventory example_world) !! size = Some (Locker.SizeId lv)
    ∧ Contains size (Normalize (mkSizeSpec 2 1 4)) = true.
Proof.
  assert (Hty : free_typed (inventory example_world))
    by (refine (bool_decide_unpack _ _); vm_compute; exact I).
  assert (Hperm : example_order ≡ₚ map_to_list (Inventory.Sizes (inventory example_world)))
    by reflexivity.
  destruct (Part000.DepositPackage example_order 1%positive example_world)
    as [[[lid|e] w']|] eqn:Hdep; [|vm_compute in Hdep; discriminate..].
  assert (Hlid : lid = "7"%string) by (vm_compute in Hdep; congruence).
  subst lid.
  destruct (Part000_DepositPackage_places example_order 1%positive example_world "7" w'
              Hty Hperm Hdep)
    as (i & lv & pv & size & Hp & Hlv & Hid & _ & Hsize & Hfits & _).
  assert (Hpv : pv = Package.mk "parcel" (mkSizeSpec 2 1 4) None)
    by (vm_compute in Hp; congruence).
  subst pv.
  exists w', i, lv, size.
  split; [reflexivity|]. split; [exact Hlv|]. split; [exact Hid|].
  split; [exact Hsize|exact Hfits].
Defined.

Lemma Part000_RetrievePackageInternal_runs i w lv :
  well_formed w →
  index (Inventory.Lockers (inventory w)) i = Some lv →
  match Locker.Contents lv with
  | None => Part000.RetrievePackageInternal i true w
            = Some (Err "Tried to fetch from empty locker", w)
  | Some p => ∃ w', Part000.RetrievePackageInternal i true w = Some (Ok p, w')
  end.
Proof.
  intros (Hg & Hctl & Hcap & Hvc & Hty & Hfree & Hlinked & Hregs & Hids & Hlen) Hlv.
  unfold Part000.RetrievePackageInternal. cbn [negb].
  destruct (Locker.Contents lv) as [p|] eqn:Hcont.
  2:{ assert (HF : Fetch i w = Some (Err "Tried to fetch from empty locker", w)).
      { apply Fetch_spec. exists lv. split; [done|]. by rewrite Hcont. }
      by rewrite (bind_eq _ _ _ _ _ HF). }
  destruct (proj1 (points_back_iff _ _ _) (proj1 (linked_index w) Hlinked i lv Hlv) p Hcont)
    as (pv & Hp & _).
  set (lvN := Locker.with_Contents lv None).
  set (pvN := Package.with_StoredIn pv None).
  set (w0 := set_pkg p pvN (set_locker i lvN w)).
  assert (HF : Fetch i w = Some (Ok p, w0)).
  { apply Fetch_spec. exists lv. split; [done|]. rewrite Hcont. by exists pv. }
  rewrite (bind_eq _ _ _ _ _ HF).
  pose proof (free_exact_accounted _ _ _ Hfree Hlv) as Hacc.
  unfold locker_accounted in Hacc.
  destruct (Inventory.Control (inventory w) !! Locker.SizeId lv) as [cs|] eqn:Hcs;
    [|congruence].
  set (w1 := upd_control
               (adjust_all (Locker.SizeId lv :: LockerControlSpec.BiggerThan cs) 1
                ∘ <[Locker.SizeId lv := LockerControlSpec.with_Lockers cs
                                           (LockerControlSpec.Lockers cs ++ [i])]>) w0).
  assert (HD : DeallocateLocker i w0 = Some (tt, w1)).
  { apply DeallocateLocker_spec. exists lvN, cs. split.
    { change (index (<[Z.to_nat i := lvN]> (Inventory.Lockers (inventory w))) i = Some lvN).
      by eapply index_insert_eq. }
    split; [exact Hcs|]. split; [|done].
    by destruct (Hg _ cs Hcs) as (_ & _ & Hb & _). }
  rewrite (bind_eq _ _ _ _ _ HD).
  assert (Hp1 : packages w1 !! p = Some pvN).
  { change (<[p := pvN]> (packages w) !! p = Some pvN). apply lookup_insert_eq. }
  rewrite (bind_eq _ _ _ _ _ (load_pkg_Some _ _ _ Hp1)).
  rewrite (bind_eq _ _ _ _ _ (get_inv_eq _)).
  unfold bind, put_inv, ret. by eauto.
Qed.

(** X12.  On a well-formed state the retrievals of revision
    [src/unnamed/part_000] never panic and leave the state well formed.
    [RetrievePackageById] returns a package exactly when the identifier is
    registered, and the package it returns bears that identifier;
    [RetrievePackageByLockerId] returns a package exactly when the
    identifier is that of a locker that holds one. *)
Theorem Part000_RetrievePackage_well_formed (w : World) (id : string) :
  well_formed w →
  (∃ r w',
     Part000.RetrievePackageById id w = Some (r, w')
     ∧ well_formed w'
     ∧ ((∃ p, r = Ok p) ↔ is_Some (Inventory.LockersByPackageId (inventory w) !! id))
     ∧ (∀ p, r = Ok p → Package.Id <$> packages w !! p = Some id))
  ∧ (∃ r w',
       Part000.RetrievePackageByLockerId id w = Some (r, w')
       ∧ well_formed w'
       ∧ ((∃ p, r = Ok p)
          ↔ ∃ i, Inventory.LockersById (inventory w) !! id = Some i
                 ∧ is_Some (stored_at w i))).
Proof.
  intros Hwf. split.
  - unfold Part000.RetrievePackageById.
    rewrite (bind_eq _ _ _ _ _ (get_inv_eq _)).
    destruct (Inventory.LockersByPackageId (inventory w) !! id) as [i|] eqn:Hreg.
    2:{ rewrite (comma_ok_None _ _ Hreg). cbn [negb Part000.RetrievePackageInternal].
        eexists _, _. split; [reflexivity|]. split; [done|].
        split; [|by intros p [=]]. split; [by intros [p [=]]|by intros [? [=]]]. }
    rewrite (comma_ok_Some _ _ _ Hreg).
    pose proof Hwf as (_ & _ & _ & _ & _ & _ & _ & [_ Hmap] & _).
    destruct (proj1 (holds_iff _ _ _) (Hmap id i Hreg)) as (l & q & qv & Hl & Hq & Hqv & Hid).
    pose proof (Part000_RetrievePackageInternal_runs i w l Hwf Hl) as Hrun.
    rewrite Hq in Hrun. destruct Hrun as [w' Hrun].
    exists (Ok q), w'. split; [exact Hrun|].
    split; [by eapply Part000_RetrievePackageInternal_keeps|].
    split; [split; by eauto|].
    intros p [= <-]. by rewrite Hqv, <- Hid.
  - unfold Part000.RetrievePackageByLockerId.
    rewrite (bind_eq _ _ _ _ _ (get_inv_eq _)).
    destruct (Inventory.LockersById (inventory w) !! id) as [i|] eqn:Hreg.
    2:{ rewrite (comma_ok_None _ _ Hreg). cbn [negb Part000.RetrievePackageInternal].
        eexists _, _. split; [reflexivity|]. split; [done|].
        split; [by intros [p [=]]|by intros (? & [=] & _)]. }
    rewrite (comma_ok_Some _ _ _ Hreg).
    pose proof Hwf as (_ & _ & _ & _ & _ & _ & Hlinked & _ & Hids & _).
    destruct (Hids id i Hreg) as [lv Hlv].
    pose proof (Part000_RetrievePackageInternal_runs i w lv Hwf Hlv) as Hrun.
    destruct (Locker.Contents lv) as [p|] eqn:Hcont.
    + destruct Hrun as [w' Hrun]. exists (Ok p), w'. split; [exact Hrun|].
      split; [by eapply Part000_RetrievePackageInternal_keeps|].
      split; [|by eauto]. intros _. exists i. split; [done|].
      destruct (proj1 (points_back_iff _ _ _) (proj1 (linked_index w) Hlinked i lv Hlv)
                  p Hcont) as (pv & Hp & _).
      exists pv. apply stored_at_Some. by exists lv, p.
    + eexists _, _. split; [exact Hrun|]. split; [done|].
      split; [by intros [p [=]]|].
      intros (i' & [= <-] & [pv (l & p & Hl & Hp & _)%stored_at_Some]). congruence.
Qed.

Lemma Part000_RetrievePackage_well_formed_witness :
  ∃ w', Part000.RetrievePackageById "parcel" example_deposited = Some (Ok 1%positive, w')
        ∧ well_formed w'.
Proof.
  assert (Hwf : well_formed example_deposited)
    by (refine (bool_decide_unpack _ _); vm_compute; exact I).
  destruct (Part000_RetrievePackage_well_formed example_deposited "parcel" Hwf)
    as [(r & w' & Hret & Hwf' & _) _].
  destruct r as [p|e].
  - assert (Hp : p = 1%positive) by (vm_compute in Hret; congruence).
    subst p. exists w'. split; [exact Hret|exact Hwf'].
  - exfalso. vm_compute in Hret. discriminate.
Defined.

(** ** The inventory that [NewInventory] returns *)

Lemma NewInventory_unfold uuid range_control entries :
  (∀ m, range_control m ≡ₚ (map_to_list m).*1) →
  NewInventory uuid range_control entries
  = if decide (total_locker_count entries < 0) then None
    else b ← fold_opt (add_size uuid) (first_builder (total_locker_count entries)) entries;
         Some (finished range_control b).
Proof.
  intros Hrange. unfold NewInventory, first_builder.
  pose proof (total_locker_count_ok entries) as Htot.
  set (total := total_locker_count entries) in *.
  case_decide as Hneg; [done|].
  set (inv0 := Inventory.mk _ _ _ _ _).
  destruct (fold_opt (add_size uuid) (mkBuilder inv0 [] 0 0%nat) entries) as [b|] eqn:Hb;
    [|done].
  cbn [mbind option_bind].
  assert (Hbuilt : built b).
  { eapply built_fold; [|exact Hb]. apply built_init.
    unfold int_ok, MAX_INT in *. lia. }
  pose proof (built_classes_by_size b Hbuilt) as Hcls.
  pose proof Hbuilt as (Hnd & Hin & Hsz & Hcl & Hback & _).
  rewrite (relate_all_spec (size_id_of (b_inv b)) (b_inv b) (b_sizes b) (b_sizes b));
    [|done..].
  cbn [mbind option_bind].
  set (idf := size_id_of (b_inv b)).
  assert (Hamend : amend (b_inv b)
            (λ c, if decide (LockerControlSpec.Size c ∈ b_sizes b)
                  then grow idf (b_sizes b) c else c)
          = amend (b_inv b) (grow idf (b_sizes b))).
  { apply amend_ext. intros id c Hc. rewrite decide_True; [done|].
    by apply (proj2 Hcls id c). }
  rewrite Hamend. clear Hamend.
  set (inv2 := amend (b_inv b) (grow idf (b_sizes b))).
  rewrite seed_fold; [reflexivity| |].
  - rewrite Hrange. apply NoDup_fst_map_to_list.
  - intros k Hk. rewrite Hrange in Hk.
    apply list_elem_of_fmap in Hk as ([k' c] & -> & Hkc). cbn.
    apply elem_of_map_to_list in Hkc. exists c. split; [done|].
    unfold inv2, amend in Hkc. cbn in Hkc. rewrite lookup_fmap in Hkc.
    destruct (Inventory.Control (b_inv b) !! k') as [c0|] eqn:Hc0; [|done].
    injection Hkc as <-.
    pose proof (Hback _ _ Hc0) as Hs0.
    destruct (Hcl _ _ Hs0) as (_ & c0' & Hc0' & _ & _ & Hsm & _).
    rewrite Hc0 in Hc0'. injection Hc0' as <-.
    cbn. rewrite Hsm. cbn. apply Forall_fmap, Forall_forall.
    intros t Ht. cbn. unfold smalls in Ht. apply list_elem_of_filter in Ht as [_ Ht].
    destruct (proj1 Hcls t Ht) as (ct & Hct & _).
    unfold inv2, amend. cbn. rewrite lookup_fmap. fold idf in Hct. rewrite Hct. by eauto.
Qed.

Lemma NewInventory_Some uuid range_control entries inv :
  (∀ m, range_control m ≡ₚ (map_to_list m).*1) →
  NewInventory uuid range_control entries = Some inv ↔
  0 ≤ total_locker_count entries
  ∧ ∃ b, fold_opt (add_size uuid) (first_builder (total_locker_count entries)) entries
         = Some b
         ∧ inv = finished range_control b.
Proof.
  intros Hrange. rewrite (NewInventory_unfold _ _ _ Hrange).
  case_decide as Hneg.
  - split; [done|]. intros [? _]. lia.
  - destruct (fold_opt _ _ _) as [b|]; cbn.
    + split.
      * intros [= <-]. split; [lia|]. by exists b.
      * by intros (_ & b' & [= <-] & ->).
    + split; [done|]. by intros (_ & ? & [=] & _).
Qed.

Lemma built_first_builder total :
  0 ≤ total ≤ MAX_INT → built (first_builder total).
Proof. intros H. apply built_init. lia. Qed.

Section first_loop.
Variable uuid : nat → string.
Variable P : builder → Prop.
Hypothesis P_new_class :
  ∀ inv sizes idx d s,
    built (mkBuilder inv sizes idx d) → P (mkBuilder inv sizes idx d) →
    Inventory.Sizes inv !! s = None →
    P (mkBuilder
         (Inventory.with_Control
            (Inventory.with_Sizes inv
               (<[s := Z.of_nat (base.size (Inventory.Sizes inv)) + 1]> (Inventory.Sizes inv)))
            (<[Z.of_nat (base.size (Inventory.Sizes inv)) + 1
               := LockerControlSpec.mk (Z.of_nat (base.size (Inventory.Sizes inv)) + 1)
                    s [] [] [] 0]>
               (Inventory.Control inv)))
         (sizes ++ [s]) idx d).
Hypothesis P_new_locker :
  ∀ inv sizes idx d size_id s inv' d',
    built (mkBuilder inv sizes idx d) → P (mkBuilder inv sizes idx d) →
    Inventory.Sizes inv !! s = Some size_id →
    new_locker uuid size_id (inv, d) idx = Some (inv', d') →
    P (mkBuilder inv' sizes (idx + 1) d').

Lemma first_loop_lockers sizes size_id s n :
  ∀ idx inv d inv' d',
    built (mkBuilder inv sizes idx d) → P (mkBuilder inv sizes idx d) →
    Inventory.Sizes inv !! s = Some size_id →
    fold_opt (new_locker uuid size_id) (inv, d) (seqZ idx (Z.of_nat n)) = Some (inv', d') →
    P (mkBuilder inv' sizes (idx + Z.of_nat n) d').
Proof.
  induction n as [|n IH]; intros idx inv d inv' d' Hb HP Hs Hfold.
  - cbn in Hfold. injection Hfold as <- <-.
    by replace (idx + Z.of_nat 0) with idx by lia.
  - rewrite seqZ_cons in Hfold by lia. rewrite fold_opt_cons in Hfold.
    destruct (new_locker uuid size_id (inv, d) idx) as [[inv1 d1]|] eqn:Hnew;
      cbn in Hfold; [|done].
    destruct (built_new_locker _ _ _ _ _ _ _ _ _ Hb Hs Hnew) as [Hb1 Hsz].
    pose proof (P_new_locker _ _ _ _ _ _ _ _ Hb HP Hs Hnew) as HP1.
    replace (Z.pred (Z.of_nat (S n))) with (Z.of_nat n) in Hfold by lia.
    replace (idx + Z.of_nat (S n)) with (Z.succ idx + Z.of_nat n) by lia.
    eapply IH; [exact Hb1|exact HP1| |exact Hfold]. by rewrite Hsz.
Qed.

Lemma first_loop_add_size b entry b' :
  built b → P b → add_size uuid b entry = Some b' → P b'.
Proof.
  destruct b as [inv sizes idx d]. destruct entry as [size count].
  intros Hb HP. unfold add_size. cbn.
  set (s := Normalize size).
  set (max := int_add count idx).
  assert (Hloop : ∀ inv1 sizes1 size_id,
    built (mkBuilder inv1 sizes1 idx d) → P (mkBuilder inv1 sizes1 idx d) →
    Inventory.Sizes inv1 !! s = Some size_id →
    ∀ b', ('(inv2, n) ← fold_opt (new_locker uuid size_id) (inv1, d) (seqZ idx (max - idx));
           Some (mkBuilder inv2 sizes1 (Z.max idx max) n)) = Some b' →
    P b').
  { intros inv1 sizes1 size_id Hb1 HP1 Hs1 b''.
    destruct (fold_opt (new_locker uuid size_id) (inv1, d) (seqZ idx (max - idx)))
      as [[inv2 n]|] eqn:Hfold; [|done].
    cbn. intros [= <-].
    destruct (decide (max - idx ≤ 0)) as [Hle|Hgt].
    - rewrite seqZ_nil in Hfold by done. cbn in Hfold. injection Hfold as <- <-.
      by rewrite Z.max_l by lia.
    - replace (max - idx) with (Z.of_nat (Z.to_nat (max - idx))) in Hfold by lia.
      pose proof (first_loop_lockers _ _ _ _ _ _ _ _ _ Hb1 HP1 Hs1 Hfold) as HP2.
      replace (idx + Z.of_nat (Z.to_nat (max - idx))) with (Z.max idx max) in HP2 by lia.
      done. }
  destruct (Inventory.Sizes inv !! s) as [size_id|] eqn:Hs; cbn.
  - by apply Hloop.
  - case_decide; [done|]. cbn. apply Hloop.
    + by apply built_new_class.
    + by apply P_new_class.
    + cbn. apply lookup_insert_eq.
Qed.

Lemma first_loop_ind entries :
  ∀ b b', built b → P b → fold_opt (add_size uuid) b entries = Some b' → P b'.
Proof.
  induction entries as [|e entries IH]; intros b b' Hb HP.
  - cbn. by intros [= <-].
  - rewrite fold_opt_cons.
    destruct (add_size uuid b e) as [b1|] eqn:H1; cbn; [|done].
    apply IH; [by eapply built_add_size|by eapply first_loop_add_size].
Qed.

End first_loop.

Lemma index_replicate {A} n (x y : A) i : index (replicate n x) i = Some y → y = x.
Proof. intros [_ H]%index_Some. by apply lookup_replicate in H as [-> _]. Qed.

Lemma initialised_first_builder uuid total : initialised uuid (first_builder total).
Proof.
  unfold initialised, first_builder. cbn.
  split; [done|].
  split; [by intros i l ->%index_replicate|].
  split; [by intros i l ->%index_replicate _|].
  split; [intros; lia|].
  split; [by intros id c|].
  split; [done|].
  split; [by intros id i|]. intros _ i ?. lia.
Qed.

Lemma initialised_new_class uuid inv sizes idx d s :
  built (mkBuilder inv sizes idx d) → initialised uuid (mkBuilder inv sizes idx d) →
  Inventory.Sizes inv !! s = None →
  initialised uuid
    (mkBuilder
       (Inventory.with_Control
          (Inventory.with_Sizes inv
             (<[s := Z.of_nat (base.size (Inventory.Sizes inv)) + 1]> (Inventory.Sizes inv)))
          (<[Z.of_nat (base.size (Inventory.Sizes inv)) + 1
             := LockerControlSpec.mk (Z.of_nat (base.size (Inventory.Sizes inv)) + 1)
                  s [] [] [] 0]>
             (Inventory.Control inv)))
       (sizes ++ [s]) idx d).
Proof.
  intros (Hnd & Hin & Hsz & Hcls & Hback & Hidx & Htot & Hfree & Hmax)
    (Hd & Hempty & Hzero & Hdone & Hdup & Hreg & Hby & Hinj) Hs.
  cbn in *.
  set (size_id := Z.of_nat (base.size (Inventory.Sizes inv)) + 1).
  assert (Hfresh : Inventory.Control inv !! size_id = None).
  { destruct (Inventory.Control inv !! size_id) as [c|] eqn:Hc; [|done].
    apply Hback in Hc. apply Hcls in Hc as [Hr _]. unfold size_id in Hr. lia. }
  unfold initialised. cbn.
  split; [done|]. split; [done|]. split; [done|].
  split.
  { intros i l Hl Hi. destruct (Hdone i l Hl Hi) as (Hid & c & Hc & Hic).
    split; [done|]. exists c. split; [|done].
    rewrite lookup_insert_ne; [done|]. congruence. }
  split.
  { intros id c. rewrite lookup_insert. case_decide.
    - intros [= <-]. cbn. constructor.
    - apply Hdup. }
  done.
Qed.

Lemma initialised_new_locker uuid inv sizes idx d size_id s inv' d' :
  built (mkBuilder inv sizes idx d) → initialised uuid (mkBuilder inv sizes idx d) →
  Inventory.Sizes inv !! s = Some size_id →
  new_locker uuid size_id (inv, d) idx = Some (inv', d') →
  initialised uuid (mkBuilder inv' sizes (idx + 1) d').
Proof.
  intros (Hnd & Hin & Hsz & Hcls & Hback & Hidx & Htot & Hfree & Hmax)
    (Hd & Hempty & Hzero & Hdone & Hdup & Hreg & Hby & Hinj) Hs Hnew.
  cbn in *.
  apply new_locker_Some in Hnew as (l0 & c & Hl0 & Hc & [= -> ->]).
  pose proof (index_lt _ _ _ Hl0) as Hlt.
  assert (Hn : d = Z.to_nat idx) by lia.
  unfold initialised. cbn.
  split; [lia|].
  split.
  { intros i l. destruct (decide (idx = i)) as [<-|Hne].
    - rewrite (index_insert_eq _ _ _ _ Hl0). by intros [= <-].
    - rewrite index_insert_ne by lia. apply Hempty. }
  split.
  { intros i l Hl Hi. rewrite index_insert_ne in Hl by lia. apply (Hzero i l Hl). lia. }
  split.
  { intros i l. destruct (decide (idx = i)) as [<-|Hne].
    - rewrite (index_insert_eq _ _ _ _ Hl0). intros [= <-] _. cbn.
      split; [by rewrite Hn|]. rewrite lookup_insert_eq.
      eexists. split; [done|]. cbn. apply elem_of_app. right. by left.
    - rewrite index_insert_ne by lia. intros Hl Hi.
      destruct (Hdone i l Hl ltac:(lia)) as (Hid & c0 & Hc0 & Hic).
      split; [done|].
      destruct (decide (Locker.SizeId l = size_id)) as [Heq|Hneq].
      + rewrite Heq in *. rewrite lookup_insert_eq. rewrite Hc in Hc0. injection Hc0 as <-.
        eexists. split; [done|]. cbn. apply elem_of_app. by left.
      + rewrite lookup_insert_ne by done. by exists c0. }
  split.
  { intros id c'. rewrite lookup_insert. case_decide as Hid.
    - intros [= <-]. cbn. apply NoDup_snoc. split; [|by apply (Hdup size_id)].
      intros Hin'. pose proof (Hfree size_id c Hc) as Hall.
      rewrite Forall_forall in Hall. destruct (Hall idx Hin') as [? _]. lia.
    - apply Hdup. }
  split; [done|].
  split.
  { intros id i. rewrite lookup_insert. case_decide as Hid.
    - intros [= <-]. split; [lia|]. by rewrite <- Hid, Hn.
    - intros Hi. destruct (Hby id i Hi). split; [lia|done]. }
  intros Huniq i Hi.
  destruct (decide (idx = i)) as [<-|Hne].
  - rewrite <- Hn. apply lookup_insert_eq.
  - rewrite lookup_insert_ne.
    + apply (Hinj Huniq). lia.
    + intros Heq. apply Huniq in Heq. lia.
Qed.

Lemma initialised_fold uuid entries b b' :
  built b → initialised uuid b →
  fold_opt (add_size uuid) b entries = Some b' →
  built b' ∧ initialised uuid b'.
Proof.
  intros Hb Hi Hfold. split; [by eapply built_fold|].
  eapply (first_loop_ind uuid (initialised uuid)); [| |exact Hb|exact Hi|exact Hfold].
  - intros. by apply initialised_new_class.
  - intros. by eapply initialised_new_locker.
Qed.

Lemma index_is_Some {A} (L : list A) i : 0 ≤ i < len L → is_Some (index L i).
Proof.
  intros Hi. unfold index. rewrite decide_True by lia.
  apply lookup_lt_is_Some. unfold len in Hi. lia.
Qed.

Lemma finished_starts_well_formed uuid range_control b pkgs :
  (∀ m, range_control m ≡ₚ (map_to_list m).*1) →
  built b → initialised uuid b →
  well_formed (mkWorld (finished range_control b) pkgs).
Proof.
  intros Hrange Hbuilt (Hd & Hempty & Hzero & Hdone & Hdup & Hreg & Hby & Hinj).
  destruct (finished_well_formed range_control b Hrange Hbuilt) as (Hg & Hctl & Hty & Hvc).
  pose proof Hbuilt as (_ & _ & _ & Hcls & Hback & Hidx & _ & Hfree & Hmax).
  assert (HL : Inventory.Lockers (finished range_control b) = Inventory.Lockers (b_inv b))
    by reflexivity.
  unfold well_formed. cbn [inventory packages].
  split; [done|]. split; [done|].
  split.
  { apply capacity_exact_lists; [done|]. intros X cx Hcx.
    by destruct (finished_capacity range_control Hrange b Hbuilt X cx Hcx). }
  split; [done|]. split; [done|].
  split.
  { split.
    - intros S c Hc. cbn.
      destruct (finished_block range_control Hrange b Hbuilt _ _ Hc)
        as (c0 & Hc0 & _ & _ & _ & Hlk & _).
      rewrite Hlk. split; [by apply (Hdup S)|].
      eapply Forall_impl; [by apply (Hfree S c0)|].
      intros i [_ Hi]. cbn in Hi. rewrite ?HL. apply fmap_Contents_None.
      destruct (index (Inventory.Lockers (b_inv b)) i) as [l|] eqn:Hl; [|done].
      exists l. split; [done|]. by apply (Hempty i).
    - apply accounted_index. intros i l Hl. rewrite ?HL in Hl.
      unfold locker_accounted. rewrite (finished_lookup range_control Hrange b).
      pose proof (index_lt _ _ _ Hl) as Hi.
      destruct (decide (i < b_index b)) as [Hlt|Hge].
      + destruct (Hdone i l Hl ltac:(lia)) as (_ & c0 & Hc0 & Hic).
        rewrite Hc0. cbn. by intros _.
      + rewrite (Hzero i l Hl ltac:(lia)). cbn.
        destruct (Inventory.Control (b_inv b) !! 0) as [c0|] eqn:Hc0; [|done].
        apply Hback in Hc0. apply Hcls in Hc0 as [Hr _]. lia. }
  split.
  { apply linked_index. intros i l Hl. cbn in Hl. rewrite ?HL in Hl.
    unfold points_back. by rewrite (Hempty i l Hl). }
  split.
  { split.
    - apply registered_index. intros i l Hl. cbn in Hl. rewrite ?HL in Hl.
      unfold registered. by rewrite (Hempty i l Hl).
    - cbn. change (Inventory.LockersByPackageId (finished range_control b))
        with (Inventory.LockersByPackageId (b_inv b)).
      rewrite Hreg. apply map_Forall_empty. }
  split.
  { intros id i Hi. cbn. rewrite ?HL.
    change (Inventory.LockersById (finished range_control b))
      with (Inventory.LockersById (b_inv b)) in Hi.
    destruct (Hby id i Hi) as [Hr _]. apply index_is_Some. lia. }
  by rewrite ?HL.
Qed.

Lemma NewInventory_built uuid range_control entries inv :
  (∀ m, range_control m ≡ₚ (map_to_list m).*1) →
  NewInventory uuid range_control entries = Some inv →
  ∃ b, fold_opt (add_size uuid) (first_builder (total_locker_count entries)) entries = Some b
       ∧ built b ∧ initialised uuid b ∧ inv = finished range_control b.
Proof.
  intros Hrange (Htot & b & Hfold & ->)%NewInventory_Some; [|done].
  pose proof (total_locker_count_ok entries) as Hok.
  assert (Hb0 : built (first_builder (total_locker_count entries))).
  { apply built_first_builder. unfold int_ok in Hok. lia. }
  destruct (initialised_fold uuid entries _ b Hb0
              (initialised_first_builder uuid _) Hfold) as [Hb Hi].
  by exists b.
Qed.

(** X13.  The inventory that [NewInventory] returns is well formed,
    whatever the packages of the caller: its containment lists are those of
    the containment relation, its virtual capacities are exact, its free
    lists hold exactly the lockers, which are all empty, no package is
    registered, and [LockersById] maps to lockers of the inventory. *)
Theorem NewInventory_well_formed_state uuid range_control counts inv pkgs :
  (∀ m, range_control m ≡ₚ (map_to_list m).*1) →
  NewInventory uuid range_control counts = Some inv →
  well_formed (mkWorld inv pkgs)
  ∧ Inventory.LockersByPackageId inv = ∅
  ∧ Forall (λ l, Locker.Contents l = None) (Inventory.Lockers inv).
Proof.
  intros Hrange Hnew.
  destruct (NewInventory_built _ _ _ _ Hrange Hnew) as (b & _ & Hb & Hi & ->).
  split; [by eapply finished_starts_well_formed|].
  destruct Hi as (_ & Hempty & _ & _ & _ & Hreg & _).
  split; [exact Hreg|].
  apply Forall_forall. intros l Hl.
  apply list_elem_of_lookup in Hl as [n Hn].
  apply (Hempty (Z.of_nat n) l). apply index_Some. split; [lia|]. by rewrite Nat2Z.id.
Qed.

Lemma NewInventory_well_formed_state_witness :
  well_formed example_world
  ∧ Inventory.LockersByPackageId example_inventory = ∅
  ∧ Forall (λ l, Locker.Contents l = None) (Inventory.Lockers example_inventory).
Proof.
  assert (Hrange : ∀ m, example_range m ≡ₚ (map_to_list m).*1) by (intros m; reflexivity).
  assert (Hnew : NewInventory example_uuid example_range example_counts
                 = Some example_inventory) by (vm_compute; reflexivity).
  exact (NewInventory_well_formed_state example_uuid example_range example_counts
           example_inventory (packages example_world) Hrange Hnew).
Defined.

(** ** [NewInventory] returns, and gives every class the lockers requested *)

Lemma new_lockers_run uuid size_id n :
  ∀ idx inv d c,
    Inventory.Control inv !! size_id = Some c →
    0 ≤ idx → idx + Z.of_nat n ≤ len (Inventory.Lockers inv) →
    ∃ inv' d',
      fold_opt (new_locker uuid size_id) (inv, d) (seqZ idx (Z.of_nat n)) = Some (inv', d')
      ∧ len (Inventory.Lockers inv') = len (Inventory.Lockers inv)
      ∧ Inventory.Sizes inv' = Inventory.Sizes inv
      ∧ ∀ id, free (Inventory.Control inv') id
              = free (Inventory.Control inv) id
                + (if decide (id = size_id) then Z.of_nat n else 0).
Proof.
  induction n as [|n IH]; intros idx inv d c Hc Hidx Hlen.
  - exists inv, d. cbn. split; [done|]. split; [done|]. split; [done|].
    intros id. case_decide; lia.
  - rewrite seqZ_cons by lia. rewrite fold_opt_cons.
    destruct (index_is_Some (Inventory.Lockers inv) idx ltac:(lia)) as [l Hl].
    set (inv1 := Inventory.mk
                   (<[Z.to_nat idx := Locker.mk (uuid d) size_id None]> (Inventory.Lockers inv))
                   (<[size_id := LockerControlSpec.with_Lockers c
                                   (LockerControlSpec.Lockers c ++ [idx])]>
                      (Inventory.Control inv))
                   (Inventory.Sizes inv)
                   (<[uuid d := idx]> (Inventory.LockersById inv))
                   (Inventory.LockersByPackageId inv)).
    assert (Hnew : new_locker uuid size_id (inv, d) idx = Some (inv1, S d)).
    { unfold new_locker. rewrite Hl. cbn. rewrite Hc. reflexivity. }
    rewrite Hnew. cbn [mbind option_bind].
    replace (Z.pred (Z.of_nat (S n))) with (Z.of_nat n) by lia.
    destruct (IH (Z.succ idx) inv1 (S d)
                (LockerControlSpec.with_Lockers c (LockerControlSpec.Lockers c ++ [idx])))
      as (inv' & d' & Hfold & Hlen' & Hsz' & Hfree').
    { unfold inv1. cbn. apply lookup_insert_eq. }
    { lia. }
    { unfold inv1. cbn. rewrite len_insert. lia. }
    exists inv', d'. split; [exact Hfold|].
    split; [rewrite Hlen'; unfold inv1; cbn; apply len_insert|].
    split; [by rewrite Hsz'|].
    intros id. rewrite Hfree'. unfold inv1, free. cbn.
    destruct (decide (id = size_id)) as [->|Hne].
    + rewrite lookup_insert_eq, Hc. cbn. rewrite len_app_1. lia.
    + rewrite lookup_insert_ne by done. lia.
Qed.

Lemma add_size_run uuid b size count :
  built b → 0 ≤ count →
  b_index b + count ≤ len (Inventory.Lockers (b_inv b)) →
  ∃ b',
    add_size uuid b (size, count) = Some b'
    ∧ b_index b' = b_index b + count
    ∧ len (Inventory.Lockers (b_inv b')) = len (Inventory.Lockers (b_inv b))
    ∧ (∀ s, class_free (b_inv b') s
            = class_free (b_inv b) s + (if decide (Normalize size = s) then count else 0))
    ∧ (∀ s, is_Some (Inventory.Sizes (b_inv b') !! s)
            ↔ is_Some (Inventory.Sizes (b_inv b) !! s) ∨ s = Normalize size).
Proof.
  destruct b as [inv sizes idx d]. intros Hb Hcount Hlen. cbn in Hlen.
  pose proof Hb as (Hnd & Hin & Hsz & Hcls & Hback & Hidx & Htot & Hfree & Hmax).
  cbn in Hnd, Hin, Hsz, Hcls, Hback, Hidx, Htot, Hfree, Hmax.
  unfold add_size. cbn [b_inv b_sizes b_index b_drawn].
  set (s0 := Normalize size).
  assert (Hmaxv : int_add count idx = count + idx).
  { unfold int_add. apply wrap_small. unfold int_ok, MIN_INT, MAX_INT in *. lia. }
  rewrite Hmaxv.
  replace (count + idx - idx) with (Z.of_nat (Z.to_nat count)) by lia.
  assert (Hloop : ∀ inv1 sizes1 size_id c,
    Inventory.Control inv1 !! size_id = Some c →
    len (Inventory.Lockers inv1) = len (Inventory.Lockers inv) →
    ∃ b',
      ('(inv2, n) ← fold_opt (new_locker uuid size_id) (inv1, d)
                      (seqZ idx (Z.of_nat (Z.to_nat count)));
       Some (mkBuilder inv2 sizes1 (Z.max idx (count + idx)) n)) = Some b'
      ∧ b_index b' = idx + count
      ∧ len (Inventory.Lockers (b_inv b')) = len (Inventory.Lockers inv)
      ∧ Inventory.Sizes (b_inv b') = Inventory.Sizes inv1
      ∧ ∀ id, free (Inventory.Control (b_inv b')) id
              = free (Inventory.Control inv1) id
                + (if decide (id = size_id) then count else 0)).
  { intros inv1 sizes1 size_id c Hc Hl1.
    destruct (new_lockers_run uuid size_id (Z.to_nat count) idx inv1 d c Hc)
      as (inv2 & d2 & Hfold & Hlen2 & Hsz2 & Hfree2); [lia|lia|].
    rewrite Hfold. cbn. eexists. split; [reflexivity|]. cbn.
    split; [lia|]. split; [by rewrite Hlen2|]. split; [done|].
    intros id. rewrite Hfree2. case_decide; lia. }
  destruct (Inventory.Sizes inv !! s0) as [size_id|] eqn:Hs0; cbn [mbind option_bind].
  - destruct (Hcls s0 size_id Hs0) as (_ & c & Hc & Hsize & _).
    destruct (Hloop inv sizes size_id c Hc eq_refl) as (b' & Hrun & Hi' & Hl' & Hs' & Hf').
    exists b'. split; [exact Hrun|]. split; [done|]. split; [done|]. split.
    + intros s. unfold class_free. rewrite Hs'.
      destruct (Inventory.Sizes inv !! s) as [id|] eqn:Hs; cbn.
      * rewrite Hf'. f_equal.
        destruct (Hcls s id Hs) as (_ & c' & Hc' & Hsize' & _).
        destruct (decide (id = size_id)) as [->|Hne].
        -- rewrite Hc in Hc'. injection Hc' as <-.
           rewrite decide_True; [done|]. congruence.
        -- rewrite decide_False; [done|]. intros <-. congruence.
      * rewrite decide_False; [lia|]. intros <-. congruence.
    + intros s. rewrite Hs'. split; [by left|].
      intros [?| ->]; [done|]. by eauto.
  - rewrite decide_False by lia. cbn [mbind option_bind].
    set (size_id := Z.of_nat (base.size (Inventory.Sizes inv)) + 1).
    assert (Hfresh : Inventory.Control inv !! size_id = None).
    { destruct (Inventory.Control inv !! size_id) as [c|] eqn:Hc; [|done].
      apply Hback in Hc. apply Hcls in Hc as [Hr _]. unfold size_id in Hr. lia. }
    set (inv1 := Inventory.with_Control _ _).
    destruct (Hloop inv1 (sizes ++ [s0]) size_id
                (LockerControlSpec.mk size_id s0 [] [] [] 0))
      as (b' & Hrun & Hi' & Hl' & Hs' & Hf').
    { unfold inv1. cbn. apply lookup_insert_eq. }
    { reflexivity. }
    exists b'. split; [exact Hrun|]. split; [done|]. split; [done|]. split.
    + intros s. unfold class_free. rewrite Hs'. unfold inv1. cbn.
      destruct (decide (s0 = s)) as [<-|Hne].
      * rewrite lookup_insert_eq, Hs0. cbn. rewrite Hf'.
        rewrite decide_True by done. unfold free. cbn. by rewrite lookup_insert_eq.
      * rewrite lookup_insert_ne by done.
        destruct (Inventory.Sizes inv !! s) as [id|] eqn:Hs; cbn; [|lia].
        rewrite Hf'. destruct (Hcls s id Hs) as (Hr & _).
        rewrite decide_False by (unfold size_id; lia).
        unfold free. cbn. rewrite lookup_insert_ne by (unfold size_id; lia). lia.
    + intros s. rewrite Hs'. unfold inv1. cbn.
      rewrite lookup_insert. case_decide as Hd.
      * subst s. split; [by right|by eauto].
      * split; [by left|]. intros [?|?]; [done|congruence].
Qed.

Lemma requested_cons s e entries :
  requested s (e :: entries)
  = (if decide (Normalize e.1 = s) then e.2 else 0) + requested s entries.
Proof.
  unfold requested. rewrite filter_cons. case_decide; [by rewrite sumZ_cons|lia].
Qed.

Lemma sumZ_nonneg_Forall {A} (f : A → Z) l : Forall (λ x, 0 ≤ f x) l → 0 ≤ sumZ f l.
Proof.
  induction 1 as [|x l Hx _ IH]; [done|]. rewrite sumZ_cons. lia.
Qed.

Lemma first_loop_run uuid entries :
  ∀ b,
    built b → Forall (λ e : SizeSpec * Z, 0 ≤ e.2) entries →
    b_index b + sumZ snd entries ≤ len (Inventory.Lockers (b_inv b)) →
    ∃ b',
      fold_opt (add_size uuid) b entries = Some b'
      ∧ b_index b' = b_index b + sumZ snd entries
      ∧ len (Inventory.Lockers (b_inv b')) = len (Inventory.Lockers (b_inv b))
      ∧ (∀ s, class_free (b_inv b') s = class_free (b_inv b) s + requested s entries)
      ∧ (∀ s, is_Some (Inventory.Sizes (b_inv b') !! s)
              ↔ is_Some (Inventory.Sizes (b_inv b) !! s)
                ∨ s ∈ (λ e : SizeSpec * Z, Normalize e.1) <$> entries).
Proof.
  induction entries as [|[size count] entries IH]; intros b Hb Hpos Hlen.
  - exists b. split; [done|]. unfold requested, sumZ. cbn.
    split; [lia|]. split; [done|]. split; [intros; lia|].
    intros s. split; [by left|]. intros [?|?%elem_of_nil]; done.
  - apply Forall_cons in Hpos as [Hcount Hpos]. cbn in Hcount.
    rewrite sumZ_cons in Hlen. cbn [snd] in Hlen.
    pose proof (sumZ_nonneg_Forall snd entries Hpos) as Hsum.
    destruct (add_size_run uuid b size count Hb Hcount ltac:(lia))
      as (b1 & Hadd & Hi1 & Hl1 & Hf1 & Hs1).
    destruct (IH b1) as (b' & Hfold & Hi' & Hl' & Hf' & Hs').
    { by eapply built_add_size. }
    { done. }
    { rewrite Hi1, Hl1. lia. }
    exists b'. rewrite fold_opt_cons, Hadd. cbn [mbind option_bind].
    split; [exact Hfold|].
    split; [rewrite Hi', Hi1, sumZ_cons; cbn [snd]; lia|].
    split; [by rewrite Hl', Hl1|].
    split.
    + intros s. rewrite Hf', Hf1, requested_cons. cbn [fst snd]. lia.
    + intros s. rewrite Hs', Hs1, fmap_cons, elem_of_cons. cbn [fst]. tauto.
Qed.

Lemma total_locker_count_exact entries :
  Forall (λ e : SizeSpec * Z, 0 ≤ e.2) entries →
  sumZ snd entries ≤ MAX_INT →
  total_locker_count entries = sumZ snd entries.
Proof.
  intros Hpos Hmax. unfold total_locker_count.
  assert (H : ∀ acc, 0 ≤ acc → acc + sumZ snd entries ≤ MAX_INT →
            foldl (λ total (entry : SizeSpec * Z), int_add total entry.2) acc entries
            = acc + sumZ snd entries).
  { induction Hpos as [|e entries He Hpos IH]; intros acc Hacc Hle.
    - unfold sumZ. cbn. lia.
    - rewrite sumZ_cons in *. cbn [foldl].
      pose proof (sumZ_nonneg_Forall snd entries Hpos) as Hsum.
      assert (int_add acc e.2 = acc + e.2) as ->.
      { unfold int_add. apply wrap_small. unfold int_ok, MIN_INT, MAX_INT in *. lia. }
      rewrite IH; lia. }
  rewrite H; [lia|lia|lia].
Qed.

Lemma NewInventory_run uuid range_control counts :
  (∀ m, range_control m ≡ₚ (map_to_list m).*1) →
  Forall (λ e : SizeSpec * Z, 0 ≤ e.2) counts →
  sumZ snd counts ≤ MAX_INT →
  ∃ b,
    NewInventory uuid range_control counts = Some (finished range_control b)
    ∧ built b ∧ initialised uuid b
    ∧ b_index b = sumZ snd counts
    ∧ len (Inventory.Lockers (b_inv b)) = sumZ snd counts
    ∧ (∀ s, class_free (b_inv b) s = requested s counts)
    ∧ (∀ s, is_Some (Inventory.Sizes (b_inv b) !! s)
            ↔ s ∈ (λ e : SizeSpec * Z, Normalize e.1) <$> counts).
Proof.
  intros Hrange Hpos Hmax.
  pose proof (sumZ_nonneg_Forall snd counts Hpos) as Hsum.
  pose proof (total_locker_count_exact counts Hpos Hmax) as Htot.
  assert (Hb0 : built (first_builder (sumZ snd counts))).
  { apply built_first_builder. lia. }
  destruct (first_loop_run uuid counts _ Hb0 Hpos) as (b & Hfold & Hi & Hl & Hf & Hs).
  { cbn. unfold len. rewrite length_replicate. lia. }
  cbn in Hi, Hl.
  destruct (initialised_fold uuid counts _ b Hb0 (initialised_first_builder uuid _) Hfold)
    as [Hb Hinit].
  exists b. split.
  { apply NewInventory_Some; [done|]. rewrite Htot. split; [done|]. by exists b. }
  split; [done|]. split; [done|]. split; [lia|].
  split.
  { rewrite Hl. unfold len. rewrite length_replicate. lia. }
  split.
  - intros s. rewrite Hf.
    assert (class_free (b_inv (first_builder (sumZ snd counts))) s = 0) as ->; [|lia].
    unfold class_free, first_builder. cbn. by rewrite lookup_empty.
  - intros s. rewrite Hs. unfold first_builder. cbn. rewrite lookup_empty.
    split; [|by right]. intros [[? [=]]|?]; done.
Qed.



(** X15.  [NewInventory] makes one class for every normalized size among
    the keys of its argument, and gives it as many lockers as the entries
    whose keys have that normal form request in total: denormalized keys
    and keys that are duplicates after normalization are merged (no count
    being negative, and the counts adding up to an int). *)
Theorem NewInventory_classes uuid range_control counts inv :
  (∀ m, range_control m ≡ₚ (map_to_list m).*1) →
  Forall (λ e : SizeSpec * Z, 0 ≤ e.2) counts →
  sumZ snd counts ≤ MAX_INT →
  NewInventory uuid range_control counts = Some inv →
  ∀ s,
    (is_Some (Inventory.Sizes inv !! s) ↔ s ∈ (λ e : SizeSpec * Z, Normalize e.1) <$> counts)
    ∧ ∀ id, Inventory.Sizes inv !! s = Some id →
        ∃ c, Inventory.Control inv !! id = Some c
             ∧ LockerControlSpec.Size c = s
             ∧ len (LockerControlSpec.Lockers c) = requested s counts.
Proof.
  intros Hrange Hpos Hmax Hnew s.
  destruct (NewInventory_run uuid range_control counts Hrange Hpos Hmax)
    as (b & Hnew' & Hb & _ & _ & _ & Hf & Hs).
  rewrite Hnew in Hnew'. injection Hnew' as ->.
  split; [apply Hs|].
  intros id Hid. change (Inventory.Sizes (b_inv b) !! s = Some id) in Hid.
  pose proof Hb as (_ & _ & _ & Hcls & _).
  destruct (Hcls s id Hid) as (_ & c0 & Hc0 & Hsize & _).
  pose proof (finished_lookup range_control Hrange b id) as Hlook.
  rewrite Hc0 in Hlook. cbn in Hlook.
  eexists. split; [exact Hlook|]. cbn. split; [exact Hsize|].
  rewrite <- Hf. unfold class_free. rewrite Hid. cbn. unfold free. by rewrite Hc0.
Qed.

Lemma NewInventory_classes_witness :
  ∃ inv id c,
    NewInventory example_uuid example_range
      [(mkSizeSpec 1 2 3, 2); (mkSizeSpec 3 2 1, 3)] = Some inv
    ∧ Inventory.Sizes inv !! mkSizeSpec 3 2 1 = Some id
    ∧ Inventory.Control inv !! id = Some c
    ∧ len (LockerControlSpec.Lockers c) = 5.
Proof.
  assert (Hrange : ∀ m, example_range m ≡ₚ (map_to_list m).*1) by (intros m; reflexivity).
  assert (Hpos : Forall (λ e : SizeSpec * Z, 0 ≤ e.2)
                   [(mkSizeSpec 1 2 3, 2); (mkSizeSpec 3 2 1, 3)]).
  { repeat constructor; cbn; lia. }
  assert (Hmax : sumZ snd [(mkSizeSpec 1 2 3, 2); (mkSizeSpec 3 2 1, 3)] ≤ MAX_INT).
  { unfold sumZ, MAX_INT. cbn. lia. }
  destruct (NewInventory example_uuid example_range
              [(mkSizeSpec 1 2 3, 2); (mkSizeSpec 3 2 1, 3)]) as [inv|] eqn:Hnew;
    [|vm_compute in Hnew; discriminate].
  destruct (NewInventory_classes example_uuid example_range _ inv Hrange Hpos Hmax Hnew
              (mkSizeSpec 3 2 1)) as [Hkey Hclass].
  destruct (proj2 Hkey) as [id Hid].
  { apply list_elem_of_here. }
  destruct (Hclass id Hid) as (c & Hc & _ & Hlen).
  exists inv, id, c. split; [reflexivity|]. split; [exact Hid|]. split; [exact Hc|].
  exact Hlen.
Defined.

(** ** Negative counts *)

Lemma new_lockers_Sizes uuid size_id l :
  ∀ st st', fold_opt (new_locker uuid size_id) st l = Some st' →
            Inventory.Sizes st'.1 = Inventory.Sizes st.1.
Proof.
  induction l as [|idx l IH]; intros [inv d] st'.
  - cbn. by intros [= <-].
  - rewrite fold_opt_cons.
    destruct (new_locker uuid size_id (inv, d) idx) as [st1|] eqn:Hnew; [|done].
    cbn [mbind option_bind]. intros Hfold. rewrite (IH _ _ Hfold).
    by apply new_locker_Some in Hnew as (? & ? & _ & _ & ->).
Qed.

Lemma add_size_keys uuid b e b' :
  add_size uuid b e = Some b' →
  ∀ s, is_Some (Inventory.Sizes (b_inv b') !! s) →
       is_Some (Inventory.Sizes (b_inv b) !! s) ∨ s = Normalize e.1.
Proof.
  destruct b as [inv sizes idx d], e as [size count]. unfold add_size. cbn.
  destruct (Inventory.Sizes inv !! Normalize size) as [size_id|] eqn:Hs; cbn.
  - destruct (fold_opt _ _ _) as [[inv2 n]|] eqn:Hfold; [|done]. cbn.
    intros [= <-] s. cbn. apply new_lockers_Sizes in Hfold. cbn in Hfold.
    rewrite Hfold. by left.
  - case_decide; [done|]. cbn.
    destruct (fold_opt _ _ _) as [[inv2 n]|] eqn:Hfold; [|done]. cbn.
    intros [= <-] s. cbn. apply new_lockers_Sizes in Hfold. cbn in Hfold.
    rewrite Hfold, lookup_insert. case_decide; [by right|by left].
Qed.

Lemma add_size_negative uuid b size count :
  Inventory.Sizes (b_inv b) !! Normalize size = None → count < 0 →
  add_size uuid b (size, count) = None.
Proof.
  intros Hs Hneg. unfold add_size. rewrite Hs. by rewrite decide_True.
Qed.

Lemma first_loop_negative uuid entries :
  ∀ b,
    (∀ s, is_Some (Inventory.Sizes (b_inv b) !! s) →
          s ∉ (λ e : SizeSpec * Z, Normalize e.1) <$> entries) →
    NoDup ((λ e : SizeSpec * Z, Normalize e.1) <$> entries) →
    Exists (λ e : SizeSpec * Z, e.2 < 0) entries →
    fold_opt (add_size uuid) b entries = None.
Proof.
  induction entries as [|[size count] entries IH]; intros b Hkeys Hnd Hneg.
  - by apply Exists_nil in Hneg.
  - rewrite fmap_cons in Hnd, Hkeys. cbn [fst] in Hnd, Hkeys.
    apply NoDup_cons in Hnd as [Hnew Hnd].
    rewrite fold_opt_cons.
    destruct (add_size uuid b (size, count)) as [b1|] eqn:Hadd; [|done].
    cbn [mbind option_bind].
    apply Exists_cons in Hneg as [Hneg|Hneg].
    + cbn in Hneg. rewrite add_size_negative in Hadd; [done| |done].
      destruct (Inventory.Sizes (b_inv b) !! Normalize size) eqn:Hs; [|done].
      exfalso. apply (Hkeys (Normalize size)); [by rewrite Hs|by left].
    + apply IH; [|done|done].
      intros s Hs Hin.
      destruct (add_size_keys _ _ _ _ Hadd s Hs) as [Hold| ->].
      * apply (Hkeys s Hold). by right.
      * done.
Qed.

(** X16.  [NewInventory] panics on a negative count: when the keys of its
    argument have pairwise distinct normal forms and some count is
    negative, it does not return (the allocation of the free list of the
    new class, or of the array of lockers, faults). *)
Theorem NewInventory_negative_count uuid range_control counts :
  (∀ m, range_control m ≡ₚ (map_to_list m).*1) →
  NoDup ((λ e : SizeSpec * Z, Normalize e.1) <$> counts) →
  Exists (λ e : SizeSpec * Z, e.2 < 0) counts →
  NewInventory uuid range_control counts = None.
Proof.
  intros Hrange Hnd Hneg. rewrite (NewInventory_unfold _ _ _ Hrange).
  case_decide; [done|].
  rewrite first_loop_negative; [done| |done|done].
  intros s. unfold first_builder. cbn. rewrite lookup_empty. by intros [? ?].
Qed.

Lemma NewInventory_negative_count_witness :
  NewInventory example_uuid example_range
    [(mkSizeSpec 1 1 1, 2); (mkSizeSpec 2 2 2, -1); (mkSizeSpec 3 3 3, 4)] = None.
Proof.
  apply NewInventory_negative_count.
  - intros m. reflexivity.
  - cbn. repeat constructor; rewrite ?elem_of_cons, ?elem_of_nil; intros H;
      repeat destruct H as [H|H]; try discriminate H; exact H.
  - apply Exists_cons_tl, Exists_cons_hd. cbn. lia.
Defined.

(** ** The selection does not depend on the order of the range, up to ties *)

Lemma GetMostSuitableLockerSize_Ok_minimal order package_size w chosen_id w' :
  order ≡ₚ map_to_list (Inventory.Sizes (inventory w)) →
  GetMostSuitableLockerSize order package_size w = Some (Ok chosen_id, w') →
  candidate (inventory w) package_size chosen_id
  ∧ ∃ cr, Inventory.Control (inventory w) !! chosen_id = Some cr
          ∧ ∀ x, candidate (inventory w) package_size x →
              ∃ cx, Inventory.Control (inventory w) !! x = Some cx ∧ ¬ sorts_before cx cr.
Proof.
  intros Hperm H.
  destruct (GetMostSuitableLockerSize_inv _ _ _ _ _ H) as (-> & l & Hl & Hr).
  destruct (candidate_sizes_inv _ _ _ _ _ Hl) as [_ Hcand].
  assert (Hcand' : ∀ id, id ∈ l ↔ candidate (inventory w) package_size id).
  { intros id. rewrite Hcand. symmetry. by apply candidate_order. }
  destruct l as [|first others]; [done|].
  destruct Hr as (c & [= <-] & Hc).
  destruct (Hcand first) as [(s & cf & _ & _ & Hcf & _) _]; [by left|].
  destruct (choose_inv _ _ _ _ _ (ltac:(eauto)) Hc) as (_ & Hin & cr & Hcr & Hmin).
  split; [by apply Hcand'|]. exists cr. split; [done|].
  intros x Hx. apply Hmin. by apply Hcand'.
Qed.

(** X17.  Go leaves the order of the range over [inv.Sizes] unspecified,
    and the result of [GetMostSuitableLockerSize] depends on it only
    between tied classes: for two orders of the same map, either both runs
    return the error, or both return a class, and the two classes have the
    same virtual capacity and the same volume. *)
Theorem GetMostSuitableLockerSize_order order1 order2 package_size (w : World) :
  sizes_controlled (inventory w) →
  order1 ≡ₚ map_to_list (Inventory.Sizes (inventory w)) →
  order2 ≡ₚ map_to_list (Inventory.Sizes (inventory w)) →
  (GetMostSuitableLockerSize order1 package_size w
     = Some (Err "No available lockers which can fit package", w)
   ∧ GetMostSuitableLockerSize order2 package_size w
     = Some (Err "No available lockers which can fit package", w))
  ∨ ∃ a b ca cb,
      GetMostSuitableLockerSize order1 package_size w = Some (Ok a, w)
      ∧ GetMostSuitableLockerSize order2 package_size w = Some (Ok b, w)
      ∧ Inventory.Control (inventory w) !! a = Some ca
      ∧ Inventory.Control (inventory w) !! b = Some cb
      ∧ LockerControlSpec.VirtualCapacity ca = LockerControlSpec.VirtualCapacity cb
      ∧ Volume (LockerControlSpec.Size ca) = Volume (LockerControlSpec.Size cb).
Proof.
  intros Hctl Hp1 Hp2.
  destruct (GetMostSuitableLockerSize_total order1 package_size w Hp1 Hctl)
    as (l1 & Hc1 & Hr1).
  destruct (GetMostSuitableLockerSize_total order2 package_size w Hp2 Hctl)
    as (l2 & Hc2 & Hr2).
  destruct l1 as [|f1 o1].
  - left. split; [done|]. destruct l2 as [|f2 o2]; [done|].
    exfalso. apply (elem_of_nil f2). apply Hc1, Hc2. by left.
  - destruct l2 as [|f2 o2].
    { exfalso. apply (elem_of_nil f1). apply Hc2, Hc1. by left. }
    right. destruct Hr1 as [a Ha]. destruct Hr2 as [b Hb].
    destruct (GetMostSuitableLockerSize_Ok_minimal _ _ _ _ _ Hp1 Ha)
      as (Hca & ca & Hcta & Hmina).
    destruct (GetMostSuitableLockerSize_Ok_minimal _ _ _ _ _ Hp2 Hb)
      as (Hcb & cb & Hctb & Hminb).
    destruct (Hmina b Hcb) as (cb' & Hcb' & Hba).
    destruct (Hminb a Hca) as (ca' & Hca' & Hab).
    rewrite Hctb in Hcb'. injection Hcb' as <-.
    rewrite Hcta in Hca'. injection Hca' as <-.
    exists a, b, ca, cb. split; [done|]. split; [done|]. split; [done|]. split; [done|].
    unfold sorts_before in Hba, Hab. lia.
Qed.

Lemma GetMostSuitableLockerSize_order_witness :
  ∃ a b ca cb,
    GetMostSuitableLockerSize example_order (mkSizeSpec 1 1 1) example_world
      = Some (Ok a, example_world)
    ∧ GetMostSuitableLockerSize (reverse example_order) (mkSizeSpec 1 1 1) example_world
      = Some (Ok b, example_world)
    ∧ Inventory.Control (inventory example_world) !! a = Some ca
    ∧ Inventory.Control (inventory example_world) !! b = Some cb
    ∧ LockerControlSpec.VirtualCapacity ca = LockerControlSpec.VirtualCapacity cb
    ∧ Volume (LockerControlSpec.Size ca) = Volume (LockerControlSpec.Size cb).
Proof.
  assert (Hctl : sizes_controlled (inventory example_world))
    by (refine (bool_decide_unpack _ _); vm_compute; exact I).
  assert (Hp1 : example_order ≡ₚ map_to_list (Inventory.Sizes (inventory example_world)))
    by reflexivity.
  assert (Hp2 : reverse example_order
                ≡ₚ map_to_list (Inventory.Sizes (inventory example_world)))
    by apply reverse_Permutation.
  destruct (GetMostSuitableLockerSize_order example_order (reverse example_order)
              (mkSizeSpec 1 1 1) example_world Hctl Hp1 Hp2) as [[Herr _]|H].
  - exfalso. vm_compute in Herr. discriminate.
  - exact H.
Defined.

(** ** Every reachable state is well formed *)

Lemma Part000_RetrievePackageInternal_any_keeps i ok w r w' :
  well_formed w →
  Part000.RetrievePackageInternal i ok w = Some (r, w') →
  well_formed w'.
Proof.
  intros Hwf. destruct ok; [by apply Part000_RetrievePackageInternal_keeps|].
  unfold Part000.RetrievePackageInternal. cbn [negb]. unfold ret. by intros [= _ <-].
Qed.

Lemma Part000_RetrievePackageById_keeps id w r w' :
  well_formed w → Part000.RetrievePackageById id w = Some (r, w') → well_formed w'.
Proof.
  intros Hwf. unfold Part000.RetrievePackageById.
  rewrite (bind_eq _ _ _ _ _ (get_inv_eq _)).
  destruct (comma_ok _ _) as [lid ok]. by apply Part000_RetrievePackageInternal_any_keeps.
Qed.

Lemma Part000_RetrievePackageByLockerId_keeps id w r w' :
  well_formed w → Part000.RetrievePackageByLockerId id w = Some (r, w') → well_formed w'.
Proof.
  intros Hwf. unfold Part000.RetrievePackageByLockerId.
  rewrite (bind_eq _ _ _ _ _ (get_inv_eq _)).
  destruct (comma_ok _ _) as [lid ok]. by apply Part000_RetrievePackageInternal_any_keeps.
Qed.

Lemma Part000_RetrievePackage_keeps pkg w r w' :
  well_formed w → Part000.RetrievePackage pkg w = Some (r, w') → well_formed w'.
Proof.
  intros Hwf. unfold Part000.RetrievePackage. unfold bind at 1. rewrite load_pkg_eq.
  destruct (packages w !! pkg) as [pv|]; [|done]. cbn.
  by apply Part000_RetrievePackageById_keeps.
Qed.

Lemma Part000_DepositPackage_any_keeps order pkg w r w' :
  well_formed w → Part000.DepositPackage order pkg w = Some (r, w') → well_formed w'.
Proof.
  intros Hwf Hdep. destruct r as [lid|e].
  - by eapply Part000_DepositPackage_keeps.
  - by apply Part000_DepositPackage_Err in Hdep as ->.
Qed.

Lemma well_formed_new_package w p pv :
  well_formed w → packages w !! p = None → well_formed (set_pkg p pv w).
Proof.
  intros (Hg & Hctl & Hcap & Hvc & Hty & Hfree & Hlinked & [Hreg Hmap] & Hids & Hlen) Hp.
  assert (Hother : ∀ q qv, packages w !! q = Some qv →
                     packages (set_pkg p pv w) !! q = Some qv).
  { intros q qv Hq. unfold set_pkg. cbn. rewrite lookup_insert_ne; [done|congruence]. }
  unfold well_formed.
  change (inventory (set_pkg p pv w)) with (inventory w).
  split; [done|]. split; [done|]. split; [done|]. split; [done|].
  split; [done|]. split; [done|].
  split.
  { apply linked_index. intros i l Hl.
    change (index (Inventory.Lockers (inventory w)) i = Some l) in Hl.
    apply points_back_iff. intros q Hq.
    destruct (proj1 (points_back_iff _ _ _) (proj1 (linked_index w) Hlinked i l Hl) q Hq)
      as (qv & Hqv & Hb).
    exists qv. split; [by apply Hother|done]. }
  split; [|done].
  split.
  - apply registered_index. intros i l Hl.
    change (index (Inventory.Lockers (inventory w)) i = Some l) in Hl.
    apply registered_iff. intros q Hq.
    destruct (proj1 (registered_iff _ _ _) (proj1 (registered_index w) Hreg i l Hl) q Hq)
      as (qv & Hqv & Hk).
    exists qv. split; [by apply Hother|done].
  - intros id k Hk.
    change (Inventory.LockersByPackageId (inventory w) !! id = Some k) in Hk.
    apply holds_iff.
    destruct (proj1 (holds_iff _ _ _) (Hmap id k Hk)) as (l & q & qv & Hl & Hq & Hqv & Hid).
    exists l, q, qv. split; [done|]. split; [done|]. split; [by apply Hother|done].
Qed.

(** X18.  Every state that the clients of revision [src/unnamed/part_000]
    can reach from [NewInventory] by making packages, depositing and
    retrieving is well formed: the virtual capacities are exact, the free
    lists hold exactly the empty lockers, lockers and packages point at
    each other, and the registry of package identifiers lists exactly the
    stored packages. *)
Theorem reachable_well_formed uuid range_control (w : World) :
  (∀ m, range_control m ≡ₚ (map_to_list m).*1) →
  reachable uuid range_control w →
  well_formed w.
Proof.
  intros Hrange Hreach.
  induction Hreach as [counts inv pkgs Hnew|w p pv _ IH Hp|w order pkg r w' _ IH Hperm Hdep
                       |w pkg r w' _ IH Hret|w id r w' _ IH Hret|w id r w' _ IH Hret].
  - destruct (NewInventory_built _ _ _ _ Hrange Hnew) as (b & _ & Hb & Hi & ->).
    by eapply finished_starts_well_formed.
  - by apply well_formed_new_package.
  - by eapply Part000_DepositPackage_any_keeps.
  - by eapply Part000_RetrievePackage_keeps.
  - by eapply Part000_RetrievePackageById_keeps.
  - by eapply Part000_RetrievePackageByLockerId_keeps.
Qed.

Lemma reachable_well_formed_witness : well_formed example_deposited.
Proof.
  apply (reachable_well_formed example_uuid example_range).
  - intros m. reflexivity.
  - apply (reachable_deposit _ _ example_world example_order 1%positive (Ok "7")).
    + apply (reachable_new _ _ example_counts). vm_compute. reflexivity.
    + reflexivity.
    + vm_compute. reflexivity.
Defined.

(** ** Deposits followed by other operations *)

Lemma set_back i lv lv' p pv pv' w :
  index (Inventory.Lockers (inventory w)) i = Some lv →
  packages w !! p = Some pv →
  set_pkg p pv (set_locker i lv (set_pkg p pv' (set_locker i lv' w))) = w.
Proof.
  intros Hlv Hp.
  rewrite <- (set_pkg_set_locker p), set_pkg_twice, set_locker_twice.
  rewrite set_pkg_set_locker, set_locker_id; [by rewrite set_pkg_id|done].
Qed.

(** X19.  After a successful [DepositPackage] of revision
    [src/unnamed/part_000], [RetrievePackage] on the deposited package
    returns it and restores the state that preceded the deposit, and until
    then a second deposit of a package with the same identifier is refused
    as a duplicate and changes nothing. *)
Theorem Part000_deposit_then_retrieve order pkg (w : World) lid w' :
  vc_ok (inventory w) → free_typed (inventory w) →
  Part000.DepositPackage order pkg w = Some (Ok lid, w') →
  Part000.RetrievePackage pkg w' = Some (Ok pkg, w)
  ∧ ∀ order2 pkg2 pv pv2,
      packages w !! pkg = Some pv →
      packages w' !! pkg2 = Some pv2 →
      Package.Id pv2 = Package.Id pv →
      Part000.DepositPackage order2 pkg2 w' = Some (Err "Duplicate package ID", w').
Proof.
  intros Hvc Hty Hdep.
  destruct (Part000_retrieve_after_deposit _ _ _ _ _ Hvc Hty Hdep)
    as (i & pv & lv & Hp & Hlv & Hcont & _ & Hreg & _ & Hret).
  apply Part000_DepositPackage_success in Hdep
    as (pv0 & S & c & rest & i0 & lv0 & Hp0 & _ & _ & _ & _ & _ & _ & _ & _ & _ & Hw').
  rewrite Hp in Hp0. injection Hp0 as <-.
  assert (Hp' : packages w' !! pkg = Some (Package.with_StoredIn pv (Some (PoolLocker i0)))).
  { rewrite Hw'.
    change (<[pkg := Package.with_StoredIn pv (Some (PoolLocker i0))]> (packages w) !! pkg
            = Some (Package.with_StoredIn pv (Some (PoolLocker i0)))).
    apply lookup_insert_eq. }
  split.
  - unfold Part000.RetrievePackage.
    rewrite (bind_eq _ _ _ _ _ (load_pkg_Some _ _ _ Hp')).
    unfold Part000.RetrievePackageById.
    rewrite (bind_eq _ _ _ _ _ (get_inv_eq _)).
    change (Package.Id (Package.with_StoredIn pv (Some (PoolLocker i0))))
      with (Package.Id pv).
    by rewrite (comma_ok_Some _ _ _ Hreg).
  - intros order2 pkg2 pv1 pv2 Hp1 Hp2 Hid.
    rewrite Hp in Hp1. injection Hp1 as <-.
    destruct (DepositPackage_duplicate order2 pkg2 w' pv2 Hp2) as [_ H]; [|exact H].
    rewrite Hid, Hreg. by eauto.
Qed.

Lemma Part000_deposit_then_retrieve_witness :
  ∃ lid w',
    Part000.DepositPackage example_order 1%positive example_world = Some (Ok lid, w')
    ∧ Part000.RetrievePackage 1%positive w' = Some (Ok 1%positive, example_world).
Proof.
  assert (Hvc : vc_ok (inventory example_world))
    by (refine (bool_decide_unpack _ _); vm_compute; exact I).
  assert (Hf : free_typed (inventory example_world))
    by (refine (bool_decide_unpack _ _); vm_compute; exact I).
  destruct (Part000.DepositPackage example_order 1%positive example_world)
    as [[[lid|e] w']|] eqn:Hdep; [|vm_compute in Hdep; discriminate..].
  exists lid, w'. split; [reflexivity|].
  exact (proj1 (Part000_deposit_then_retrieve example_order 1%positive example_world
                  lid w' Hvc Hf Hdep)).
Defined.

Lemma LockersGo_DepositPackage_success order pkg w lid w' :
  free_typed (inventory w) → free_exact (inventory w) →
  LockersGo.DepositPackage order pkg w = Some (Ok lid, w') →
  ∃ pv chosen_id c rest i lv,
    packages w !! pkg = Some pv
    ∧ GetMostSuitableLockerSize order (Normalize (Package.Size pv)) w
      = Some (Ok chosen_id, w)
    ∧ AllocateLocker chosen_id w
      = Some (i, upd_control
                   (adjust_all (chosen_id :: LockerControlSpec.BiggerThan c) (-1)
                    ∘ <[chosen_id := LockerControlSpec.with_Lockers c rest]>) w)
    ∧ Inventory.Control (inventory w) !! chosen_id = Some c
    ∧ LockerControlSpec.Lockers c = rest ++ [i]
    ∧ index (Inventory.Lockers (inventory w)) i = Some lv
    ∧ Locker.Contents lv = None
    ∧ Locker.SizeId lv = chosen_id
    ∧ lid = Locker.Id lv
    ∧ w' = match Package.StoredIn pv with
           | Some _ =>
               upd_control
                 (adjust_all (chosen_id :: LockerControlSpec.BiggerThan c) (-1)
                  ∘ <[chosen_id := LockerControlSpec.with_Lockers c rest]>) w
           | None =>
               set_pkg pkg (Package.with_StoredIn pv (Some (PoolLocker i)))
                 (set_locker i (Locker.with_Contents lv (Some pkg))
                    (upd_control
                       (adjust_all (chosen_id :: LockerControlSpec.BiggerThan c) (-1)
                        ∘ <[chosen_id := LockerControlSpec.with_Lockers c rest]>) w))
           end.
Proof.
  intros Hty Hfree (pv & Hp & H)%LockersGo_DepositPackage_inv.
  destruct (Inventory.LockersByPackageId (inventory w) !! Package.Id pv) eqn:Hdup;
    [by destruct H|].
  destruct H as ([chosen|e] & Hg & H); [|by destruct H].
  destruct H as (i & w1 & e & l & Halloc & Hput & Hl & [= ->]).
  pose proof Halloc as Hspec.
  apply AllocateLocker_spec in Hspec as (c & rest & Hc & Hrest & Hall & ->).
  assert (Hin : i ∈ LockerControlSpec.Lockers c).
  { rewrite Hrest. apply elem_of_app. right. by left. }
  destruct (free_exact_lists _ _ _ Hfree Hc) as [_ Hempty].
  destruct (Hempty i Hin) as (lv & Hlv & Hcont).
  pose proof (free_typed_index _ _ _ _ Hty Hc Hin) as Hsz.
  rewrite Hlv in Hsz. cbn in Hsz. injection Hsz as Hsz.
  apply Put_spec in Hput as (lv' & Hlv' & Hput).
  change (index (Inventory.Lockers (inventory w)) i = Some lv') in Hlv'.
  rewrite Hlv in Hlv'. injection Hlv' as <-. rewrite Hcont in Hput.
  destruct Hput as (pv' & Hp' & Hput).
  change (packages w !! pkg = Some pv') in Hp'.
  rewrite Hp in Hp'. injection Hp' as <-.
  exists pv, chosen, c, rest, i, lv.
  split; [done|]. split; [done|]. split; [done|]. split; [done|]. split; [done|].
  split; [done|]. split; [done|]. split; [done|].
  destruct (Package.StoredIn pv) eqn:Hst.
  - destruct Hput as [_ ->].
    change (index (Inventory.Lockers (inventory w)) i = Some l) in Hl.
    rewrite Hlv in Hl. injection Hl as <-. done.
  - destruct Hput as [_ ->].
    change (index (<[Z.to_nat i := Locker.with_Contents lv (Some pkg)]>
                     (Inventory.Lockers (inventory w))) i = Some l) in Hl.
    rewrite (index_insert_eq _ _ _ _ Hlv) in Hl. injection Hl as <-. done.
Qed.

(** X20.  Revision [src/lockers.go]: after a [DepositPackage] that stored
    the package (the package was in no locker), [RetrievePackageByLockerId]
    with the returned locker identifier returns the package and restores
    the state that preceded the deposit. *)
Theorem LockersGo_deposit_retrieve_by_locker_id order pkg (w : World) lid w' pv :
  vc_ok (inventory w) → free_typed (inventory w) → free_exact (inventory w) →
  ids_indexed (inventory w) →
  packages w !! pkg = Some pv → Package.StoredIn pv = None →
  LockersGo.DepositPackage order pkg w = Some (Ok lid, w') →
  LockersGo.RetrievePackageByLockerId lid w' = Some (Ok pkg, w).
Proof.
  intros Hvc Hty Hfree Hids Hp Hst Hdep.
  apply LockersGo_DepositPackage_success in Hdep
    as (pv0 & S & c & rest & i & lv & Hp0 & _ & Halloc & Hc & Hrest & Hlv & Hcont & Hsz
        & -> & ->); [|done..].
  rewrite Hp in Hp0. injection Hp0 as <-. rewrite Hst.
  set (w1 := upd_control _ w) in *.
  set (lvS := Locker.with_Contents lv (Some pkg)).
  set (pvS := Package.with_StoredIn pv (Some (PoolLocker i))).
  pose proof (ids_indexed_lookup _ _ _ Hids Hlv) as Hlid.
  unfold LockersGo.RetrievePackageByLockerId.
  rewrite (bind_eq _ _ _ _ _ (get_inv_eq _)).
  change (Inventory.LockersById (inventory (set_pkg pkg pvS (set_locker i lvS w1))))
    with (Inventory.LockersById (inventory w)).
  rewrite (comma_ok_Some _ _ _ Hlid).
  unfold LockersGo.RetrievePackageInternal. cbn [negb].
  assert (HF : Fetch i (set_pkg pkg pvS (set_locker i lvS w1)) = Some (Ok pkg, w1)).
  { apply Fetch_spec. exists lvS. split.
    { change (index (<[Z.to_nat i := lvS]> (Inventory.Lockers (inventory w))) i = Some lvS).
      by eapply index_insert_eq. }
    cbn. exists pvS. split.
    { change (<[pkg := pvS]> (packages w) !! pkg = Some pvS). apply lookup_insert_eq. }
    split; [done|]. symmetry.
    replace (Locker.with_Contents lvS None) with lv
      by (destruct lv; cbn in *; by subst).
    replace (Package.with_StoredIn pvS None) with pv
      by (destruct pv; cbn in *; by subst).
    by apply set_back. }
  rewrite (bind_eq _ _ _ _ _ HF).
  rewrite (bind_eq _ _ _ _ _ (Allocate_Deallocate _ _ _ _ _ Hvc Hlv Hsz Halloc)).
  reflexivity.
Qed.

Lemma LockersGo_deposit_retrieve_by_locker_id_witness :
  ∃ lid w',
    LockersGo.DepositPackage example_order 1%positive example_world = Some (Ok lid, w')
    ∧ LockersGo.RetrievePackageByLockerId lid w' = Some (Ok 1%positive, example_world).
Proof.
  assert (Hvc : vc_ok (inventory example_world))
    by (refine (bool_decide_unpack _ _); vm_compute; exact I).
  assert (Hf : free_typed (inventory example_world))
    by (refine (bool_decide_unpack _ _); vm_compute; exact I).
  assert (Hfe : free_exact (inventory example_world))
    by (refine (bool_decide_unpack _ _); vm_compute; exact I).
  assert (Hids : ids_indexed (inventory example_world))
    by (refine (bool_decide_unpack _ _); vm_compute; exact I).
  assert (Hp : packages example_world !! 1%positive
               = Some (Package.mk "parcel" (mkSizeSpec 2 1 4) None))
    by (vm_compute; reflexivity).
  destruct (LockersGo.DepositPackage example_order 1%positive example_world)
    as [[[lid|e] w']|] eqn:Hdep; [|vm_compute in Hdep; discriminate..].
  exists lid, w'. split; [reflexivity|].
  exact (LockersGo_deposit_retrieve_by_locker_id example_order 1%positive example_world
           lid w' _ Hvc Hf Hfe Hids Hp eq_refl Hdep).
Defined.

(** ** Revision [src/lockers.go]: what [DepositPackage] leaves behind *)

Lemma LockersGo_DepositPackage_runs order pkg w pv chosen_id :
  well_formed w →
  packages w !! pkg = Some pv →
  Inventory.LockersByPackageId (inventory w) !! Package.Id pv = None →
  GetMostSuitableLockerSize order (Normalize (Package.Size pv)) w = Some (Ok chosen_id, w) →
  candidate (inventory w) (Normalize (Package.Size pv)) chosen_id →
  ∃ lid w', LockersGo.DepositPackage order pkg w = Some (Ok lid, w').
Proof.
  intros (Hg & Hctl & Hcap & Hvc & Hty & Hfree & Hlinked & Hregs & Hids & Hlen)
    Hp Hdup HG (size & ctrl & Hsize & Hfits & Hctrl & Hne).
  destruct (last (LockerControlSpec.Lockers ctrl)) as [i|] eqn:Hlast;
    [|by apply last_None in Hlast].
  apply last_Some in Hlast as [rest Hrest].
  destruct (free_exact_lists _ _ _ Hfree Hctrl) as [_ Hempty].
  destruct (Hempty i) as (lv & Hlv & Hcont).
  { rewrite Hrest. apply elem_of_app. right. by left. }
  unfold LockersGo.DepositPackage.
  rewrite (bind_eq _ _ _ _ _ (load_pkg_Some _ _ _ Hp)).
  rewrite (bind_eq _ _ _ _ _ (get_inv_eq w)).
  rewrite comma_ok_snd, Hdup.
  rewrite (bind_eq _ _ _ _ _ HG).
  set (w1 := upd_control
               (adjust_all (chosen_id :: LockerControlSpec.BiggerThan ctrl) (-1)
                ∘ <[chosen_id := LockerControlSpec.with_Lockers ctrl rest]>) w).
  assert (HAlloc : AllocateLocker chosen_id w = Some (i, w1)).
  { apply AllocateLocker_spec. exists ctrl, rest. split; [exact Hctrl|].
    split; [done|]. split; [|done].
    by destruct (Hg chosen_id ctrl Hctrl) as (_ & _ & Hb & _). }
  rewrite (bind_eq _ _ _ _ _ HAlloc).
  assert (Hlv1 : index (Inventory.Lockers (inventory w1)) i = Some lv) by exact Hlv.
  assert (Hp1 : packages w1 !! pkg = Some pv) by exact Hp.
  destruct (Package.StoredIn pv) eqn:Hst.
  - assert (HPut : Put i pkg w1 = Some (Some "Package already in locker"%string, w1)).
    { apply Put_spec. exists lv. split; [done|]. rewrite Hcont.
      exists pv. split; [done|]. by rewrite Hst. }
    rewrite (bind_eq _ _ _ _ _ HPut).
    unfold bind. rewrite load_locker_eq, Hlv1. cbn. by eauto.
  - set (w2 := set_pkg pkg (Package.with_StoredIn pv (Some (PoolLocker i)))
                 (set_locker i (Locker.with_Contents lv (Some pkg)) w1)).
    assert (HPut : Put i pkg w1 = Some (None, w2)).
    { apply Put_spec. exists lv. split; [done|]. rewrite Hcont.
      exists pv. split; [done|]. by rewrite Hst. }
    rewrite (bind_eq _ _ _ _ _ HPut).
    unfold bind. rewrite load_locker_eq.
    assert (Hlv2 : index (Inventory.Lockers (inventory w2)) i
                   = Some (Locker.with_Contents lv (Some pkg))).
    { change (index (<[Z.to_nat i := Locker.with_Contents lv (Some pkg)]>
                       (Inventory.Lockers (inventory w))) i
              = Some (Locker.with_Contents lv (Some pkg))).
      by eapply index_insert_eq. }
    rewrite Hlv2. cbn. by eauto.
Qed.

(** X21.  Revision [src/lockers.go] drops the error of [Put].  On a
    well-formed state, the deposit of a package that is already in a locker
    (and whose identifier is not registered, some class with a free locker
    containing its size) reports success and returns a locker identifier,
    although the package has not been stored: the locker is still empty,
    the packages are unchanged, and the locker has been taken off its free
    list, so that the free lists no longer hold exactly the empty lockers.
    Revision [src/unnamed/part_000] returns the error of [Put] and changes
    nothing. *)
Theorem LockersGo_deposit_of_stored_package order pkg (w : World) pv :
  well_formed w →
  order ≡ₚ map_to_list (Inventory.Sizes (inventory w)) →
  packages w !! pkg = Some pv →
  Inventory.LockersByPackageId (inventory w) !! Package.Id pv = None →
  is_Some (Package.StoredIn pv) →
  (∃ id, candidate (inventory w) (Normalize (Package.Size pv)) id) →
  (∃ lid w' i lv,
     LockersGo.DepositPackage order pkg w = Some (Ok lid, w')
     ∧ index (Inventory.Lockers (inventory w')) i = Some lv
     ∧ Locker.Id lv = lid
     ∧ Locker.Contents lv = None
     ∧ packages w' = packages w
     ∧ ¬ free_exact (inventory w'))
  ∧ Part000.DepositPackage order pkg w = Some (Err "Package already in locker", w).
Proof.
  intros Hwf Hperm Hp Hdup [ptr Hst] [id0 Hcand0].
  pose proof Hwf as (Hg & Hctl & _ & _ & Hty & Hfree & _).
  destruct (GetMostSuitableLockerSize_total order (Normalize (Package.Size pv)) w
              Hperm Hctl) as (l & Hcand & Hres).
  destruct l as [|first others].
  { apply Hcand in Hcand0. by apply elem_of_nil in Hcand0. }
  destruct Hres as [chosen HG].
  destruct (GetMostSuitableLockerSize_Ok_candidate _ _ _ _ _ Hperm HG) as [_ Hchosen].
  split.
  - destruct (LockersGo_DepositPackage_runs order pkg w pv chosen Hwf Hp Hdup HG Hchosen)
      as (lid & w' & Hrun).
    pose proof Hrun as Hs.
    apply LockersGo_DepositPackage_success in Hs
      as (pv0 & S & c & rest & i & lv & Hp0 & _ & _ & Hc & Hrest & Hlv & Hcont & Hsz
          & -> & Hw'); [|done..].
    rewrite Hp in Hp0. injection Hp0 as <-. rewrite Hst in Hw'.
    exists (Locker.Id lv), w', i, lv. split; [exact Hrun|]. subst w'.
    split; [exact Hlv|]. split; [done|]. split; [done|]. split; [reflexivity|].
    intros Hfree'.
    pose proof (free_exact_accounted _ i lv Hfree' Hlv) as Hacc.
    unfold locker_accounted in Hacc. rewrite upd_control_control in Hacc.
    cbn [compose] in Hacc. rewrite (adjusted_control _ _ _ _ _ Hg Hc) in Hacc.
    rewrite reallocated_lookup, Hsz, Hc in Hacc. cbn in Hacc.
    rewrite decide_True in Hacc by done. specialize (Hacc Hcont).
    destruct (free_exact_lists _ _ _ Hfree Hc) as [Hnd _].
    rewrite Hrest in Hnd. by apply NoDup_snoc in Hnd as [Hni _].
  - pose proof (Part000_DepositPackage_runs order pkg w pv chosen Hwf Hp Hdup HG Hchosen)
      as Hrun.
    by rewrite Hst in Hrun.
Qed.

Lemma LockersGo_deposit_of_stored_package_witness :
  let w := set_pkg 1%positive
             (Package.mk "parcel" (mkSizeSpec 2 1 4) (Some (OtherLocker 1))) example_world in
  (∃ lid w' i lv,
     LockersGo.DepositPackage example_order 1%positive w = Some (Ok lid, w')
     ∧ index (Inventory.Lockers (inventory w')) i = Some lv
     ∧ Locker.Id lv = lid
     ∧ Locker.Contents lv = None
     ∧ packages w' = packages w
     ∧ ¬ free_exact (inventory w'))
  ∧ Part000.DepositPackage example_order 1%positive w
    = Some (Err "Package already in locker", w).
Proof.
  intros w.
  assert (Hwf : well_formed w)
    by (refine (bool_decide_unpack _ _); vm_compute; exact I).
  assert (Hperm : example_order ≡ₚ map_to_list (Inventory.Sizes (inventory w)))
    by reflexivity.
  assert (Hp : packages w !! 1%positive
               = Some (Package.mk "parcel" (mkSizeSpec 2 1 4) (Some (OtherLocker 1))))
    by (vm_compute; reflexivity).
  apply (LockersGo_deposit_of_stored_package example_order 1%positive w _ Hwf Hperm Hp).
  - vm_compute. reflexivity.
  - cbn. eexists. reflexivity.
  - exists 4.
    exists (mkSizeSpec 5 5 5), (LockerControlSpec.mk 4 (mkSizeSpec 5 5 5) [1; 2; 3] [] [7] 1).
    split; [vm_compute; reflexivity|]. split; [reflexivity|].
    split; [vm_compute; reflexivity|]. discriminate.
Defined.

Lemma LockersGo_RetrievePackageInternal_keeps_registry i ok w r w' :
  LockersGo.RetrievePackageInternal i ok w = Some (r, w') →
  Inventory.LockersByPackageId (inventory w')
  = Inventory.LockersByPackageId (inventory w).
Proof.
  destruct ok.
  - intros (lv & Hlv & H)%LockersGo_RetrievePackageInternal_inv.
    destruct (Locker.Contents lv) as [p|]; [|by destruct H as [_ ->]].
    destruct H as (pv & Hp & Hd & _).
    by apply DeallocateLocker_spec in Hd as (l & c & _ & _ & _ & ->).
  - unfold LockersGo.RetrievePackageInternal. cbn [negb]. unfold ret. by intros [= _ <-].
Qed.

(** X22.  Revision [src/lockers.go] never writes [LockersByPackageId]:
    [DepositPackage] and the three retrievals leave the map as it is.  As
    [NewInventory] makes it empty, [RetrievePackageById] and
    [RetrievePackage] fail with the unknown-identifier error for every
    identifier as long as the map is empty, and [DepositPackage] never
    reports a duplicate. *)
Theorem LockersGo_never_registers (w : World) :
  (∀ order pkg r w',
     LockersGo.DepositPackage order pkg w = Some (r, w') →
     Inventory.LockersByPackageId (inventory w')
     = Inventory.LockersByPackageId (inventory w))
  ∧ (∀ id r w',
       LockersGo.RetrievePackageById id w = Some (r, w')
       ∨ LockersGo.RetrievePackageByLockerId id w = Some (r, w') →
       Inventory.LockersByPackageId (inventory w')
       = Inventory.LockersByPackageId (inventory w))
  ∧ (∀ pkg r w',
       LockersGo.RetrievePackage pkg w = Some (r, w') →
       Inventory.LockersByPackageId (inventory w')
       = Inventory.LockersByPackageId (inventory w))
  ∧ (Inventory.LockersByPackageId (inventory w) = ∅ →
     (∀ id, LockersGo.RetrievePackageById id w = Some (Err "Package ID not known", w))
     ∧ (∀ pkg pv, packages w !! pkg = Some pv →
          LockersGo.RetrievePackage pkg w = Some (Err "Package ID not known", w))
     ∧ (∀ order pkg w',
          LockersGo.DepositPackage order pkg w ≠ Some (Err "Duplicate package ID", w'))).
Proof.
  assert (Hby_id : ∀ id r w',
    LockersGo.RetrievePackageById id w = Some (r, w') →
    Inventory.LockersByPackageId (inventory w')
    = Inventory.LockersByPackageId (inventory w)).
  { intros id r w'. unfold LockersGo.RetrievePackageById.
    rewrite (bind_eq _ _ _ _ _ (get_inv_eq _)).
    destruct (comma_ok _ _) as [lid ok].
    apply LockersGo_RetrievePackageInternal_keeps_registry. }
  split; [|split; [|split]].
  - intros order pkg r w'. apply LockersGo_deposit_keeps_by_package_id.
  - intros id r w' [H|H]; [by apply (Hby_id id r)|].
    revert H. unfold LockersGo.RetrievePackageByLockerId.
    rewrite (bind_eq _ _ _ _ _ (get_inv_eq _)).
    destruct (comma_ok _ _) as [lid ok].
    apply LockersGo_RetrievePackageInternal_keeps_registry.
  - intros pkg r w'. unfold LockersGo.RetrievePackage. unfold bind at 1.
    rewrite load_pkg_eq. destruct (packages w !! pkg) as [pv|]; [|done]. cbn.
    apply Hby_id.
  - intros Hempty.
    assert (Hnone : ∀ id, LockersGo.RetrievePackageById id w
                          = Some (Err "Package ID not known", w)).
    { intros id. unfold LockersGo.RetrievePackageById.
      rewrite (bind_eq _ _ _ _ _ (get_inv_eq _)).
      rewrite comma_ok_None; [done|]. by rewrite Hempty, lookup_empty. }
    split; [exact Hnone|]. split.
    + intros pkg pv Hp. unfold LockersGo.RetrievePackage.
      rewrite (bind_eq _ _ _ _ _ (load_pkg_Some _ _ _ Hp)). apply Hnone.
    + intros order pkg w' (pv & Hp & H)%LockersGo_DepositPackage_inv.
      rewrite Hempty, lookup_empty in H.
      destruct H as ([chosen|e] & HG & H).
      * by destruct H as (? & ? & ? & ? & _ & _ & _ & [=]).
      * destruct H as [[= <-] _].
        apply GetMostSuitableLockerSize_inv in HG as (_ & l & _ & Hr).
        destruct l as [|f o]; [by injection Hr|]. by destruct Hr as (? & [=] & _).
Qed.

(** ** Adjustments add up *)

Lemma with_VirtualCapacity_twice c x y :
  LockerControlSpec.with_VirtualCapacity (LockerControlSpec.with_VirtualCapacity c x) y
  = LockerControlSpec.with_VirtualCapacity c y.
Proof. by destruct c. Qed.

Lemma wrap_add_mul v n a : wrap (v + n * wrap a) = wrap (v + n * a).
Proof.
  rewrite (Z.add_comm v), <- wrap_add_l, (Z.mul_comm n), wrap_mul_l.
  rewrite wrap_add_l. f_equal. lia.
Qed.

Lemma iter_bump_add n a b c :
  int_ok (LockerControlSpec.VirtualCapacity c) →
  Nat.iter n (bump b) (Nat.iter n (bump a) c) = Nat.iter n (bump (int_add a b)) c.
Proof.
  intros Hok. rewrite (iter_bump n a c Hok), (iter_bump n (int_add a b) c Hok).
  rewrite iter_bump by apply wrap_ok. cbn.
  rewrite with_VirtualCapacity_twice, wrap_add_l. unfold int_add.
  rewrite wrap_add_mul. do 2 f_equal. lia.
Qed.

Lemma iter_bump_zero n c :
  int_ok (LockerControlSpec.VirtualCapacity c) → Nat.iter n (bump 0) c = c.
Proof.
  intros Hok. rewrite (iter_bump n 0 c Hok), Z.mul_0_r, Z.add_0_r, wrap_small by done.
  by destruct c.
Qed.

Lemma adjust_all_add ids a b (C : gmap LockerSize LockerControlSpec) :
  map_Forall (λ _ c, int_ok (LockerControlSpec.VirtualCapacity c)) C →
  adjust_all ids b (adjust_all ids a C) = adjust_all ids (int_add a b) C.
Proof.
  intros Hok. apply map_eq. intros k. rewrite !adjust_all_lookup.
  destruct (C !! k) as [c|] eqn:Hc; [|done]. cbn. f_equal.
  apply iter_bump_add. exact (Hok k c Hc).
Qed.

Lemma adjust_all_zero ids (C : gmap LockerSize LockerControlSpec) :
  map_Forall (λ _ c, int_ok (LockerControlSpec.VirtualCapacity c)) C →
  adjust_all ids 0 C = C.
Proof.
  intros Hok. apply map_eq. intros k. rewrite adjust_all_lookup.
  destruct (C !! k) as [c|] eqn:Hc; [|done]. cbn. f_equal.
  apply iter_bump_zero. exact (Hok k c Hc).
Qed.

(** [AdjustVirtualCapacity] runs to the adjusted state when the class and
    the classes of its [BiggerThan] list have their control blocks. *)
Lemma AdjustVirtualCapacity_runs size_id by_ w ctrl :
  Inventory.Control (inventory w) !! size_id = Some ctrl →
  Forall (λ id, is_Some (Inventory.Control (inventory w) !! id))
         (LockerControlSpec.BiggerThan ctrl) →
  AdjustVirtualCapacity size_id by_ w
  = Some (tt, upd_control (adjust_all (size_id :: LockerControlSpec.BiggerThan ctrl) by_) w).
Proof.
  intros Hc Hall. apply AdjustVirtualCapacity_spec. by exists ctrl.
Qed.

(** X23.  Adjustments of the virtual capacities add up (the virtual
    capacities being ints): after [AdjustVirtualCapacity] by [a],
    adjusting the same class by [b] has the result of one adjustment of
    the first state by the wrapped sum [a + b]; adjusting by the wrapped
    [-a] restores the first state; and an adjustment by 0 changes
    nothing. *)
Theorem AdjustVirtualCapacity_adds_up size_id a b (w w1 : World) :
  vc_ok (inventory w) →
  AdjustVirtualCapacity size_id a w = Some (tt, w1) →
  AdjustVirtualCapacity size_id b w1 = AdjustVirtualCapacity size_id (int_add a b) w
  ∧ AdjustVirtualCapacity size_id (int_sub 0 a) w1 = Some (tt, w)
  ∧ AdjustVirtualCapacity size_id 0 w = Some (tt, w).
Proof.
  intros Hvc Hadj.
  apply AdjustVirtualCapacity_spec in Hadj as (c & Hc & Hall & ->).
  set (ids := size_id :: LockerControlSpec.BiggerThan c).
  set (n := count_occ Z.eq_dec ids size_id).
  assert (Hc1 : Inventory.Control (inventory (upd_control (adjust_all ids a) w)) !! size_id
                = Some (Nat.iter n (bump a) c)).
  { by rewrite upd_control_control, adjust_all_lookup, Hc. }
  destruct (iter_bump_fields n a c) as (Hb & _).
  assert (Hall1 : Forall (λ id, is_Some (Inventory.Control
                     (inventory (upd_control (adjust_all ids a) w)) !! id))
                    (LockerControlSpec.BiggerThan (Nat.iter n (bump a) c))).
  { rewrite Hb. eapply Forall_impl; [exact Hall|]. intros k Hk. cbn in Hk.
    by rewrite upd_control_control, adjust_all_is_Some. }
  assert (Hsecond : ∀ x, AdjustVirtualCapacity size_id x (upd_control (adjust_all ids a) w)
                         = AdjustVirtualCapacity size_id (int_add a x) w).
  { intros x. rewrite (AdjustVirtualCapacity_runs _ x _ _ Hc1 Hall1).
    rewrite (AdjustVirtualCapacity_runs _ (int_add a x) _ _ Hc Hall).
    rewrite Hb. fold ids. rewrite upd_control_compose. do 2 f_equal.
    apply upd_control_ext. cbn [compose]. by apply adjust_all_add. }
  assert (Hzero : AdjustVirtualCapacity size_id 0 w = Some (tt, w)).
  { rewrite (AdjustVirtualCapacity_runs _ 0 _ _ Hc Hall). fold ids. do 2 f_equal.
    apply upd_control_id. by apply adjust_all_zero. }
  split; [exact (Hsecond b)|]. split; [|exact Hzero].
  rewrite Hsecond.
  assert (int_add a (int_sub 0 a) = 0) as ->; [|exact Hzero].
  unfold int_add, int_sub. rewrite (Z.add_comm a), wrap_add_l.
  replace (0 - a + a) with 0 by lia. reflexivity.
Qed.

Lemma AdjustVirtualCapacity_adds_up_witness :
  ∃ w1,
    AdjustVirtualCapacity 4 (-3) example_world = Some (tt, w1)
    ∧ AdjustVirtualCapacity 4 5 w1 = AdjustVirtualCapacity 4 (int_add (-3) 5) example_world
    ∧ AdjustVirtualCapacity 4 (int_sub 0 (-3)) w1 = Some (tt, example_world)
    ∧ AdjustVirtualCapacity 4 0 example_world = Some (tt, example_world).
Proof.
  assert (Hvc : vc_ok (inventory example_world))
    by (refine (bool_decide_unpack _ _); vm_compute; exact I).
  destruct (AdjustVirtualCapacity 4 (-3) example_world) as [[[] w1]|] eqn:Hadj;
    [|vm_compute in Hadj; discriminate].
  exists w1. split; [reflexivity|].
  exact (AdjustVirtualCapacity_adds_up 4 (-3) 5 example_world w1 Hvc Hadj).
Defined.
